(** * geneedit.py: a shallow embedding of the breeding-simulation core

    The development follows [src/gene-editing/geneedit.py] (Python 2).

    Conventions of the embedding.
    - Animal records are Python dicts that live on the heap and are shared
      between the live/dead lists and the herd portfolios, so the lists of
      the program are lists of heap locations and every write goes through
      the store.
    - Python floats are idealised as exact rationals ([Q]).
    - The pseudo-random generators ([random], [scipy.stats.bernoulli]) are
      a tape of rational draws read left to right.
    - Exceptions abort the run ([Raise]); the unbounded [while] loops take
      fuel ([OutOfFuel] is not a Python outcome, only an exhausted model).
    - Debug printing is off ([debug=False]); prints and report files are
      not modelled. *)

From Stdlib Require Import ZArith QArith Qround Lia.
From stdpp Require Import gmap strings list fin_maps.

Local Open Scope string_scope.
Local Open Scope list_scope.
Local Open Scope Z_scope.

(** ** Animal records *)

(** [et_count] starts as a per-locus list in [create_new_calf] and is
    overwritten with a plain integer by [edit_genes]. *)
Inductive et_value :=
  | EtList (l : list Z)
  | EtInt (n : Z).

(** The keys of the record dict.  Besides the sixteen string keys of the
    record layout, [create_new_calf] stores under the integer keys 6, 7
    and 8; they are the last three fields. *)
Record animal_record := mkAnimal {
  animal : Z;
  sire : Z;
  dam : Z;
  born : Z;
  sex : string;
  herd : Z;
  alive : string;
  reason : string;
  died : Z;
  tbv : Q;
  inbreeding : Q;
  edit_status : list Z;
  edit_count : list Z;
  et_count : et_value;
  bred : Z;
  genotypes : list Z;
  key6 : option string;
  key7 : option string;
  key8 : option Z
}.

Definition set_animal (v : Z) (a : animal_record) : animal_record :=
  mkAnimal v (sire a) (dam a) (born a) (sex a) (herd a) (alive a) (reason a)
    (died a) (tbv a) (inbreeding a) (edit_status a) (edit_count a)
    (et_count a) (bred a) (genotypes a) (key6 a) (key7 a) (key8 a).

Definition set_born (v : Z) (a : animal_record) : animal_record :=
  mkAnimal (animal a) (sire a) (dam a) v (sex a) (herd a) (alive a) (reason a)
    (died a) (tbv a) (inbreeding a) (edit_status a) (edit_count a)
    (et_count a) (bred a) (genotypes a) (key6 a) (key7 a) (key8 a).

Definition set_alive (v : string) (a : animal_record) : animal_record :=
  mkAnimal (animal a) (sire a) (dam a) (born a) (sex a) (herd a) v (reason a)
    (died a) (tbv a) (inbreeding a) (edit_status a) (edit_count a)
    (et_count a) (bred a) (genotypes a) (key6 a) (key7 a) (key8 a).

Definition set_reason (v : string) (a : animal_record) : animal_record :=
  mkAnimal (animal a) (sire a) (dam a) (born a) (sex a) (herd a) (alive a) v
    (died a) (tbv a) (inbreeding a) (edit_status a) (edit_count a)
    (et_count a) (bred a) (genotypes a) (key6 a) (key7 a) (key8 a).

Definition set_died (v : Z) (a : animal_record) : animal_record :=
  mkAnimal (animal a) (sire a) (dam a) (born a) (sex a) (herd a) (alive a)
    (reason a) v (tbv a) (inbreeding a) (edit_status a) (edit_count a)
    (et_count a) (bred a) (genotypes a) (key6 a) (key7 a) (key8 a).

Definition set_inbreeding (v : Q) (a : animal_record) : animal_record :=
  mkAnimal (animal a) (sire a) (dam a) (born a) (sex a) (herd a) (alive a)
    (reason a) (died a) (tbv a) v (edit_status a) (edit_count a)
    (et_count a) (bred a) (genotypes a) (key6 a) (key7 a) (key8 a).

Definition set_edit_status (v : list Z) (a : animal_record) : animal_record :=
  mkAnimal (animal a) (sire a) (dam a) (born a) (sex a) (herd a) (alive a)
    (reason a) (died a) (tbv a) (inbreeding a) v (edit_count a)
    (et_count a) (bred a) (genotypes a) (key6 a) (key7 a) (key8 a).

Definition set_edit_count (v : list Z) (a : animal_record) : animal_record :=
  mkAnimal (animal a) (sire a) (dam a) (born a) (sex a) (herd a) (alive a)
    (reason a) (died a) (tbv a) (inbreeding a) (edit_status a) v
    (et_count a) (bred a) (genotypes a) (key6 a) (key7 a) (key8 a).

Definition set_et_count (v : et_value) (a : animal_record) : animal_record :=
  mkAnimal (animal a) (sire a) (dam a) (born a) (sex a) (herd a) (alive a)
    (reason a) (died a) (tbv a) (inbreeding a) (edit_status a) (edit_count a)
    v (bred a) (genotypes a) (key6 a) (key7 a) (key8 a).

Definition set_bred (v : Z) (a : animal_record) : animal_record :=
  mkAnimal (animal a) (sire a) (dam a) (born a) (sex a) (herd a) (alive a)
    (reason a) (died a) (tbv a) (inbreeding a) (edit_status a) (edit_count a)
    (et_count a) v (genotypes a) (key6 a) (key7 a) (key8 a).

Definition set_genotypes (v : list Z) (a : animal_record) : animal_record :=
  mkAnimal (animal a) (sire a) (dam a) (born a) (sex a) (herd a) (alive a)
    (reason a) (died a) (tbv a) (inbreeding a) (edit_status a) (edit_count a)
    (et_count a) (bred a) v (key6 a) (key7 a) (key8 a).

Definition set_key6 (v : string) (a : animal_record) : animal_record :=
  mkAnimal (animal a) (sire a) (dam a) (born a) (sex a) (herd a) (alive a)
    (reason a) (died a) (tbv a) (inbreeding a) (edit_status a) (edit_count a)
    (et_count a) (bred a) (genotypes a) (Some v) (key7 a) (key8 a).

Definition set_key7 (v : string) (a : animal_record) : animal_record :=
  mkAnimal (animal a) (sire a) (dam a) (born a) (sex a) (herd a) (alive a)
    (reason a) (died a) (tbv a) (inbreeding a) (edit_status a) (edit_count a)
    (et_count a) (bred a) (genotypes a) (key6 a) (Some v) (key8 a).

Definition set_key8 (v : Z) (a : animal_record) : animal_record :=
  mkAnimal (animal a) (sire a) (dam a) (born a) (sex a) (herd a) (alive a)
    (reason a) (died a) (tbv a) (inbreeding a) (edit_status a) (edit_count a)
    (et_count a) (bred a) (genotypes a) (key6 a) (key7 a) (Some v).

(** ** Recessive definitions

    [recessives] is a dict from the locus name to its definition; its
    iteration order is fixed for one run, so it is an association list in
    that order. *)
Record recessive := mkRecessive {
  frequency : Q;
  value : Q;
  lethal : Z;
  edit : Z;
  edit_mode : string
}.

Abbreviation recessives_t := (list (string * recessive)) (only parsing).

Definition set_frequency (v : Q) (r : recessive) : recessive :=
  mkRecessive v (value r) (lethal r) (edit r) (edit_mode r).

(** [l.index(x)]: position of the first occurrence. *)
Fixpoint index_of {A} (eqb : A -> A -> bool) (x : A) (l : list A) : option nat :=
  match l with
  | [] => None
  | y :: l' => if eqb y x then Some 0%nat else S <$> index_of eqb x l'
  end.

Definition keys (recessives : recessives_t) : list string := fst <$> recessives.

(** ** Outcomes, the store and the random tape *)

Inductive pyerr :=
  | NameError (name : string)
  | UnboundLocalError (name : string)
  | KeyError
  | IndexError
  | ValueError
  | ZeroDivisionError.

(** Heap locations. *)
Abbreviation loc := nat (only parsing).

Record world := mkWorld {
  heap : list animal_record;
  draws : nat -> Q;
  cursor : nat
}.

Inductive outcome (A : Type) :=
  | Ok (a : A) (w : world)
  | Raise (e : pyerr)
  | OutOfFuel.
Arguments Ok {A} a w.
Arguments Raise {A} e.
Arguments OutOfFuel {A}.

Definition M (A : Type) := world -> outcome A.

Definition ret {A} (a : A) : M A := fun w => Ok a w.

Definition bind {A B} (m : M A) (k : A -> M B) : M B :=
  fun w => match m w with
           | Ok a w' => k a w'
           | Raise e => Raise e
           | OutOfFuel => OutOfFuel
           end.

Definition raise {A} (e : pyerr) : M A := fun _ => Raise e.
Definition out_of_fuel {A} : M A := fun _ => OutOfFuel.

Notation "x <- c1 ;; c2" := (bind c1 (fun x => c2))
  (at level 100, c1 at next level, right associativity).
Notation "c1 ;; c2" := (bind c1 (fun _ => c2))
  (at level 100, right associativity).

(** Lift a partial read: [None] is the given Python exception. *)
Definition or_raise {A} (e : pyerr) (o : option A) : M A :=
  match o with Some a => ret a | None => raise e end.

(** A fresh dict object. *)
Definition alloc (a : animal_record) : M loc :=
  fun w => Ok (length (heap w))
              (mkWorld (heap w ++ [a]) (draws w) (cursor w)).

(** Reading through a reference.  References held by the program always
    point into the store; a dangling one is reported as [KeyError]. *)
Definition deref (l : loc) : M animal_record :=
  fun w => match heap w !! l with
           | Some a => Ok a w
           | None => Raise KeyError
           end.

(** [obj[key] = v] on the object at [l]. *)
Definition modify (l : loc) (f : animal_record -> animal_record) : M unit :=
  fun w => match heap w !! l with
           | Some a => Ok tt (mkWorld (<[l := f a]> (heap w)) (draws w) (cursor w))
           | None => Raise KeyError
           end.

Definition next_draw : M Q :=
  fun w => Ok (draws w (cursor w)) (mkWorld (heap w) (draws w) (S (cursor w))).

(** The fractional part, so that every tape yields uniform draws in [0,1). *)
Definition unit_draw (u : Q) : Q := u - inject_Z (Qfloor u).

(** [random.uniform(0, 1)] *)
Definition random_uniform01 : M Q := u <- next_draw ;; ret (unit_draw u).

(** [bernoulli.rvs(p)]: 1 with probability [p]. *)
Definition bernoulli_rvs (p : Q) : M Z :=
  u <- random_uniform01 ;; ret (if Qle_bool p u then 0 else 1).

(** [bernoulli.rvs(p, size=n)] *)
Fixpoint bernoulli_rvs_size (p : Q) (n : nat) : M (list Z) :=
  match n with
  | O => ret []
  | S n' => x <- bernoulli_rvs p ;; xs <- bernoulli_rvs_size p n' ;; ret (x :: xs)
  end.

(** [random.randint(a, b)]: uniform on a..b, [ValueError] on an empty range. *)
Definition random_randint (a b : Z) : M Z :=
  if b <? a then raise ValueError
  else u <- random_uniform01 ;; ret (a + Qfloor (u * inject_Z (b - a + 1))).

(** [random.normalvariate(mu, sigma)]: the draw is the standard normal
    sample. *)
Definition random_normalvariate (mu sigma : Q) : M Q :=
  z <- next_draw ;; ret (mu + z * sigma)%Q.

(** [for x in xs: body(x)] *)
Fixpoint for_each {A} (xs : list A) (body : A -> M unit) : M unit :=
  match xs with
  | [] => ret tt
  | x :: xs' => body x ;; for_each xs' body
  end.

(** ** Genetic transmission model: [create_new_calf] (l.1931-2113) *)

(** [math.sqrt(0.5)] as the double it evaluates to, 0x3FE6A09E667F3BCD. *)
Definition math_sqrt_half : Q := 6369051672525773 # 9007199254740992.

(** A [for] body either falls through to the next iteration or leaves the
    function with [return calf]. *)
Inductive flow (A : Type) :=
  | Continue (a : A)
  | Return (a : A).
Arguments Continue {A} a.
Arguments Return {A} a.

(** Draw a gamete from a parent genotype: 1 is AA, 0 is Aa, anything else
    is taken as aa. *)
Definition draw_allele (gt : Z) : M string :=
  if gt =? 1 then ret "A"
  else if gt =? 0 then
    x <- bernoulli_rvs (1 # 2) ;;
    ret (if x =? 0 then "A" else "a")
  else ret "a".

Definition append_genotype (g : Z) (calf : animal_record) : animal_record :=
  set_genotypes (genotypes calf ++ [g]) calf.

(** The body of [for rk, rv in recessives.iteritems()]. *)
Definition calf_locus (sire_r dam_r : animal_record) (recessives : recessives_t)
    (generation : Z) (calf_loss dehorning_loss harvest_beef : Q)
    (rk : string) (rv : recessive) (calf : animal_record)
    : M (flow animal_record) :=
  r <- or_raise ValueError (index_of String.eqb rk (keys recessives)) ;;
  b <- or_raise IndexError (genotypes sire_r !! r) ;;
  s_allele <- draw_allele b ;;
  c <- or_raise IndexError (genotypes dam_r !! r) ;;
  d_allele <- draw_allele c ;;
  calf <-
    (if String.eqb s_allele "a" && String.eqb d_allele "a" then
       (* calf[6] = 'D'; calf[7] = 'R'; calf[8] = generation *)
       let calf := if lethal rv =? 1
                   then set_key8 generation (set_key7 "R" (set_key6 "D" calf))
                   else calf in
       ret (append_genotype (-1) calf)
     else if String.eqb s_allele "A" && String.eqb d_allele "A" then
       m <- random_randint 1 100001 ;;
       ret (append_genotype (if m =? 1 then 0 else 1) calf)
     else ret (append_genotype 0 calf)) ;;
  lost <- bernoulli_rvs calf_loss ;;
  if negb (lost =? 0) then
    ret (Return (set_died generation (set_reason "C" (set_alive "D" calf))))
  else
    dehorned <-
      (if String.eqb (alive calf) "A" then
         match index_of String.eqb "Horned" (keys recessives) with
         | Some horned_loc =>
             g <- or_raise IndexError (genotypes calf !! horned_loc) ;;
             if g =? -1 then
               x <- bernoulli_rvs dehorning_loss ;;
               if negb (x =? 0) then
                 ret (Return (set_died generation
                                (set_reason "H" (set_alive "D" calf))))
               else ret (Continue calf)
             else ret (Continue calf)
         | None => ret (Continue calf)
         end
       else ret (Continue calf)) ;;
    match dehorned with
    | Return calf => ret (Return calf)
    | Continue calf =>
        calf <-
          (if String.eqb (alive calf) "A" then
             if String.eqb (sex calf) "M" then
               x <- bernoulli_rvs harvest_beef ;;
               if negb (x =? 0) then
                 ret (set_died generation (set_reason "B" (set_alive "D" calf)))
               else ret calf
             else ret calf
           else ret calf) ;;
        let calf := set_edit_status (edit_status calf ++ [0]) calf in
        let calf := set_edit_count (edit_count calf ++ [0]) calf in
        let calf := match et_count calf with
                    | EtList l => set_et_count (EtList (l ++ [0])) calf
                    | EtInt _ => calf
                    end in
        ret (Continue calf)
    end.

Fixpoint calf_loci (sire_r dam_r : animal_record) (recessives : recessives_t)
    (generation : Z) (calf_loss dehorning_loss harvest_beef : Q)
    (items : recessives_t) (calf : animal_record) : M animal_record :=
  match items with
  | [] => ret calf
  | (rk, rv) :: items' =>
      f <- calf_locus sire_r dam_r recessives generation calf_loss
             dehorning_loss harvest_beef rk rv calf ;;
      match f with
      | Return calf => ret calf
      | Continue calf =>
          calf_loci sire_r dam_r recessives generation calf_loss
            dehorning_loss harvest_beef items' calf
      end
  end.

Definition create_new_calf (sire_r dam_r : animal_record)
    (recessives : recessives_t) (calf_id generation : Z)
    (calf_loss dehorning_loss harvest_beef : Q) : M animal_record :=
  let calf_loss :=
    if Qle_bool 0 calf_loss && Qle_bool calf_loss 1 then calf_loss else 0%Q in
  coin <- bernoulli_rvs (1 # 2) ;;
  let sex := if negb (coin =? 0) then "M" else "F" in
  let pa := ((tbv sire_r + tbv dam_r) * (1 # 2))%Q in
  let var_adj :=
    (math_sqrt_half * (1 - (1 # 2) * (inbreeding sire_r + inbreeding dam_r)))%Q in
  z <- random_normalvariate 0 1 ;;
  let tbv := (pa + z * 200 * var_adj)%Q in
  let calf :=
    mkAnimal calf_id (animal sire_r) (animal dam_r) generation sex (herd dam_r)
      "A" "" (-1) tbv 0 [] [] (EtList []) 0 [] None None None in
  calf_loci sire_r dam_r recessives generation calf_loss dehorning_loss
    harvest_beef recessives calf.

(** ** Helpers shared by the list-manipulating routines *)

(** [for x in xs: acc = body(x, acc)] *)
Fixpoint fold_m {A S} (body : A -> S -> M S) (xs : list A) (s : S) : M S :=
  match xs with
  | [] => ret s
  | x :: xs' => s' <- body x s ;; fold_m body xs' s'
  end.

Fixpoint map_m {A B} (f : A -> M B) (xs : list A) : M (list B) :=
  match xs with
  | [] => ret []
  | x :: xs' => y <- f x ;; ys <- map_m f xs' ;; ret (y :: ys)
  end.

(** [list.sort] is stable: an element is placed before the first element
    whose key it does not exceed ([leb k k'] says that [k] may precede
    [k']). *)
Fixpoint insert_sorted {K A} (leb : K -> K -> bool) (x : K * A)
    (l : list (K * A)) : list (K * A) :=
  match l with
  | [] => [x]
  | y :: l' => if leb (fst x) (fst y) then x :: y :: l'
               else y :: insert_sorted leb x l'
  end.

Definition sort_pairs {K A} (leb : K -> K -> bool) (l : list (K * A))
    : list (K * A) :=
  foldr (insert_sorted leb) [] l.

(** [animals.sort(key=...)] on a list of references: the keys are read
    through the store. *)
Definition sort_on {K} (key : animal_record -> K) (leb : K -> K -> bool)
    (l : list loc) : M (list loc) :=
  keyed <- map_m (fun x => a <- deref x ;; ret (key a, x)) l ;;
  ret (snd <$> sort_pairs leb keyed).

Definition Qge_bool (x y : Q) : bool := Qle_bool y x.

(** [l[i] = v] raises [IndexError] out of range. *)
Definition list_assign {A} (l : list A) (i : nat) (v : A) : option (list A) :=
  if decide (i < length l)%nat then Some (<[i := v]> l) else None.

(** [outcomes.any()] and [np.min(np.nonzero(outcomes))]. *)
Definition any_nonzero (l : list Z) : bool := existsb (fun x => negb (x =? 0)) l.

Fixpoint first_nonzero (l : list Z) : Z :=
  match l with
  | [] => 0
  | x :: l' => if negb (x =? 0) then 0 else 1 + first_nonzero l'
  end.

(** ** [get_next_id] (l.722-754) *)

Fixpoint list_max (l : list Z) : option Z :=
  match l with
  | [] => None
  | x :: l' => match list_max l' with
               | None => Some x
               | Some m => Some (Z.max x m)
               end
  end.

Definition get_next_id (cows bulls dead_cows dead_bulls : list loc)
    (extras : list (list loc)) : M Z :=
  id_list <- map_m (fun x => a <- deref x ;; ret (animal a))
               (cows ++ dead_cows ++ bulls ++ dead_bulls ++ concat extras) ;;
  m <- or_raise IndexError (list_max id_list) ;;
  ret (m + 1).

(** ** Gene editing pipeline: [edit_genes] (l.2121-2374) *)

(** The literal tables, keyed by edit mode and then by tool. *)
Definition tool_rates (z t c p : Q) (edit_type : string) : option Q :=
  if String.eqb edit_type "Z" then Some z
  else if String.eqb edit_type "T" then Some t
  else if String.eqb edit_type "C" then Some c
  else if String.eqb edit_type "P" then Some p
  else None.

Definition death_rate (mode edit_type : string) : option Q :=
  if String.eqb mode "A" then tool_rates (92 # 100) (88 # 100) (79 # 100) 0 edit_type
  else if String.eqb mode "D" then tool_rates (46 # 100) (44 # 100) (39 # 100) 0 edit_type
  else if String.eqb mode "O" then tool_rates (92 # 100) (88 # 100) (79 # 100) 0 edit_type
  else None.

Definition fail_rate (mode edit_type : string) : option Q :=
  if String.eqb mode "A" then tool_rates (89 # 100) (79 # 100) (37 # 100) 0 edit_type
  else if String.eqb mode "D" then tool_rates (45 # 100) (40 # 100) (19 # 100) 0 edit_type
  else if String.eqb mode "O" then tool_rates (89 # 100) (79 # 100) (37 # 100) 0 edit_type
  else None.

(** The three writes after a successful edit of locus [r]. *)
Definition mark_edited (ed_animal : loc) (r : nat) (count : Z) : M unit :=
  a <- deref ed_animal ;;
  g <- or_raise IndexError (list_assign (genotypes a) r 1) ;;
  modify ed_animal (set_genotypes g) ;;
  a <- deref ed_animal ;;
  s <- or_raise IndexError (list_assign (edit_status a) r 1) ;;
  modify ed_animal (set_edit_status s) ;;
  a <- deref ed_animal ;;
  c <- or_raise IndexError (list_assign (edit_count a) r count) ;;
  modify ed_animal (set_edit_count c).

(** [while True:] of the unlimited-retry editing branch. *)
Fixpoint edit_until_success (fuel : nat) (ed_animal : loc) (r : nat)
    (rv : recessive) (edit_type : string) (edit_count : Z) : M unit :=
  match fuel with
  | O => out_of_fuel
  | S fuel' =>
      let edit_count := edit_count + 1 in
      p <- or_raise KeyError (fail_rate (edit_mode rv) edit_type) ;;
      x <- bernoulli_rvs (1 - p) ;;
      if negb (x =? 0) then mark_edited ed_animal r edit_count
      else edit_until_success fuel' ed_animal r rv edit_type edit_count
  end.

(** One iteration of [for rk, rv in recessives.iteritems()]; the result
    says whether the loop goes on ([Continue]) or is left by [break]
    ([Return]). *)
Definition edit_locus (fuel : nat) (recessives : recessives_t)
    (edit_type : string) (edit_trials : Z) (ed_animal : loc)
    (rk : string) (rv : recessive) : M (flow unit) :=
  r <- or_raise ValueError (index_of String.eqb rk (keys recessives)) ;;
  a <- deref ed_animal ;;
  g <- or_raise IndexError (genotypes a !! r) ;;
  if (g =? 0) || (g =? -1) then
    if 0 <? edit_trials then
      p <- or_raise KeyError (fail_rate (edit_mode rv) edit_type) ;;
      outcomes <- bernoulli_rvs_size (1 - p) (Z.to_nat edit_trials) ;;
      if any_nonzero outcomes then
        mark_edited ed_animal r (first_nonzero outcomes + 1) ;;
        ret (Return tt)
      else ret (Continue tt)
    else if edit_trials <? 0 then
      edit_until_success fuel ed_animal r rv edit_type 0 ;;
      ret (Continue tt)
    else ret (Continue tt)
  else ret (Continue tt).

(** The loop over the loci; the result is the last value bound to the
    loop variable [rv], which the embryo-transfer step reads afterwards. *)
Fixpoint edit_loci (fuel : nat) (recessives : recessives_t)
    (edit_type : string) (edit_trials : Z) (ed_animal : loc)
    (items : recessives_t) (last_rv : option recessive)
    : M (option recessive) :=
  match items with
  | [] => ret last_rv
  | (rk, rv) :: items' =>
      f <- edit_locus fuel recessives edit_type edit_trials ed_animal rk rv ;;
      match f with
      | Return _ => ret (Some rv)
      | Continue _ =>
          edit_loci fuel recessives edit_type edit_trials ed_animal items'
            (Some rv)
      end
  end.

(** [while True:] of the unlimited-retry embryo transfer. *)
Fixpoint transfer_until_success (fuel : nat) (ed_animal : loc)
    (last_rv : option recessive) (edit_type : string) (embryo_count : Z)
    : M unit :=
  match fuel with
  | O => out_of_fuel
  | S fuel' =>
      let embryo_count := embryo_count + 1 in
      rv <- or_raise (NameError "rv") last_rv ;;
      p <- or_raise KeyError (death_rate (edit_mode rv) edit_type) ;;
      x <- bernoulli_rvs (1 - p) ;;
      if negb (x =? 0) then modify ed_animal (set_et_count (EtInt embryo_count))
      else transfer_until_success fuel' ed_animal last_rv edit_type embryo_count
  end.

(** The body of [for animal in range(n_edit)].  [animals] is the live list
    of the edited sex (the list object bound to [bulls] or to [cows]) and
    [dead_animals] the dead list of that sex. *)
Definition edit_one (fuel : nat) (recessives : recessives_t) (generation : Z)
    (edit_type : string) (edit_trials embryo_trials : Z)
    (i : nat) (st : list loc * list loc * Z) : M (list loc * list loc * Z) :=
  let '(animals, dead_animals, next_id) := st in
  orig <- or_raise IndexError (animals !! i) ;;
  a <- deref orig ;;
  ed_animal <- alloc a ;;
  modify ed_animal (set_animal next_id) ;;
  modify ed_animal (set_born generation) ;;
  last_rv <- edit_loci fuel recessives edit_type edit_trials ed_animal
               recessives None ;;
  dead_animals <-
    (if 0 <? embryo_trials then
       rv <- or_raise (NameError "rv") last_rv ;;
       p <- or_raise KeyError (death_rate (edit_mode rv) edit_type) ;;
       outcomes <- bernoulli_rvs_size (1 - p) (Z.to_nat embryo_trials) ;;
       if negb (any_nonzero outcomes) then
         modify ed_animal (set_alive "D") ;;
         modify ed_animal (set_reason "G") ;;
         modify ed_animal (set_died generation) ;;
         ret (dead_animals ++ [ed_animal])
       else
         modify ed_animal (set_et_count (EtInt (first_nonzero outcomes + 1))) ;;
         ret dead_animals
     else if embryo_trials <? 0 then
       transfer_until_success fuel ed_animal last_rv edit_type 0 ;;
       ret dead_animals
     else ret dead_animals) ;;
  modify ed_animal (set_reason "G") ;;
  modify ed_animal (set_died generation) ;;
  ret (animals ++ [ed_animal], dead_animals, next_id + 1).

Definition edit_genes (fuel : nat) (cows bulls dead_cows dead_bulls : list loc)
    (recessives : recessives_t) (generation : Z) (edit_prop : Q)
    (edit_type : string) (edit_trials embryo_trials : Z) (edit_sex : string)
    (extras : list (list loc))
    : M (list loc * list loc * list loc * list loc) :=
  (* the message of this check reads the undefined name [p] *)
  (if negb (Qle_bool 0 edit_prop) || negb (Qle_bool edit_prop 1)
   then raise (NameError "p") else ret tt) ;;
  let edit_type :=
    if existsb (String.eqb edit_type) ["Z"; "T"; "C"; "P"] then edit_type
    else "C" in
  let edit_trials := if edit_trials =? 0 then 1 else edit_trials in
  let embryo_trials := if embryo_trials =? 0 then 1 else embryo_trials in
  let edit_sex :=
    if existsb (String.eqb edit_sex) ["M"; "F"] then edit_sex else "F" in
  let animals := if String.eqb edit_sex "M" then bulls else cows in
  let dead_animals := if String.eqb edit_sex "M" then dead_bulls else dead_cows in
  next_id <- get_next_id cows bulls dead_cows dead_bulls extras ;;
  (* int(round(len(animals) * edit_prop, 1)) *)
  let n_edit :=
    Qfloor (inject_Z (Z.of_nat (length animals)) * edit_prop * 10 + (1 # 2)) / 10 in
  let n_edit := if n_edit <? 1 then 0 else n_edit in
  st <-
    (if 0 <? n_edit then
       animals <- sort_on tbv Qge_bool animals ;;
       fold_m (edit_one fuel recessives generation edit_type edit_trials
                 embryo_trials)
         (seq 0 (Z.to_nat n_edit)) (animals, dead_animals, next_id)
     else ret (animals, dead_animals, next_id)) ;;
  let '(animals, dead_animals, _) := st in
  animals <- sort_on animal Z.leb animals ;;
  if String.eqb edit_sex "M"
  then ret (cows, animals, dead_cows, dead_animals)
  else ret (animals, bulls, dead_animals, dead_bulls).

(** ** Optimal (Pryce) mating allocation: [pryce_mating] (l.1416-1772) *)

(** What [compute_inbreeding] hands to [pryce_mating] besides the animal
    lists: for every herd its bull and cow portfolios (the dicts
    [bull_portfolio] and [cow_portfolio] have the same keys and are read
    in key order) and the coefficients of the proxy calves, [inbr], whose
    key [str(bull) + '__' + str(cow)] is the pair of ids.  The solver
    behind it is external, so these are inputs of the model. *)
Record inbreeding_result := mkInbreeding {
  portfolios : list (Z * (list loc * list loc));
  inbr : gmap (Z * Z) Q
}.

(** [matings[b['animal']] = 0] for every live bull ([compute_inbreeding],
    l.863-871). *)
Definition init_matings (bulls : list loc) : M (gmap Z Z) :=
  fold_m (fun b (matings : gmap Z Z) =>
            a <- deref b ;; ret (<[animal a := 0]> matings)) bulls ∅.

(** The adjustment of one cell of [b_mat] for one recessive with economic
    value [v], as branched in the source. *)
Definition locus_adjust (carrier_penalty : bool) (b_gt c_gt : Z) (v : Q)
    (cell : Q) : Q :=
  if (b_gt =? -1) && (c_gt =? -1) then (cell - v)%Q
  else if (b_gt =? 1) && (c_gt =? 1) then cell
  else if ((b_gt =? 1) && (c_gt =? 0)) || ((b_gt =? 0) && (c_gt =? 1)) then
    if carrier_penalty then (cell - (1 # 4) * v)%Q else cell
  else if ((b_gt =? 1) && (c_gt =? -1)) || ((b_gt =? -1) && (c_gt =? 1)) then
    if carrier_penalty then (cell - (1 # 2) * v)%Q else cell
  else if ((b_gt =? 0) && (c_gt =? -1)) || ((b_gt =? -1) && (c_gt =? 0)) then
    if carrier_penalty then (cell - ((1 # 4) * v + (1 # 2) * v))%Q else cell
  else
    if carrier_penalty then (cell - (1 # 2) * v)%Q else (cell - (1 # 4) * v)%Q.

(** The value of the cell of bull [b] and cow [c]: parent average, less
    the inbreeding discount, less the recessive adjustments. *)
Definition mating_value (recessives : recessives_t) (inbr : gmap (Z * Z) Q)
    (flambda : Q) (penalty carrier_penalty : bool) (b c : animal_record)
    : M Q :=
  f <- or_raise KeyError (inbr !! (animal b, animal c)) ;;
  let cell := ((1 # 2) * (tbv b + tbv c) - f * 100 * flambda)%Q in
  if penalty then
    fold_m (fun (item : string * recessive) (cell : Q) =>
              r <- or_raise ValueError
                     (index_of String.eqb (fst item) (keys recessives)) ;;
              b_gt <- or_raise IndexError (genotypes b !! r) ;;
              c_gt <- or_raise IndexError (genotypes c !! r) ;;
              ret (locus_adjust carrier_penalty b_gt c_gt (value (snd item)) cell))
      recessives cell
  else ret cell.

Definition set_cell (bidx cidx : nat) (v : Q) (mat : list (list Q))
    : list (list Q) :=
  match mat !! bidx with
  | Some row => <[bidx := <[cidx := v]> row]> mat
  | None => mat
  end.

(** The first pass over a herd: the matrix [b_mat], one row per portfolio
    bull and one column per portfolio cow. *)
Definition build_b_mat (recessives : recessives_t) (inbr : gmap (Z * Z) Q)
    (flambda : Q) (penalty carrier_penalty : bool)
    (bull_recs cow_recs : list animal_record) : M (list (list Q)) :=
  let bids := animal <$> bull_recs in
  let cids := animal <$> cow_recs in
  let zeros := replicate (length bull_recs) (replicate (length cow_recs) 0%Q) in
  fold_m (fun b mat =>
            bidx <- or_raise ValueError (index_of Z.eqb (animal b) bids) ;;
            fold_m (fun c mat =>
                      cidx <- or_raise ValueError (index_of Z.eqb (animal c) cids) ;;
                      v <- mating_value recessives inbr flambda penalty
                             carrier_penalty b c ;;
                      ret (set_cell bidx cidx v mat))
              cow_recs mat)
    bull_recs zeros.

(** The locals that the allocation loop updates. *)
Record alloc_state := mkAlloc {
  matings : gmap Z Z;
  new_cows : list loc;
  new_bulls : list loc;
  next_id : Z
}.

Section Allocation.

(** [ma.argsort]: the indices that sort a column in ascending order.
    numpy leaves the order of ties to the sorting kind, so the allocation
    is stated for any such function. *)
Variable argsort : list Q -> list nat.

Variables (recessives : recessives_t) (generation max_matings : Z)
          (bull_deficit : string) (calf_loss dehorning_loss harvest_beef : Q)
          (inbr_tbl : gmap (Z * Z) Q).

(** [for bidx in xrange(len(bull_portfolio[h])-1, -1, -1)] for the cow
    [c]: [bidxs] are the indices still to visit; the first usable bull
    sires the calf and ends the loop ([break]). *)
Fixpoint try_bulls (bull_portfolio : list loc) (sorted_bulls : list nat)
    (c : loc) (bidxs : list nat) (st : alloc_state) : M alloc_state :=
  match bidxs with
  | [] => ret st
  | bidx :: bidxs' =>
      sb <- or_raise IndexError (sorted_bulls !! bidx) ;;
      bl <- or_raise IndexError (bull_portfolio !! sb) ;;
      bull <- deref bl ;;
      m <- or_raise KeyError (matings st !! animal bull) ;;
      if (max_matings <=? m) && negb (String.eqb bull_deficit "no_limit") then
        try_bulls bull_portfolio sorted_bulls c bidxs' st
      else if negb (String.eqb (alive bull) "A") then
        try_bulls bull_portfolio sorted_bulls c bidxs' st
      else
        let matings' := <[animal bull := m + 1]> (matings st) in
        cow <- deref c ;;
        calf <- create_new_calf bull cow recessives (next_id st) generation
                  calf_loss dehorning_loss harvest_beef ;;
        f <- or_raise KeyError (inbr_tbl !! (animal bull, animal cow)) ;;
        cl <- alloc (set_inbreeding f calf) ;;
        modify c (set_bred 1) ;;
        if String.eqb (sex calf) "F"
        then ret (mkAlloc matings' (new_cows st ++ [cl]) (new_bulls st)
                    (next_id st + 1))
        else ret (mkAlloc matings' (new_cows st) (new_bulls st ++ [cl])
                    (next_id st + 1))
  end.

(** [xrange(n-1, -1, -1)] *)
Definition countdown (n : nat) : list nat := rev (seq 0 n).

(** The second pass over a herd: [for c in cow_portfolio[h]]. *)
Definition allocate_cow (b_mat : list (list Q)) (bull_portfolio : list loc)
    (cow_id_list : list Z) (c : loc) (st : alloc_state) : M alloc_state :=
  cow <- deref c ;;
  cow_loc <- or_raise ValueError (index_of Z.eqb (animal cow) cow_id_list) ;;
  column <- map_m (fun row : list Q => or_raise IndexError (row !! cow_loc)) b_mat ;;
  let sorted_bulls := argsort column in
  try_bulls bull_portfolio sorted_bulls c (countdown (length bull_portfolio)) st.

(** The body of [for h in bull_portfolio.keys()]. *)
Definition allocate_herd (flambda : Q) (penalty carrier_penalty : bool)
    (h : Z * (list loc * list loc)) (st : alloc_state) : M alloc_state :=
  let '(_, (herd_bulls, herd_cows)) := h in
  bull_recs <- map_m deref herd_bulls ;;
  cow_recs <- map_m deref herd_cows ;;
  b_mat <- build_b_mat recessives inbr_tbl flambda penalty carrier_penalty
             bull_recs cow_recs ;;
  herd_bulls <- sort_on animal Z.leb herd_bulls ;;
  let cow_id_list := animal <$> cow_recs in
  fold_m (allocate_cow b_mat herd_bulls cow_id_list) herd_cows st.

End Allocation.

(** The allocation part of [pryce_mating]: from the sanity check of
    [max_matings] to the end of the loop over the herds. *)
Definition pryce_allocate (argsort : list Q -> list nat)
    (cows bulls dead_cows dead_bulls : list loc) (generation : Z)
    (recessives : recessives_t) (max_matings : Z) (penalty : bool)
    (flambda : Q) (bull_deficit : string) (carrier_penalty : bool)
    (calf_loss dehorning_loss harvest_beef : Q) (extras : list (list loc))
    (ci : inbreeding_result) : M alloc_state :=
  let max_matings := if max_matings <? 0 then 500 else max_matings in
  matings <- init_matings bulls ;;
  next_id <- get_next_id cows bulls dead_cows dead_bulls extras ;;
  for_each cows (fun c => modify c (set_bred 0)) ;;
  fold_m (allocate_herd argsort recessives generation max_matings bull_deficit
            calf_loss dehorning_loss harvest_beef (inbr ci) flambda penalty
            carrier_penalty)
    (portfolios ci) (mkAlloc matings [] [] next_id).

(** [for nc in new_animals: live.append(nc) if nc['alive'] == 'A' else
    dead.append(nc)] *)
Definition file_newborns (new_animals : list loc) (st : list loc * list loc)
    : M (list loc * list loc) :=
  fold_m (fun n (st : list loc * list loc) =>
            a <- deref n ;;
            if String.eqb (alive a) "A" then ret (fst st ++ [n], snd st)
            else ret (fst st, snd st ++ [n]))
    new_animals st.

Definition pryce_mating (argsort : list Q -> list nat) (fuel : nat)
    (cows bulls dead_cows dead_bulls : list loc) (generation : Z)
    (recessives : recessives_t) (max_matings : Z) (penalty : bool)
    (edit_prop : Q * Q) (edit_type : string) (edit_trials embryo_trials : Z)
    (flambda : Q) (bull_deficit : string) (carrier_penalty : bool)
    (calf_loss dehorning_loss harvest_beef : Q) (extras : list (list loc))
    (ci : inbreeding_result)
    : M (list loc * list loc * list loc * list loc) :=
  st <- pryce_allocate argsort cows bulls dead_cows dead_bulls generation
          recessives max_matings penalty flambda bull_deficit carrier_penalty
          calf_loss dehorning_loss harvest_beef extras ci ;;
  cs <- file_newborns (new_cows st) (cows, dead_cows) ;;
  bs <- file_newborns (new_bulls st) (bulls, dead_bulls) ;;
  let '(cows, dead_cows) := cs in
  let '(bulls, dead_bulls) := bs in
  if existsb (fun item : string * recessive => edit (snd item) =? 1) recessives
  then
    r <- (if Qle_bool (fst edit_prop) 0 then ret (cows, bulls, dead_cows, dead_bulls)
          else edit_genes fuel cows bulls dead_cows dead_bulls recessives
                 generation (fst edit_prop) edit_type edit_trials embryo_trials
                 "M" extras) ;;
    let '(cows, bulls, dead_cows, dead_bulls) := r in
    if Qle_bool (snd edit_prop) 0 then ret (cows, bulls, dead_cows, dead_bulls)
    else edit_genes fuel cows bulls dead_cows dead_bulls recessives
           generation (snd edit_prop) edit_type edit_trials embryo_trials
           "F" extras
  else ret (cows, bulls, dead_cows, dead_bulls).

(** ** Random mating: [random_mating] (l.409-546) *)

(** Reading a name that is bound neither in the function nor in the
    module, where an animal is expected.  [random_mating] iterates with
    [for c in cows] but writes through [cow]. *)
Definition unbound_name (name : string) : M loc := raise (NameError name).

(** [while not mated:] for the cow [c]. *)
Fixpoint mate_until_mated (fuel : nat) (recessives : recessives_t)
    (generation max_matings : Z) (calf_loss dehorning_loss harvest_beef : Q)
    (bulls : list loc) (matings : gmap Z Z) (c : loc)
    (st : list loc * list loc * Z) : M (list loc * list loc * Z) :=
  match fuel with
  | O => out_of_fuel
  | S fuel' =>
      let '(new_cows, new_bulls, next_id) := st in
      bull_to_use <- random_randint 0 (Z.of_nat (length bulls) - 1) ;;
      bl <- or_raise IndexError (bulls !! Z.to_nat bull_to_use) ;;
      bull <- deref bl ;;
      usable <-
        (if String.eqb (alive bull) "A" then
           m <- or_raise KeyError (matings !! animal bull) ;;
           ret (m <? max_matings)
         else ret false) ;;
      r <-
        (if usable : bool then
           cow <- deref c ;;
           calf <- create_new_calf bull cow recessives next_id generation
                     calf_loss dehorning_loss harvest_beef ;;
           cl <- alloc calf ;;
           if String.eqb (sex calf) "F"
           then ret (new_cows ++ [cl], new_bulls, next_id + 1, true)
           else ret (new_cows, new_bulls ++ [cl], next_id + 1, true)
         else ret (new_cows, new_bulls, next_id, false)) ;;
      let '(st', mated) := r in
      (* cow['bred'] = 0 *)
      cow <- unbound_name "cow" ;;
      modify cow (set_bred 0) ;;
      if mated : bool then ret st'
      else mate_until_mated fuel' recessives generation max_matings calf_loss
             dehorning_loss harvest_beef bulls matings c st'
  end.

(** The closing call of [compute_inbreeding] (l.757-1094) in
    [random_mating] (l.541-543) and [truncation_mating] (l.711-713).  Both
    pass [cows, bulls, dead_cows, dead_bulls, generation, generations,
    filetag, debug], so [proxy_matings] keeps its default [False] and the
    dicts [matings], [bull_portfolio] and [cow_portfolio], which are
    created under [if proxy_matings:] (l.825-831), are never bound.  The
    pedigree file and the run of the solver are external: [coi] is the
    table of coefficients that is read back from the solver's output
    (l.1045-1051), keyed by animal id. *)
Definition compute_inbreeding_unproxied (coi : gmap Z Q)
    (cows bulls dead_cows dead_bulls : list loc)
    : M (list loc * list loc * list loc * list loc) :=
  (* the pedigree entries (l.846-879) *)
  for_each cows (fun c => deref c ;; ret tt) ;;
  for_each dead_cows (fun dc => deref dc ;; ret tt) ;;
  for_each bulls
    (fun b =>
       deref b ;;
       (* matings[b['animal']] = 0 *)
       matings <- (raise (UnboundLocalError "matings") : M (gmap Z Z)) ;;
       a <- deref b ;;
       ret (<[animal a := 0]> matings) ;;
       ret tt) ;;
  for_each dead_bulls (fun db => deref db ;; ret tt) ;;
  (* x['inbreeding'] = inbr[str(x['animal'])] (l.1059-1062) *)
  let assign := fun l =>
    a <- deref l ;;
    f <- or_raise KeyError (coi !! animal a) ;;
    modify l (set_inbreeding f) in
  for_each cows assign ;;
  for_each dead_cows assign ;;
  for_each bulls assign ;;
  for_each dead_bulls assign ;;
  (* return cows, bulls, dead_cows, dead_bulls, matings, bull_portfolio,
     cow_portfolio, inbr *)
  (raise (UnboundLocalError "matings") : M (gmap Z Z)) ;;
  ret (cows, bulls, dead_cows, dead_bulls).

Definition random_mating (fuel : nat) (coi : gmap Z Q)
    (cows bulls dead_cows dead_bulls : list loc) (generation : Z)
    (recessives : recessives_t) (max_matings : Z)
    (calf_loss dehorning_loss harvest_beef : Q) (extras : list (list loc))
    : M (list loc * list loc * list loc * list loc) :=
  let max_matings := if max_matings <=? 0 then 50 else max_matings in
  matings <- init_matings bulls ;;
  (* get_next_id(cows, bulls, dead_cows, dead_bulls, *args): the
     parameter is called [extras]; the name [args] is bound neither in
     the function nor in the module *)
  args <- (raise (NameError "args") : M (list (list loc))) ;;
  next_id <- get_next_id cows bulls dead_cows dead_bulls args ;;
  st <- fold_m (fun c st =>
                  cow_r <- deref c ;;
                  if String.eqb (alive cow_r) "A" then
                    st' <- mate_until_mated fuel recessives generation
                             max_matings calf_loss dehorning_loss harvest_beef
                             bulls matings c st ;;
                    (* cow[14] = 1 *)
                    unbound_name "cow" ;;
                    ret st'
                  else ret st)
          cows ([], [], next_id) ;;
  let '(new_cows, new_bulls, _) := st in
  cs <- file_newborns new_cows (cows, dead_cows) ;;
  bs <- file_newborns new_bulls (bulls, dead_bulls) ;;
  (* the editing gate tests ['1' in do_edits] against the integer flags
     and is never taken *)
  compute_inbreeding_unproxied coi (fst cs) (fst bs) (snd cs) (snd bs).

(** ** Culling: [cull_bulls] (l.2377-2442), [cull_cows] (l.2653-2780) and
       their calls in [run_scenario] (l.4223, l.4301) *)

(** [b['alive'] = 'D'; b['reason'] = code; b['died'] = generation] *)
Definition mark_dead (code : string) (generation : Z) (l : loc) : M unit :=
  modify l (set_alive "D") ;;
  modify l (set_reason code) ;;
  modify l (set_died generation).

(** The age cull shared by both routines: every animal older than
    [max_age] is marked and its reference appended to the dead list. *)
Definition age_cull (generation max_age : Z) (animals dead : list loc)
    : M (list loc) :=
  fold_m (fun b dead =>
            a <- deref b ;;
            if max_age <? generation - born a then
              mark_dead "A" generation b ;;
              ret (dead ++ [b])
            else ret dead)
    animals dead.

(** [animals[:] = [a for a in animals if a['alive'] == 'A']] *)
Definition keep_alive (animals : list loc) : M (list loc) :=
  fold_m (fun b kept =>
            a <- deref b ;;
            ret (if String.eqb (alive a) "A" then kept ++ [b] else kept))
    animals [].

Definition cull_bulls (bulls dead_bulls : list loc)
    (generation max_bulls max_bull_age : Z) : M (list loc * list loc) :=
  let max_bulls := if max_bulls <=? 0 then 250 else max_bulls in
  dead_bulls <- age_cull generation max_bull_age bulls dead_bulls ;;
  bulls <- keep_alive bulls ;;
  if Z.of_nat (length bulls) <=? max_bulls then ret (bulls, dead_bulls)
  else
    bulls <- sort_on tbv Qle_bool bulls ;;
    let excess := (length bulls - Z.to_nat max_bulls)%nat in
    dead_bulls <- fold_m (fun b dead =>
                            mark_dead "N" generation b ;; ret (dead ++ [b]))
                    (take excess bulls) dead_bulls ;;
    ret (drop excess bulls, dead_bulls).

(** The default of the keyword parameter [max_bull_age] of [cull_bulls]. *)
Definition cull_bulls_default_max_bull_age : Z := 3.

(** [x[i], x[j] = x[j], x[i]] *)
Definition swap {A} (i j : nat) (l : list A) : list A :=
  match l !! i, l !! j with
  | Some xi, Some xj => <[j := xi]> (<[i := xj]> l)
  | _, _ => l
  end.

(** [random.shuffle]: for i from len-1 down to 1, swap position [i] with
    a uniformly drawn position below or at [i]. *)
Definition random_shuffle {A} (l : list A) : M (list A) :=
  fold_m (fun i l =>
            u <- random_uniform01 ;;
            let j := Z.to_nat (Qfloor (u * inject_Z (Z.of_nat i + 1))) in
            ret (swap i j l))
    (rev (seq 1 (length l - 1))) l.

(** Dict equality, as used by [c in cull_herd[herd]]. *)
Definition et_value_eqb (x y : et_value) : bool :=
  match x, y with
  | EtList l, EtList l' => bool_decide (l = l')
  | EtInt n, EtInt n' => n =? n'
  | _, _ => false
  end.

Definition record_eqb (x y : animal_record) : bool :=
  (animal x =? animal y) && (sire x =? sire y) && (dam x =? dam y)
  && (born x =? born y) && String.eqb (sex x) (sex y) && (herd x =? herd y)
  && String.eqb (alive x) (alive y) && String.eqb (reason x) (reason y)
  && (died x =? died y) && Qeq_bool (tbv x) (tbv y)
  && Qeq_bool (inbreeding x) (inbreeding y)
  && bool_decide (edit_status x = edit_status y)
  && bool_decide (edit_count x = edit_count y)
  && et_value_eqb (et_count x) (et_count y) && (bred x =? bred y)
  && bool_decide (genotypes x = genotypes y)
  && bool_decide (key6 x = key6 y) && bool_decide (key7 x = key7 y)
  && bool_decide (key8 x = key8 y).

(** [c in lst] for a list of dict references: the same object, or an
    equal dict. *)
Definition member_of (c : loc) (lst : list loc) : M bool :=
  a <- deref c ;;
  fold_m (fun l found =>
            if found : bool then ret true
            else if Nat.eqb l c then ret true
            else a' <- deref l ;; ret (record_eqb a' a))
    lst false.

(** The per-herd trimming shared by the two capacity branches of
    [cull_cows]; a shallow copy of each culled cow goes to the dead list. *)
Definition trim_herds (generation base_herds : Z) (max_herd_size : Z)
    (cows dead_cows : list loc) : M (list loc) :=
  fold_m (fun h dead_cows =>
            recs <- map_m (fun c => a <- deref c ;; ret (c, a)) cows ;;
            let herd_cows :=
              fst <$> filter (fun p => herd (snd p) = Z.of_nat h) recs in
            let herd_diff := Z.of_nat (length herd_cows) - max_herd_size in
            if max_herd_size <? Z.of_nat (length herd_cows) then
              let cull_herd := take (Z.to_nat herd_diff) herd_cows in
              fold_m (fun c dead_cows =>
                        hit <- member_of c cull_herd ;;
                        if hit : bool then
                          mark_dead "N" generation c ;;
                          a <- deref c ;;
                          cp <- alloc a ;;
                          ret (dead_cows ++ [cp])
                        else ret dead_cows)
                cows dead_cows
            else ret dead_cows)
    (seq 0 (Z.to_nat base_herds)) dead_cows.

Definition cull_cows (cows dead_cows : list loc)
    (generation base_herds max_cows max_cow_age : Z) (culling_rate : Q)
    : M (list loc * list loc) :=
  let max_cows := if max_cows <? 0 then 0 else max_cows in
  dead_cows <- age_cull generation max_cow_age cows dead_cows ;;
  cows <- keep_alive cows ;;
  dead_cows <-
    (if negb (Qle_bool culling_rate 0) then
       fold_m (fun c dead_cows =>
                 u <- random_uniform01 ;;
                 if negb (Qle_bool culling_rate u) then
                   mark_dead "I" generation c ;;
                   a <- deref c ;;
                   cp <- alloc a ;;
                   ret (dead_cows ++ [cp])
                 else ret dead_cows)
         cows dead_cows
     else ret dead_cows) ;;
  cows <- keep_alive cows ;;
  cows <- random_shuffle cows ;;
  if max_cows =? 0 then ret (cows, dead_cows)
  else
    (if base_herds =? 0 then raise ZeroDivisionError else ret tt) ;;
    let max_herd_size :=
      if Z.of_nat (length cows) <? max_cows
      then Z.of_nat (length cows) / base_herds
      else max_cows / base_herds in
    dead_cows <- trim_herds generation base_herds max_herd_size cows dead_cows ;;
    cows <- keep_alive cows ;;
    ret (cows, dead_cows).

(** The parameters of [run_scenario] that the culling step reads. *)
Record cull_config := mkCullConfig {
  cfg_max_bulls : Z;
  cfg_max_bull_age : Z;
  cfg_max_cows : Z;
  cfg_max_cow_age : Z;
  cfg_base_herds : Z;
  cfg_culling_rate : Q
}.

(** The culling step of the generation loop of [run_scenario]:
    [cull_bulls(bulls, dead_bulls, generation, max_bulls, debug=debug)]
    and then [cull_cows(cows, dead_cows, generation, recessives,
    base_herds, max_cows, max_cow_age, culling_rate, debug)].  The
    statements between the two calls (summary statistics, the count of
    bred and open cows, the breeding history file) change neither the
    lists nor the birth and death fields. *)
Definition run_scenario_cull (cfg : cull_config) (generation : Z)
    (cows bulls dead_cows dead_bulls : list loc)
    : M (list loc * list loc * list loc * list loc) :=
  bs <- cull_bulls bulls dead_bulls generation (cfg_max_bulls cfg)
          cull_bulls_default_max_bull_age ;;
  cs <- cull_cows cows dead_cows generation (cfg_base_herds cfg)
          (cfg_max_cows cfg) (cfg_max_cow_age cfg) (cfg_culling_rate cfg) ;;
  ret (fst cs, fst bs, snd cs, snd bs).

(** ** Allele frequency tracker: [update_maf] (l.2841-2924) *)

(** [for r in xrange(len(recessives.keys()))] for one animal: a
    heterozygote adds one minor allele, a homozygous-minor animal two. *)
Definition count_animal (n_loci : nat) (a : animal_record)
    (minor_allele_counts : list Z) : M (list Z) :=
  fold_m (fun r counts =>
            g <- or_raise IndexError (genotypes a !! r) ;;
            n <- or_raise IndexError (counts !! r) ;;
            let n := if g =? 0 then n + 1 else n in
            g <- or_raise IndexError (genotypes a !! r) ;;
            let n := if g =? -1 then n + 2 else n in
            ret (<[r := n]> counts))
    (seq 0 n_loci) minor_allele_counts.

(** [recessives[rk]['frequency'] = v] *)
Fixpoint store_frequency (rk : string) (v : Q) (recessives : recessives_t)
    : recessives_t :=
  match recessives with
  | [] => []
  | (k, rv) :: rest =>
      if String.eqb k rk then (k, set_frequency v rv) :: rest
      else (k, rv) :: store_frequency rk v rest
  end.

Definition update_maf (cows bulls : list loc) (generation : Z)
    (recessives : recessives_t) (freq_hist : gmap Z (list Q))
    : M (recessives_t * gmap Z (list Q)) :=
  let n_loci := length (keys recessives) in
  let minor_allele_counts := replicate n_loci 0 in
  counts <- fold_m (fun b counts => a <- deref b ;; count_animal n_loci a counts)
              bulls minor_allele_counts ;;
  counts <- fold_m (fun c counts => a <- deref c ;; count_animal n_loci a counts)
              cows counts ;;
  let total_alleles := 2 * (Z.of_nat (length cows) + Z.of_nat (length bulls)) in
  let freq_hist := <[generation := []]> freq_hist in
  fold_m (fun (item : string * recessive) (st : recessives_t * gmap Z (list Q)) =>
            let '(recs, hist) := st in
            r <- or_raise ValueError
                   (index_of String.eqb (fst item) (keys recessives)) ;;
            n <- or_raise IndexError (counts !! r) ;;
            (if total_alleles =? 0 then raise ZeroDivisionError else ret tt) ;;
            let r_freq := (inject_Z n / inject_Z total_alleles)%Q in
            (* the genotype frequencies of a lethal are normalised by
               denom, for the summary that [show_recessives] prints *)
            (if lethal (snd item) =? 1 then
               let denom :=
                 ((1 - r_freq) * (1 - r_freq) + 2 * r_freq * (1 - r_freq))%Q in
               if Qeq_bool denom 0 then raise ZeroDivisionError else ret tt
             else ret tt) ;;
            entry <- or_raise KeyError (hist !! generation) ;;
            ret (store_frequency (fst item) r_freq recs,
                 <[generation := entry ++ [r_freq]]> hist))
    recessives (recessives, freq_hist).

(** * Predicates of the statements *)

(** ** Observing the allocation *)

(** The sire recorded in each object of the store. *)
Definition sires (h : list animal_record) : list Z := sire <$> h.

(** How many of [calves] are recorded as sired by the bull with id [b]. *)
Definition sired_by (h : list animal_record) (b : Z) (calves : list loc) : nat :=
  length (filter (fun l => sires h !! l = Some b) calves).

(** The invariant of the allocation loop: the calves born so far are in
    the store, [matings] counts them per sire, and no count is above
    the cap. *)
Record alloc_inv (cap : Z) (st : alloc_state) (w : world) : Prop := mkAllocInv {
  inv_valid : Forall (fun l => (l < length (heap w))%nat) (new_cows st ++ new_bulls st);
  inv_counts : forall b,
    Z.of_nat (sired_by (heap w) b (new_cows st ++ new_bulls st)) =
    default 0 (matings st !! b);
  inv_capped : forall b v, matings st !! b = Some v -> v <= cap
}.

(** ** Frames of the editing pipeline *)

(** A run from [w] to [w'] that allocates nothing and writes at most to
    the object at [l]. *)
Definition only_writes (l : loc) (w w' : world) : Prop :=
  length (heap w') = length (heap w) /\
  forall l', l' <> l -> heap w' !! l' = heap w !! l'.

(** The invariant of the animal loop, relative to the store [h0] at the
    start of [edit_genes]. *)
Definition clones_marked (h0 : list animal_record) (generation : Z)
    (w : world) : Prop :=
  (length h0 <= length (heap w))%nat /\
  (forall l, (l < length h0)%nat -> heap w !! l = h0 !! l) /\
  (forall l, (length h0 <= l < length (heap w))%nat ->
     exists a, heap w !! l = Some a /\ reason a = "G" /\ died a = generation).

(** ** The penalty table of the specification *)

(** The discount of the table of section 4.4 of the specification, in its
    own words (full penalty = the economic value [v] of the locus); the
    source's branching is [locus_adjust]. *)
Definition spec_discount (carrier_penalty : bool) (b_gt c_gt : Z) (v : Q) : Q :=
  if (b_gt =? -1) && (c_gt =? -1) then v
  else if (b_gt =? 1) && (c_gt =? 1) then 0
  else if ((b_gt =? 1) && (c_gt =? 0)) || ((b_gt =? 0) && (c_gt =? 1)) then
    if carrier_penalty then (1 # 4) * v else 0
  else if ((b_gt =? 1) && (c_gt =? -1)) || ((b_gt =? -1) && (c_gt =? 1)) then
    if carrier_penalty then (1 # 2) * v else 0
  else if ((b_gt =? 0) && (c_gt =? -1)) || ((b_gt =? -1) && (c_gt =? 0)) then
    if carrier_penalty then (1 # 4) * v + (1 # 2) * v else (1 # 2) * v
  else
    if carrier_penalty then (1 # 2) * v else (1 # 4) * v.

Definition genotype_code (g : Z) : Prop := g = 1 \/ g = 0 \/ g = -1.

Definition het_by_minor (b_gt c_gt : Z) : Prop :=
  (b_gt = 0 /\ c_gt = -1) \/ (b_gt = -1 /\ c_gt = 0).

(** ** Allele counts, in the words of the specification *)

(** The records that a list of references points to. *)
Definition records_of (w : world) (ls : list loc) (recs : list animal_record)
    : Prop :=
  Forall2 (fun l a => heap w !! l = Some a) ls recs.

(** The number of animals with genotype [g] at locus [r]. *)
Definition count_genotype (g : Z) (r : nat) (recs : list animal_record) : Z :=
  Z.of_nat (length (filter (fun a => genotypes a !! r = Some g) recs)).

(** Minor-allele copies at locus [r]: one per heterozygote, two per
    homozygous-minor animal. *)
Definition minor_allele_copies (r : nat) (recs : list animal_record) : Z :=
  count_genotype 0 r recs + 2 * count_genotype (-1) r recs.

(** Copies divided by twice the number of live animals. *)
Definition minor_allele_frequency (r : nat) (recs : list animal_record) : Q :=
  (inject_Z (minor_allele_copies r recs)
   / inject_Z (2 * Z.of_nat (length recs)))%Q.

(** What one animal adds to the count of locus [r] in [count_animal]. *)
Definition copies_of (a : animal_record) (r : nat) : Z :=
  match genotypes a !! r with
  | Some g => (if g =? 0 then 1 else 0) + (if g =? -1 then 2 else 0)
  | None => 0
  end.

Fixpoint copies_in (recs : list animal_record) (r : nat) : Z :=
  match recs with
  | [] => 0
  | a :: recs' => copies_of a r + copies_in recs' r
  end.

(** The recessives with the frequency of the locus at position [r]
    replaced by [f r]. *)
Definition with_frequencies (f : nat -> Q) (recessives : recessives_t)
    : recessives_t :=
  imap (fun r (item : string * recessive) =>
          (fst item, set_frequency (f r) (snd item))) recessives.

(** ** Ages across the culling step *)

(** A run from [w] to [w'] that keeps every object, its birth generation,
    and any status other than 'A' that it already had. *)
Definition ages_kept (w w' : world) : Prop :=
  forall l a, heap w !! l = Some a ->
    exists a', heap w' !! l = Some a' /\ born a' = born a /\
               (alive a <> "A" -> alive a' <> "A").

(** Every animal of the list that is older than [max_age] has a status
    other than 'A'. *)
Definition old_are_dead (generation max_age : Z) (animals : list loc)
    (w : world) : Prop :=
  Forall (fun l => exists a, heap w !! l = Some a /\
                     (max_age < generation - born a -> alive a <> "A"))
    animals.

(** No animal of the list is older than [max_age]. *)
Definition within_age (generation max_age : Z) (animals : list loc)
    (w : world) : Prop :=
  Forall (fun l => exists a, heap w !! l = Some a /\
                     generation - born a <= max_age)
    animals.

Definition all_alive (animals : list loc) (w : world) : Prop :=
  Forall (fun l => exists a, heap w !! l = Some a /\ alive a = "A") animals.

(** * Concrete scenarios *)

(** A tape that starts with the listed draws and then yields 0. *)
Definition tape (l : list Q) : nat -> Q := fun n => nth n l 0%Q.

(** A stable [argsort]. *)
Definition argsort_stable (column : list Q) : list nat :=
  snd <$> sort_pairs Qle_bool (zip column (seq 0 (length column))).

(** A founder record: no parents, alive, one entry per locus in the edit
    vectors. *)
Definition founder (id born : Z) (sx : string) (hd : Z) (t : Q)
    (g : list Z) : animal_record :=
  mkAnimal id 0 0 born sx hd "A" "" (-1) t 0 (const 0 <$> g) (const 0 <$> g)
    (EtList (const 0 <$> g)) 0 g None None None.

Definition one_lethal : recessives_t :=
  [("HH1", mkRecessive (1 # 50) 40 1 1 "A")].

(** Two bulls (ids 1, 2) and two cows (ids 3, 4) in herd 0. *)
Definition small_herd : list animal_record :=
  [founder 1 0 "M" 0 10 [0]; founder 2 0 "M" 0 20 [1];
   founder 3 0 "F" 0 5 [0]; founder 4 0 "F" 0 7 [1]].

Definition small_world (l : list Q) : world := mkWorld small_herd (tape l) 0.

Definition small_portfolios : inbreeding_result :=
  mkInbreeding [(0, ([0; 1]%nat, [2; 3]%nat))]
    (list_to_map [((1, 3), 0%Q); ((1, 4), 0%Q); ((2, 3), 0%Q); ((2, 4), 0%Q)]).

(** The locus table of the main block of the source: horned is the
    non-lethal minor genotype, worth 50. *)
Definition horned_only : recessives_t :=
  [("Horned", mkRecessive (3 # 4) 50 0 0 "D")].

Definition two_lethals : recessives_t :=
  [("HH1", mkRecessive (1 # 50) 40 1 1 "A");
   ("HH2", mkRecessive (1 # 50) 40 1 1 "A")].

(** A single bull with genotype vector [g]. *)
Definition lone_bull (g : list Z) (l : list Q) : world :=
  mkWorld [founder 1 0 "M" 0 10 g] (tape l) 0.

(** A live bull and a cow that has died: a population without a cow to
    mate. *)
Definition retired_cow_world : world :=
  mkWorld [founder 1 0 "M" 0 10 [0]; set_alive "D" (founder 3 0 "F" 0 5 [0])]
    (tape []) 0.

(** A live bull and a live cow that are both homozygous for the minor
    allele of the only locus. *)
Definition fixed_pair : world :=
  mkWorld [founder 1 0 "M" 0 10 [-1]; founder 3 0 "F" 0 5 [-1]] (tape []) 0.

(** The configuration of the culling step used below: bulls may live one
    generation, cows ten, and no population cap is in force. *)
Definition short_lived_bulls : cull_config := mkCullConfig 10 1 0 10 1 0.

(** * Predicates of the further properties *)

(** ** Outcomes *)

(** Whether a run ends with a [return]. *)
Definition returns {A} (o : outcome A) : bool :=
  match o with
  | Ok _ _ => true
  | _ => false
  end.

(** ** Calves *)

(** The fields that [create_new_calf] fills in before its loop over the
    loci. *)
Definition same_identity (c c' : animal_record) : Prop :=
  animal c' = animal c /\ sire c' = sire c /\ dam c' = dam c /\
  born c' = born c /\ sex c' = sex c /\ herd c' = herd c /\
  tbv c' = tbv c /\ inbreeding c' = inbreeding c /\ bred c' = bred c.

(** The status fields of a calf inside the loop: untouched, or harvested
    for beef. *)
Definition calf_in_loop (generation : Z) (c : animal_record) : Prop :=
  (alive c = "A" /\ reason c = "" /\ died c = -1) \/
  (alive c = "D" /\ reason c = "B" /\ died c = generation /\ sex c = "M").

(** The status fields of a calf that left the loop early. *)
Definition calf_lost (generation : Z) (c : animal_record) : Prop :=
  alive c = "D" /\ died c = generation /\ (reason c = "C" \/ reason c = "H").






(** ** Allele frequencies *)

Definition in_unit_interval (f : Q) : Prop := (0 <= f <= 1)%Q.

(** Two entries of the recessives table that differ at most in the
    frequency. *)
Definition same_locus (old new : string * recessive) : Prop :=
  fst new = fst old /\ value (snd new) = value (snd old) /\
  lethal (snd new) = lethal (snd old) /\ edit (snd new) = edit (snd old) /\
  edit_mode (snd new) = edit_mode (snd old).


(** * Selection and summary routines *)

(** ** [fetch_ages] (l.1875-1929) and [fetch_rec_and_age] (l.1774-1873) *)

Definition fetch_ages (animal_list : list loc) (generation : Z)
    (bull_mating_age cow_mating_age : Z) : M (list loc) :=
  if (length animal_list <? 1)%nat then ret []
  else
    fold_m (fun l aged_animals =>
              a <- deref l ;;
              let age := generation - born a in
              if String.eqb (sex a) "M" && (bull_mating_age <=? age)
              then ret (aged_animals ++ [l])
              else if String.eqb (sex a) "F" && (cow_mating_age <=? age)
              then ret (aged_animals ++ [l])
              else ret aged_animals)
      animal_list [].

(** The chain of tests on [animal['genotypes'][rec_loc]] and [copies];
    the first test reads the genotype, whatever [copies] is. *)
Definition select_by_copies (rec_loc : nat) (copies : Z) (l : loc)
    (a : animal_record) (selected_animals : list loc) : M (list loc) :=
  g <- or_raise IndexError (genotypes a !! rec_loc) ;;
  if (g =? 1) && (copies =? 0) then ret (selected_animals ++ [l])
  else if (g =? 0) && (copies =? 1) then ret (selected_animals ++ [l])
  else if (g =? -1) && (copies =? 2) then ret (selected_animals ++ [l])
  else if ((g =? 0) || (g =? 1)) && (copies =? 4)
  then ret (selected_animals ++ [l])
  else if ((g =? 0) || (g =? -1)) && (copies =? 5)
  then ret (selected_animals ++ [l])
  else if ((g =? -1) || (g =? 1)) && (copies =? 6)
  then ret (selected_animals ++ [l])
  else ret selected_animals.

Definition fetch_rec_and_age (animal_list : list loc) (generation : Z)
    (get_recessive : string) (recessives : recessives_t)
    (bull_mating_age cow_mating_age copies : Z) : M (list loc) :=
  if (length animal_list <? 1)%nat then ret []
  else if negb (existsb (String.eqb get_recessive) (keys recessives)) then ret []
  else if negb (existsb (Z.eqb copies) [0; 1; 2; 4; 5; 6]) then ret []
  else
    rec_loc <- or_raise ValueError
                 (index_of String.eqb get_recessive (keys recessives)) ;;
    fold_m (fun l selected_animals =>
              a <- deref l ;;
              let age := generation - born a in
              if String.eqb (sex a) "M" && (bull_mating_age <=? age)
              then select_by_copies rec_loc copies l a selected_animals
              else if String.eqb (sex a) "F" && (cow_mating_age <=? age)
              then select_by_copies rec_loc copies l a selected_animals
              else ret selected_animals)
      animal_list [].

(** ** [get_unique_herd_list] (l.2448-2467) *)

Definition get_unique_herd_list (animals : list loc) : M (list Z) :=
  fold_m (fun l herd_list =>
            a <- deref l ;;
            if negb (existsb (Z.eqb (herd a)) herd_list)
            then ret (herd_list ++ [herd a])
            else ret herd_list)
    animals [].

(** ** [age_distn] (l.2617-2643) *)

Definition age_distn (animals : list loc) (generation : Z) : M (gmap Z Z) :=
  fold_m (fun l (ages : gmap Z Z) =>
            a <- deref l ;;
            let age := generation - born a in
            let ages := match ages !! age with
                        | None => <[age := 0]> ages
                        | Some _ => ages
                        end in
            n <- or_raise KeyError (ages !! age) ;;
            ret (<[age := n + 1]> ages))
    animals ∅.

(** ** Predicates of the selection routines *)

(** Old enough to be mated: bulls from [bull_mating_age] on, cows from
    [cow_mating_age] on; an animal of any other sex code never is. *)
Definition of_mating_age (generation bull_mating_age cow_mating_age : Z)
    (a : animal_record) : Prop :=
  (sex a = "M" /\ bull_mating_age <= generation - born a) \/
  (sex a = "F" /\ cow_mating_age <= generation - born a).

(** The genotype codes that a value of [copies] asks for, as the
    docstring of [fetch_rec_and_age] lists them. *)
Definition genotypes_wanted (copies : Z) : list Z :=
  if copies =? 0 then [1]
  else if copies =? 1 then [0]
  else if copies =? 2 then [-1]
  else if copies =? 4 then [1; 0]
  else if copies =? 5 then [-1; 0]
  else if copies =? 6 then [1; -1]
  else [].

(** The animals of a list that satisfy a property of their record,
    in the order of the list. *)
Definition animals_where (P : animal_record -> Prop) (w : world)
    (ls : list loc) (sel : list loc) : Prop :=
  sel `sublist_of` ls /\
  forall l, l ∈ sel <-> l ∈ ls /\ exists a, heap w !! l = Some a /\ P a.

(** How many animals of the list were born [k] generations before
    [generation]. *)
Definition aged_exactly (w : world) (generation k : Z) (ls : list loc) : nat :=
  length (filter (fun l => born <$> heap w !! l = Some (generation - k)) ls).


(** * Truncation mating, portfolios and the breeding count *)

(** ** [truncation_mating] (l.564-716) *)

(** [while not mated:] for the cow [c]: the sire is drawn among the last
    [b2k] bulls of the list sorted on TBV.  As [0 <= b2k <= len(bulls)],
    the index drawn is never negative. *)
Fixpoint mate_with_top_bull (fuel : nat) (recessives : recessives_t)
    (generation : Z) (calf_loss dehorning_loss harvest_beef : Q)
    (bulls : list loc) (b2k : Z) (c : loc)
    (st : list loc * list loc * Z) : M (list loc * list loc * Z) :=
  match fuel with
  | O => out_of_fuel
  | S fuel' =>
      let '(new_cows, new_bulls, next_id) := st in
      bull_to_use <- random_randint (Z.of_nat (length bulls) - b2k)
                       (Z.of_nat (length bulls) - 1) ;;
      (* bull_id = bulls[bull_to_use]['animal'] *)
      bl <- or_raise IndexError (bulls !! Z.to_nat bull_to_use) ;;
      bull <- deref bl ;;
      r <-
        (if String.eqb (alive bull) "A" then
           cow <- deref c ;;
           calf <- create_new_calf bull cow recessives next_id generation
                     calf_loss dehorning_loss harvest_beef ;;
           cl <- alloc calf ;;
           if String.eqb (sex calf) "F"
           then ret (new_cows ++ [cl], new_bulls, next_id + 1, true)
           else ret (new_cows, new_bulls ++ [cl], next_id + 1, true)
         else ret (new_cows, new_bulls, next_id, false)) ;;
      let '(st', mated) := r in
      (* cow['bred'] = 0 *)
      cow <- unbound_name "cow" ;;
      modify cow (set_bred 0) ;;
      if mated : bool then ret st'
      else mate_with_top_bull fuel' recessives generation calf_loss
             dehorning_loss harvest_beef bulls b2k c st'
  end.

Definition truncation_mating (fuel : nat) (coi : gmap Z Q)
    (cows bulls dead_cows dead_bulls : list loc) (generation : Z)
    (recessives : recessives_t) (pct : Q)
    (calf_loss dehorning_loss harvest_beef : Q) (extras : list (list loc))
    : M (list loc * list loc * list loc * list loc) :=
  let pct :=
    if negb (Qle_bool 0 pct) || negb (Qle_bool pct 1) then (1 # 10)%Q else pct in
  (* bulls.sort(key=lambda x: x['tbv']) *)
  bulls <- sort_on tbv Qle_bool bulls ;;
  (* int(pct*len(bulls)) *)
  let b2k := Qfloor (pct * inject_Z (Z.of_nat (length bulls))) in
  next_id <- get_next_id cows bulls dead_cows dead_bulls extras ;;
  st <- fold_m (fun c st =>
                  cow_r <- deref c ;;
                  if String.eqb (alive cow_r) "A" then
                    st' <- mate_with_top_bull fuel recessives generation
                             calf_loss dehorning_loss harvest_beef bulls b2k
                             c st ;;
                    (* cow['bred'] = 1 *)
                    cow <- unbound_name "cow" ;;
                    modify cow (set_bred 1) ;;
                    ret st'
                  else ret st)
          cows ([], [], next_id) ;;
  let '(new_cows, new_bulls, _) := st in
  cs <- file_newborns new_cows (cows, dead_cows) ;;
  bs <- file_newborns new_bulls (bulls, dead_bulls) ;;
  (* the editing gate tests ['1' in do_edits] against the integer flags
     and is never taken *)
  compute_inbreeding_unproxied coi (fst cs) (fst bs) (snd cs) (snd bs).

(** ** The count of bred and open cows in [run_scenario] (l.4240-4256) *)

Definition count_bred_cows (cows : list loc) (generation cow_mating_age : Z)
    : M (Z * Z * Z) :=
  fold_m (fun c (st : Z * Z * Z) =>
            let '(bred_cows, open_cows, replacements) := st in
            a <- deref c ;;
            let age := generation - born a in
            if age <? cow_mating_age then
              (* 3 = too young for breeding this generation *)
              modify c (set_bred 3) ;;
              ret (bred_cows, open_cows, replacements + 1)
            else if cow_mating_age <=? age then
              a <- deref c ;;
              if bred a =? 1 then ret (bred_cows + 1, open_cows, replacements)
              else ret (bred_cows, open_cows + 1, replacements)
            else ret (bred_cows, open_cows, replacements))
    cows (0, 0, 0).


(** ** Bull portfolios: [get_herd_bulls] (l.1101-1409) *)

(** [l[0:k]]; a negative [k] counts from the end of the list. *)
Definition slice_to {A} (k : Z) (l : list A) : list A :=
  if k <? 0 then take (length l - Z.to_nat (- k)) l else take (Z.to_nat k) l.

(** [[b for b in animals if b['animal'] not in bull_used]] *)
Definition not_used (bull_used : list Z) (animals : list loc) : M (list loc) :=
  fold_m (fun b kept =>
            a <- deref b ;;
            if negb (existsb (Z.eqb (animal a)) bull_used)
            then ret (kept ++ [b])
            else ret kept)
    animals [].

(** The selection from the bulls of mating age under the criterion
    'random' (l.1378-1403). *)
Definition random_portfolio (bull_unique : bool) (bull_used : list Z)
    (aged_bulls : list loc)
    (bulls_per_herd remainder_herds herd_counter service_bulls : Z)
    : M (list loc) :=
  if bull_unique then
    if bulls_per_herd <? service_bulls then
      herd_bulls <-
        (if herd_counter <? remainder_herds then
           unused <- not_used bull_used aged_bulls ;;
           ret (slice_to (bulls_per_herd + 1) unused)
         else ret []) ;;
      if remainder_herds <=? herd_counter then
        unused <- not_used bull_used aged_bulls ;;
        ret (slice_to bulls_per_herd unused)
      else ret herd_bulls
    else
      unused <- not_used bull_used aged_bulls ;;
      ret (slice_to service_bulls unused)
  else
    if Z.of_nat (length aged_bulls) / 5 + 1 <? service_bulls
    then ret (slice_to service_bulls aged_bulls)
    else ret (slice_to (Z.of_nat (length aged_bulls) / 5) aged_bulls).

(** The path of [get_herd_bulls] for every [bull_criterion] other than
    'polled' (l.1142-1166 and l.1358-1409; an unknown criterion is
    replaced by 'random').  [random.shuffle(bulls)] reorders the caller's
    list in place, so the new order is returned beside the portfolio. *)
Definition get_herd_bulls_random (bulls : list loc) (generation : Z)
    (herd_counter : Z) (bull_unique : bool) (bull_used : list Z)
    (service_bulls bull_mating_age cow_mating_age : Z)
    : M (list loc * list loc) :=
  herd_list <- get_unique_herd_list bulls ;;
  let numberof_herds :=
    if (length herd_list =? 200)%nat then Z.of_nat (length herd_list)
    else if (length herd_list =? 10)%nat then Z.of_nat (length herd_list)
    else Z.of_nat (length herd_list) + 1 in
  aged_bulls <- fetch_ages bulls generation bull_mating_age cow_mating_age ;;
  let bulls_per_herd := Z.of_nat (length aged_bulls) / numberof_herds in
  let remainder_herds := Z.of_nat (length aged_bulls) mod numberof_herds in
  let remainder_herds := if remainder_herds <? 0 then 0 else remainder_herds in
  bulls <- random_shuffle bulls ;;
  herd_bulls <- random_portfolio bull_unique bull_used aged_bulls
                  bulls_per_herd remainder_herds herd_counter service_bulls ;;
  ret (herd_bulls, bulls).

(** A computation whose outcome is a function of the store alone and
    that leaves the world as it is. *)
Definition reads_store {A} (m : M A) : Prop :=
  forall w1 w2, heap w1 = heap w2 ->
    match m w1 with
    | Ok a w1' => w1' = w1 /\ m w2 = Ok a w2
    | Raise e => m w2 = Raise e
    | OutOfFuel => m w2 = OutOfFuel
    end.


(** ** The ids of the calves of one allocation *)

(** The invariant of the allocation loop on ids: the calves born so far
    carry distinct ids from [n0] up to, and not including, the id that
    the next calf will get. *)
Definition calf_ids_inv (n0 : Z) (st : alloc_state) (w : world) : Prop :=
  next_id st = n0 + Z.of_nat (length (new_cows st ++ new_bulls st)) /\
  exists ids,
    Forall2 (fun l i => animal <$> heap w !! l = Some i)
      (new_cows st ++ new_bulls st) ids /\
    NoDup ids /\ Forall (fun i => n0 <= i < next_id st) ids.

(** * Reasoning about runs *)

Lemma bind_Ok {A B} (m : M A) (k : A -> M B) w b w2 :
  bind m k w = Ok b w2 -> exists a w1, m w = Ok a w1 /\ k a w1 = Ok b w2.
Proof.
  unfold bind. destruct (m w) as [a w1| |]; try discriminate. eauto.
Qed.

Lemma bind_Ok_intro {A B} (m : M A) (k : A -> M B) w a w1 r :
  m w = Ok a w1 -> k a w1 = r -> bind m k w = r.
Proof. intros Hm Hk. unfold bind. rewrite Hm. exact Hk. Qed.

Lemma ret_Ok {A} (a b : A) w w' : ret a w = Ok b w' -> b = a /\ w' = w.
Proof. unfold ret. intros H. injection H as -> ->. auto. Qed.

Lemma or_raise_Ok {A} e (o : option A) a w w' :
  or_raise e o w = Ok a w' -> o = Some a /\ w' = w.
Proof.
  destruct o; simpl; unfold ret, raise; intros H; try discriminate.
  injection H as -> ->. auto.
Qed.

Lemma deref_Ok l a w w' : deref l w = Ok a w' -> heap w !! l = Some a /\ w' = w.
Proof.
  unfold deref. destruct (heap w !! l); intros H; try discriminate.
  injection H as -> ->. auto.
Qed.

Lemma modify_Ok l f u w w' :
  modify l f w = Ok u w' ->
  exists a, heap w !! l = Some a /\
            w' = mkWorld (<[l := f a]> (heap w)) (draws w) (cursor w).
Proof.
  unfold modify. destruct (heap w !! l) as [a|]; intros H; try discriminate.
  injection H as _ <-. eauto.
Qed.

Lemma alloc_Ok a l w w' :
  alloc a w = Ok l w' ->
  l = length (heap w) /\ w' = mkWorld (heap w ++ [a]) (draws w) (cursor w).
Proof. unfold alloc. intros H. injection H as <- <-. auto. Qed.

Lemma next_draw_Ok u w w' :
  next_draw w = Ok u w' -> heap w' = heap w.
Proof. unfold next_draw. intros H. injection H as _ <-. reflexivity. Qed.

(** Inversion of successful runs, one monadic step at a time. *)
Ltac minv_step :=
  match goal with
  | H : bind _ _ _ = Ok _ _ |- _ =>
      apply bind_Ok in H; destruct H as (? & ? & ? & ?)
  | H : ret _ _ = Ok _ _ |- _ => apply ret_Ok in H; destruct H; subst
  | H : or_raise _ _ _ = Ok _ _ |- _ =>
      apply or_raise_Ok in H; destruct H; subst
  | H : raise _ _ = Ok _ _ |- _ => discriminate H
  | H : out_of_fuel _ = Ok _ _ |- _ => discriminate H
  | H : unbound_name _ _ = Ok _ _ |- _ => discriminate H
  | H : deref _ _ = Ok _ _ |- _ => apply deref_Ok in H; destruct H; subst
  | H : alloc _ _ = Ok _ _ |- _ => apply alloc_Ok in H; destruct H; subst
  | H : modify _ _ _ = Ok _ _ |- _ =>
      apply modify_Ok in H; destruct H as (? & ? & ?); subst
  | H : (if ?c then _ else _) _ = Ok _ _ |- _ => destruct c eqn:?
  | H : (match ?c with Some _ => _ | None => _ end) _ = Ok _ _ |- _ =>
      destruct c eqn:?
  | H : (match ?c with Continue _ => _ | Return _ => _ end) _ = Ok _ _ |- _ =>
      destruct c eqn:?
  | H : (let '(_, _) := ?c in _) _ = Ok _ _ |- _ => destruct c eqn:?
  end.

Ltac minv := repeat minv_step.

(** A loop invariant for [fold_m]. *)
Lemma fold_m_inv {A S} (I : S -> world -> Prop) (body : A -> S -> M S) xs :
  forall s w s' w',
  (forall x s w s' w', x ∈ xs -> I s w -> body x s w = Ok s' w' -> I s' w') ->
  I s w -> fold_m body xs s w = Ok s' w' -> I s' w'.
Proof.
  induction xs as [|x xs IH]; simpl; intros s w s' w' Hbody HI H.
  - minv. assumption.
  - minv. eapply IH; [| |eassumption].
    + intros; eapply Hbody; eauto. by right.
    + eapply Hbody; eauto. by left.
Qed.

Lemma map_m_heap {A B} (f : A -> M B) xs :
  (forall x y w w', f x w = Ok y w' -> w' = w) ->
  forall ys w w', map_m f xs w = Ok ys w' -> w' = w.
Proof.
  intros Hf. induction xs as [|x xs IH]; simpl; intros ys w w' H.
  - minv. reflexivity.
  - minv. match goal with H : f _ _ = Ok _ _ |- _ => apply Hf in H; subst end.
    eauto.
Qed.

(** ** Random draws do not touch the store *)

Lemma random_uniform01_heap u w w' :
  random_uniform01 w = Ok u w' -> heap w' = heap w.
Proof.
  unfold random_uniform01. intros H. minv.
  match goal with H : next_draw _ = _ |- _ => apply next_draw_Ok in H end.
  assumption.
Qed.

Lemma bernoulli_rvs_heap p x w w' :
  bernoulli_rvs p w = Ok x w' -> heap w' = heap w.
Proof.
  unfold bernoulli_rvs. intros H. minv. eapply random_uniform01_heap; eauto.
Qed.

Lemma bernoulli_rvs_size_heap p n : forall xs w w',
  bernoulli_rvs_size p n w = Ok xs w' -> heap w' = heap w.
Proof.
  induction n as [|n IH]; simpl; intros xs w w' H; minv; [reflexivity|].
  repeat match goal with
         | H : bernoulli_rvs _ _ = _ |- _ => apply bernoulli_rvs_heap in H
         | H : bernoulli_rvs_size _ _ _ = _ |- _ => apply IH in H
         end.
  congruence.
Qed.

Lemma random_randint_heap a b x w w' :
  random_randint a b w = Ok x w' -> heap w' = heap w.
Proof.
  unfold random_randint. intros H. minv. eapply random_uniform01_heap; eauto.
Qed.

Lemma random_normalvariate_heap mu sigma x w w' :
  random_normalvariate mu sigma w = Ok x w' -> heap w' = heap w.
Proof.
  unfold random_normalvariate. intros H. minv.
  match goal with H : next_draw _ = _ |- _ => apply next_draw_Ok in H end.
  assumption.
Qed.

Lemma draw_allele_heap g x w w' :
  draw_allele g w = Ok x w' -> heap w' = heap w.
Proof.
  unfold draw_allele. intros H. minv; try reflexivity.
  eapply bernoulli_rvs_heap; eauto.
Qed.

(** Runs of the random primitives are replaced by what they leave of the
    store. *)
Ltac rng_step :=
  match goal with
  | H : bernoulli_rvs _ _ = Ok _ _ |- _ => apply bernoulli_rvs_heap in H
  | H : bernoulli_rvs_size _ _ _ = Ok _ _ |- _ => apply bernoulli_rvs_size_heap in H
  | H : random_randint _ _ _ = Ok _ _ |- _ => apply random_randint_heap in H
  | H : random_uniform01 _ = Ok _ _ |- _ => apply random_uniform01_heap in H
  | H : random_normalvariate _ _ _ = Ok _ _ |- _ =>
      apply random_normalvariate_heap in H
  | H : draw_allele _ _ = Ok _ _ |- _ => apply draw_allele_heap in H
  end.

(** ** [create_new_calf] reads the store and names its sire *)

Lemma calf_locus_spec sire_r dam_r recessives generation cl dl hb rk rv calf f w w' :
  calf_locus sire_r dam_r recessives generation cl dl hb rk rv calf w = Ok f w' ->
  heap w' = heap w /\
  match f with Continue c | Return c => sire c = sire calf end.
Proof.
  unfold calf_locus. intros H. minv; repeat rng_step; simpl; split;
    try congruence; repeat case_match; reflexivity.
Qed.

Lemma calf_loci_spec sire_r dam_r recessives generation cl dl hb items :
  forall calf c w w',
  calf_loci sire_r dam_r recessives generation cl dl hb items calf w = Ok c w' ->
  heap w' = heap w /\ sire c = sire calf.
Proof.
  induction items as [|[rk rv] items IH]; simpl; intros calf c w w' H.
  - minv. auto.
  - minv;
      match goal with
      | H : calf_locus _ _ _ _ _ _ _ _ _ _ _ = Ok _ _ |- _ =>
          apply calf_locus_spec in H; destruct H
      end; auto.
    match goal with H : calf_loci _ _ _ _ _ _ _ _ _ _ = _ |- _ =>
      apply IH in H; destruct H end.
    split; congruence.
Qed.

Lemma create_new_calf_spec sire_r dam_r recessives calf_id generation cl dl hb c w w' :
  create_new_calf sire_r dam_r recessives calf_id generation cl dl hb w = Ok c w' ->
  heap w' = heap w /\ sire c = animal sire_r.
Proof.
  unfold create_new_calf. intros H. minv. repeat rng_step.
  match goal with H : calf_loci _ _ _ _ _ _ _ _ _ _ = _ |- _ =>
    apply calf_loci_spec in H; destruct H as [? Hs] end.
  simpl in Hs. split; congruence.
Qed.

(** ** The allocation loop keeps its invariant *)

Lemma fold_m_pure {A S} (body : A -> S -> M S) xs :
  (forall x s w s' w', body x s w = Ok s' w' -> w' = w) ->
  forall s w s' w', fold_m body xs s w = Ok s' w' -> w' = w.
Proof.
  intros Hb. induction xs as [|x xs IH]; simpl; intros s w s' w' H; minv.
  - reflexivity.
  - match goal with H : body _ _ _ = _ |- _ => apply Hb in H; subst end. eauto.
Qed.

Lemma map_m_deref_pure ls rs w w' : map_m deref ls w = Ok rs w' -> w' = w.
Proof.
  apply map_m_heap. intros x y w0 w0' H. minv. reflexivity.
Qed.

Lemma sort_on_pure {K} (key : animal_record -> K) leb l l' w w' :
  sort_on key leb l w = Ok l' w' -> w' = w.
Proof.
  unfold sort_on. intros H. minv.
  match goal with H : map_m _ _ _ = _ |- _ =>
    apply map_m_heap in H; [auto|] end.
  intros ? ? ? ? ?. minv. reflexivity.
Qed.

Lemma mating_value_pure recessives inbr flambda penalty cp b c v w w' :
  mating_value recessives inbr flambda penalty cp b c w = Ok v w' -> w' = w.
Proof.
  unfold mating_value. intros H. minv; [|reflexivity].
  match goal with H : fold_m _ _ _ _ = _ |- _ =>
    apply fold_m_pure in H; [auto|] end.
  intros ? ? ? ? ? ?. minv. reflexivity.
Qed.

Lemma build_b_mat_pure recessives inbr flambda penalty cp bs cs m w w' :
  build_b_mat recessives inbr flambda penalty cp bs cs w = Ok m w' -> w' = w.
Proof.
  unfold build_b_mat. apply fold_m_pure. intros b s w0 s' w0' H. minv.
  match goal with H : fold_m _ _ _ _ = _ |- _ =>
    apply fold_m_pure in H; [auto|] end.
  intros ? ? ? ? ? ?. minv.
  eapply mating_value_pure; eauto.
Qed.

Lemma sires_alloc h a : sires (h ++ [a]) = sires h ++ [sire a].
Proof. unfold sires. by rewrite fmap_app. Qed.

Lemma sires_set_bred h c a v :
  h !! c = Some a -> sires (<[c := set_bred v a]> h) = sires h.
Proof.
  intros Hc. unfold sires. rewrite list_fmap_insert. simpl.
  apply list_insert_id. by rewrite list_lookup_fmap, Hc.
Qed.

Lemma sired_by_app h b l1 l2 :
  sired_by h b (l1 ++ l2) = (sired_by h b l1 + sired_by h b l2)%nat.
Proof. unfold sired_by. by rewrite filter_app, length_app. Qed.

Lemma sired_by_grow h a b calves :
  Forall (fun l => (l < length h)%nat) calves ->
  sired_by (h ++ [a]) b calves = sired_by h b calves.
Proof.
  unfold sired_by. rewrite sires_alloc.
  induction 1 as [|l ls Hl _ IH]; [reflexivity|].
  rewrite !filter_cons.
  rewrite lookup_app_l by (unfold sires; by rewrite length_fmap).
  repeat case_decide; simpl; congruence.
Qed.

Lemma sired_by_newborn h a b :
  sired_by (h ++ [a]) b [length h] = if decide (sire a = b) then 1%nat else 0%nat.
Proof.
  unfold sired_by. rewrite filter_cons, filter_nil, sires_alloc.
  replace (length h) with (length (sires h)) by (unfold sires; apply length_fmap).
  rewrite list_lookup_middle by reflexivity.
  repeat case_decide; simpl; congruence.
Qed.

Lemma alloc_inv_heap cap st w w' :
  heap w' = heap w -> alloc_inv cap st w -> alloc_inv cap st w'.
Proof.
  intros E [Hv Hc Hcap]. constructor; rewrite ?E; assumption.
Qed.

(** One mating: the calf of the bull with id [b] is appended to the store
    and to one of the two lists, the cow [c] is marked bred and the count
    of the bull goes from [m] to [m + 1]. *)
Lemma alloc_inv_mated cap st h d k calf c cow b m (female : bool) :
  alloc_inv cap st (mkWorld h d k) ->
  sire calf = b ->
  matings st !! b = Some m ->
  m < cap ->
  (h ++ [calf]) !! c = Some cow ->
  alloc_inv cap
    (if female
     then mkAlloc (<[b := m + 1]> (matings st)) (new_cows st ++ [length h])
            (new_bulls st) (next_id st + 1)
     else mkAlloc (<[b := m + 1]> (matings st)) (new_cows st)
            (new_bulls st ++ [length h]) (next_id st + 1))
    (mkWorld (<[c := set_bred 1 cow]> (h ++ [calf])) d k).
Proof.
  intros [Hvalid Hcounts Hcapped] Hsire Hm Hlt Hc. simpl in *.
  assert (Hs : sires (<[c := set_bred 1 cow]> (h ++ [calf])) = sires (h ++ [calf]))
    by (by apply sires_set_bred).
  assert (Hold : forall x calves,
             Forall (fun l => (l < length h)%nat) calves ->
             sired_by (<[c := set_bred 1 cow]> (h ++ [calf])) x calves
             = sired_by h x calves).
  { intros x calves Hv. unfold sired_by at 1. rewrite Hs.
    fold (sired_by (h ++ [calf]) x calves). by apply sired_by_grow. }
  assert (Hborn : forall x,
             sired_by (<[c := set_bred 1 cow]> (h ++ [calf])) x [length h] =
             if decide (b = x) then 1%nat else 0%nat).
  { intros x. unfold sired_by at 1. rewrite Hs.
    fold (sired_by (h ++ [calf]) x [length h]).
    rewrite sired_by_newborn, Hsire. reflexivity. }
  apply Forall_app in Hvalid. destruct Hvalid as [Hvc Hvb].
  assert (Hlen : length (<[c := set_bred 1 cow]> (h ++ [calf])) = S (length h))
    by (rewrite length_insert, length_app; simpl; lia).
  assert (Hgrow : forall calves,
             Forall (fun l => (l < length h)%nat) calves ->
             Forall (fun l => (l < S (length h))%nat) calves).
  { intros calves Hv. eapply Forall_impl; [exact Hv|]. simpl. lia. }
  assert (Hmatings : forall x,
             default 0 (<[b := m + 1]> (matings st) !! x) =
             default 0 (matings st !! x) + (if decide (b = x) then 1 else 0)).
  { intros x. destruct (decide (b = x)) as [<-|Hne].
    - rewrite lookup_insert_eq, Hm. reflexivity.
    - rewrite lookup_insert_ne by assumption. lia. }
  assert (Hcapped' : forall x v,
             <[b := m + 1]> (matings st) !! x = Some v -> v <= cap).
  { intros x v. destruct (decide (b = x)) as [<-|Hne].
    - rewrite lookup_insert_eq. intros [= <-]. lia.
    - rewrite lookup_insert_ne by assumption. apply Hcapped. }
  destruct female; constructor; simpl; try exact Hcapped'.
  - rewrite Hlen. apply Forall_app.
    split; [apply Forall_app; split|]; auto; try (repeat constructor; lia).
  - intros x. rewrite Hmatings, <- Hcounts.
    rewrite !sired_by_app, (Hold x (new_cows st)), (Hold x (new_bulls st)),
      Hborn by assumption.
    destruct (decide (b = x)); lia.
  - rewrite Hlen. apply Forall_app.
    split; [|apply Forall_app; split]; auto; try (repeat constructor; lia).
  - intros x. rewrite Hmatings, <- Hcounts.
    rewrite !sired_by_app, (Hold x (new_cows st)), (Hold x (new_bulls st)),
      Hborn by assumption.
    destruct (decide (b = x)); lia.
Qed.

Section AllocationInvariant.

Variable argsort : list Q -> list nat.
Variables (recessives : recessives_t) (generation max_matings : Z)
          (bull_deficit : string) (calf_loss dehorning_loss harvest_beef : Q)
          (inbr_tbl : gmap (Z * Z) Q).
Hypothesis limited : String.eqb bull_deficit "no_limit" = false.

Lemma try_bulls_inv bull_portfolio sorted_bulls c bidxs :
  forall st w st' w',
  alloc_inv max_matings st w ->
  try_bulls recessives generation max_matings bull_deficit calf_loss
    dehorning_loss harvest_beef inbr_tbl bull_portfolio sorted_bulls c bidxs
    st w = Ok st' w' ->
  alloc_inv max_matings st' w'.
Proof.
  induction bidxs as [|bidx bidxs IH]; simpl; intros st w st' w' Hinv H.
  - minv. assumption.
  - rewrite limited in H. simpl in H. minv; eauto;
      match goal with
      | H : create_new_calf _ _ _ _ _ _ _ _ _ = Ok _ _ |- _ =>
          apply create_new_calf_spec in H; destruct H as [Hheap Hsire]
      end;
      match goal with H : (_ && true) = false |- _ =>
        rewrite andb_true_r in H; apply Z.leb_gt in H end;
      simpl in *.
    + eapply (alloc_inv_mated _ _ _ _ _ _ _ _ _ _ true); eauto.
      eapply alloc_inv_heap; [|exact Hinv]. simpl. congruence.
    + eapply (alloc_inv_mated _ _ _ _ _ _ _ _ _ _ false); eauto.
      eapply alloc_inv_heap; [|exact Hinv]. simpl. congruence.
Qed.

Lemma allocate_cow_inv b_mat bull_portfolio cow_id_list c st w st' w' :
  alloc_inv max_matings st w ->
  allocate_cow argsort recessives generation max_matings bull_deficit
    calf_loss dehorning_loss harvest_beef inbr_tbl b_mat bull_portfolio
    cow_id_list c st w = Ok st' w' ->
  alloc_inv max_matings st' w'.
Proof.
  unfold allocate_cow. intros Hinv H. minv.
  match goal with H : map_m _ _ _ = Ok _ _ |- _ =>
    apply map_m_heap in H; [subst|intros ? ? ? ? ?; minv; reflexivity] end.
  eapply try_bulls_inv; eauto.
Qed.

Lemma allocate_herd_inv flambda penalty carrier_penalty h st w st' w' :
  alloc_inv max_matings st w ->
  allocate_herd argsort recessives generation max_matings bull_deficit
    calf_loss dehorning_loss harvest_beef inbr_tbl flambda penalty
    carrier_penalty h st w = Ok st' w' ->
  alloc_inv max_matings st' w'.
Proof.
  destruct h as [hid [herd_bulls herd_cows]]. unfold allocate_herd.
  intros Hinv H. minv.
  repeat match goal with
         | H : map_m deref _ _ = Ok _ _ |- _ => apply map_m_deref_pure in H; subst
         | H : build_b_mat _ _ _ _ _ _ _ _ = Ok _ _ |- _ =>
             apply build_b_mat_pure in H; subst
         | H : sort_on _ _ _ _ = Ok _ _ |- _ => apply sort_on_pure in H; subst
         end.
  match goal with H : fold_m _ _ _ _ = Ok _ _ |- _ => revert H end.
  apply fold_m_inv; [|assumption].
  intros c s w0 s' w0' _. apply allocate_cow_inv.
Qed.

End AllocationInvariant.

Lemma init_matings_spec bulls m w w' :
  init_matings bulls w = Ok m w' ->
  w' = w /\ forall b v, m !! b = Some v -> v = 0.
Proof.
  unfold init_matings. intros H. split.
  - revert H. apply fold_m_pure. intros ? ? ? ? ? ?. minv. reflexivity.
  - revert H.
    apply (fold_m_inv (fun (m : gmap Z Z) _ => forall b v, m !! b = Some v -> v = 0)).
    + intros x s w0 s' w0' _ Hs Hx. minv. intros b v.
      rewrite lookup_insert. case_decide; [congruence|apply Hs].
    + intros b v. rewrite lookup_empty. discriminate.
Qed.

Lemma pryce_allocate_inv argsort cows bulls dead_cows dead_bulls generation
    recessives max_matings penalty flambda bull_deficit carrier_penalty
    calf_loss dehorning_loss harvest_beef extras ci w st w' :
  0 <= max_matings ->
  bull_deficit <> "no_limit" ->
  pryce_allocate argsort cows bulls dead_cows dead_bulls generation recessives
    max_matings penalty flambda bull_deficit carrier_penalty calf_loss
    dehorning_loss harvest_beef extras ci w = Ok st w' ->
  alloc_inv max_matings st w'.
Proof.
  intros Hcap Hlim. unfold pryce_allocate.
  replace (if max_matings <? 0 then 500 else max_matings) with max_matings
    by (destruct (Z.ltb_spec max_matings 0); [lia|reflexivity]).
  intros H. minv.
  match goal with H : init_matings _ _ = _ |- _ =>
    apply init_matings_spec in H; destruct H as [-> Hzero] end.
  match goal with H : fold_m _ _ _ _ = Ok _ _ |- _ => revert H end.
  apply fold_m_inv.
  - intros h s w0 s' w0' _. apply allocate_herd_inv.
    apply String.eqb_neq. assumption.
  - constructor; simpl.
    + constructor.
    + intros b. destruct (_ !! b) as [v|] eqn:E; simpl; [|reflexivity].
      apply Hzero in E. subst. reflexivity.
    + intros b v E. apply Hzero in E. lia.
Qed.

(** C2. Under optimal (Pryce) allocation with a deficit policy other
    than 'no_limit', no bull sires more than [max_matings] of the calves of
    one call, counted over all herds; under 'no_limit' a bull can exceed
    the cap (here a bull capped at one mating sires two calves). *)
Theorem pryce_allocation_respects_cap :
  (forall argsort cows bulls dead_cows dead_bulls generation recessives
          max_matings penalty flambda bull_deficit carrier_penalty calf_loss
          dehorning_loss harvest_beef extras ci w st w',
      0 <= max_matings ->
      bull_deficit <> "no_limit" ->
      pryce_allocate argsort cows bulls dead_cows dead_bulls generation
        recessives max_matings penalty flambda bull_deficit carrier_penalty
        calf_loss dehorning_loss harvest_beef extras ci w = Ok st w' ->
      forall b,
        Z.of_nat (sired_by (heap w') b (new_cows st ++ new_bulls st))
        <= max_matings)
  /\
  (exists st w',
      pryce_allocate argsort_stable [2; 3]%nat [0; 1]%nat [] [] 1 one_lethal 1
        true 25 "no_limit" false 0 0 0 [] small_portfolios (small_world [])
      = Ok st w'
      /\ 1 < Z.of_nat (sired_by (heap w') 2 (new_cows st ++ new_bulls st))).
Proof.
  split.
  - intros until w'. intros Hcap Hlim H b.
    destruct (pryce_allocate_inv _ _ _ _ _ _ _ _ _ _ _ _ _ _ _ _ _ _ _ _
                Hcap Hlim H) as [_ Hcounts Hcapped].
    rewrite Hcounts. destruct (matings st !! b) as [v|] eqn:E; simpl.
    + eapply Hcapped; eauto.
    + assumption.
  - eexists _, _. split; [vm_compute; reflexivity|]. vm_compute. reflexivity.
Qed.

Lemma pryce_allocation_respects_cap_witness :
  exists st w',
    pryce_allocate argsort_stable [2; 3]%nat [0; 1]%nat [] [] 1 one_lethal 1
      true 25 "use_horned" false 0 0 0 [] small_portfolios (small_world [])
    = Ok st w'
    /\ Z.of_nat (sired_by (heap w') 2 (new_cows st ++ new_bulls st)) = 1
    /\ forall b,
        Z.of_nat (sired_by (heap w') b (new_cows st ++ new_bulls st)) <= 1.
Proof.
  eexists _, _. split; [vm_compute; reflexivity|]. split; [vm_compute; reflexivity|].
  apply (proj1 pryce_allocation_respects_cap argsort_stable [2; 3]%nat
           [0; 1]%nat [] [] 1 one_lethal 1 true 25%Q "use_horned" false 0%Q 0%Q
           0%Q [] small_portfolios (small_world [])).
  - lia.
  - discriminate.
  - vm_compute. reflexivity.
Defined.

(** ** [edit_genes] writes only to the clones *)

Lemma only_writes_refl l w : only_writes l w w.
Proof. split; auto. Qed.

Lemma only_writes_heap l w w' : heap w' = heap w -> only_writes l w w'.
Proof. intros E. split; rewrite E; auto. Qed.

Lemma only_writes_trans l w1 w2 w3 :
  only_writes l w1 w2 -> only_writes l w2 w3 -> only_writes l w1 w3.
Proof.
  intros [L1 F1] [L2 F2]. split; [congruence|].
  intros l' Hl. rewrite F2, F1 by assumption. reflexivity.
Qed.

Lemma modify_only_writes l f u w w' :
  modify l f w = Ok u w' -> only_writes l w w'.
Proof.
  intros H. apply modify_Ok in H. destruct H as (a & Ha & ->). split; simpl.
  - apply length_insert.
  - intros l' Hl. apply list_lookup_insert_ne. congruence.
Qed.

Lemma modify_lookup l f u w w' :
  modify l f w = Ok u w' ->
  exists a, heap w !! l = Some a /\ heap w' !! l = Some (f a).
Proof.
  intros H. apply modify_Ok in H. destruct H as (a & Ha & ->).
  exists a. split; [assumption|]. simpl.
  apply list_lookup_insert_eq. eapply lookup_lt_Some; eauto.
Qed.

(** Successful steps that only read, draw or write to [l] are collected
    into [only_writes l] facts and chained. *)
Ltac frame_step l :=
  match goal with
  | H : modify l _ ?w = Ok _ ?w' |- _ =>
      apply modify_only_writes in H
  | H : bernoulli_rvs _ ?w = Ok _ ?w' |- _ =>
      apply bernoulli_rvs_heap, (only_writes_heap l) in H
  | H : bernoulli_rvs_size _ _ ?w = Ok _ ?w' |- _ =>
      apply bernoulli_rvs_size_heap, (only_writes_heap l) in H
  end.

Ltac frame_chain :=
  repeat match goal with
         | |- only_writes _ ?w ?w => apply only_writes_refl
         | H : only_writes ?l ?w ?w1 |- only_writes ?l ?w ?w2 =>
             apply (only_writes_trans l w w1 w2 H); clear H
         end.

Lemma mark_edited_only_writes ed r count u w w' :
  mark_edited ed r count w = Ok u w' -> only_writes ed w w'.
Proof.
  unfold mark_edited. intros H.
  repeat (apply bind_Ok in H; destruct H as (? & ? & ? & H));
    repeat match goal with
           | H : deref _ _ = Ok _ _ |- _ => apply deref_Ok in H; destruct H; subst
           | H : or_raise _ _ _ = Ok _ _ |- _ =>
               apply or_raise_Ok in H; destruct H; subst
           end.
  repeat frame_step ed. frame_chain.
Qed.

Lemma edit_until_success_only_writes fuel ed r rv edit_type :
  forall count u w w',
  edit_until_success fuel ed r rv edit_type count w = Ok u w' ->
  only_writes ed w w'.
Proof.
  induction fuel as [|fuel IH]; simpl; intros count u w w' H;
    [discriminate|].
  apply bind_Ok in H. destruct H as (p & w1 & H1 & H).
  apply or_raise_Ok in H1. destruct H1 as [_ ->].
  apply bind_Ok in H. destruct H as (x & w1 & H1 & H).
  apply bernoulli_rvs_heap, (only_writes_heap ed) in H1.
  eapply only_writes_trans; [exact H1|].
  destruct (negb (x =? 0)).
  - eapply mark_edited_only_writes; eauto.
  - eapply IH; eauto.
Qed.

Lemma edit_locus_only_writes fuel recessives edit_type edit_trials ed rk rv f w w' :
  edit_locus fuel recessives edit_type edit_trials ed rk rv w = Ok f w' ->
  only_writes ed w w'.
Proof.
  unfold edit_locus. intros H.
  apply bind_Ok in H. destruct H as (r & w1 & H1 & H).
  apply or_raise_Ok in H1. destruct H1 as [_ ->].
  apply bind_Ok in H. destruct H as (a & w1 & H1 & H).
  apply deref_Ok in H1. destruct H1 as [_ ->].
  apply bind_Ok in H. destruct H as (g & w1 & H1 & H).
  apply or_raise_Ok in H1. destruct H1 as [_ ->].
  destruct ((g =? 0) || (g =? -1)); [|minv; apply only_writes_refl].
  destruct (0 <? edit_trials).
  - apply bind_Ok in H. destruct H as (p & w1 & H1 & H).
    apply or_raise_Ok in H1. destruct H1 as [_ ->].
    apply bind_Ok in H. destruct H as (outcomes & w1 & H1 & H).
    apply bernoulli_rvs_size_heap, (only_writes_heap ed) in H1.
    eapply only_writes_trans; [exact H1|].
    destruct (any_nonzero outcomes); [|minv; apply only_writes_refl].
    apply bind_Ok in H. destruct H as (u & w2 & H2 & H).
    apply mark_edited_only_writes in H2. minv. assumption.
  - destruct (edit_trials <? 0); [|minv; apply only_writes_refl].
    apply bind_Ok in H. destruct H as (u & w2 & H2 & H).
    apply edit_until_success_only_writes in H2. minv. assumption.
Qed.

Lemma edit_loci_only_writes fuel recessives edit_type edit_trials ed items :
  forall last_rv r w w',
  edit_loci fuel recessives edit_type edit_trials ed items last_rv w = Ok r w' ->
  only_writes ed w w'.
Proof.
  induction items as [|[rk rv] items IH]; simpl; intros last_rv r w w' H.
  - minv. apply only_writes_refl.
  - apply bind_Ok in H. destruct H as (f & w1 & H1 & H).
    apply edit_locus_only_writes in H1.
    eapply only_writes_trans; [exact H1|].
    destruct f; [eapply IH; eauto|]. minv. apply only_writes_refl.
Qed.

Lemma transfer_until_success_only_writes fuel ed last_rv edit_type :
  forall count u w w',
  transfer_until_success fuel ed last_rv edit_type count w = Ok u w' ->
  only_writes ed w w'.
Proof.
  induction fuel as [|fuel IH]; simpl; intros count u w w' H;
    [discriminate|].
  apply bind_Ok in H. destruct H as (rv & w1 & H1 & H).
  apply or_raise_Ok in H1. destruct H1 as [_ ->].
  apply bind_Ok in H. destruct H as (p & w1 & H1 & H).
  apply or_raise_Ok in H1. destruct H1 as [_ ->].
  apply bind_Ok in H. destruct H as (x & w1 & H1 & H).
  apply bernoulli_rvs_heap, (only_writes_heap ed) in H1.
  eapply only_writes_trans; [exact H1|].
  destruct (negb (x =? 0)).
  - eapply modify_only_writes; eauto.
  - eapply IH; eauto.
Qed.

(** The embryo-transfer step, as a frame. *)
Lemma embryo_transfer_only_writes fuel generation edit_type embryo_trials ed
    last_rv dead_animals (d : list loc) w w' :
  (if 0 <? embryo_trials then
     rv <- or_raise (NameError "rv") last_rv ;;
     p <- or_raise KeyError (death_rate (edit_mode rv) edit_type) ;;
     outcomes <- bernoulli_rvs_size (1 - p) (Z.to_nat embryo_trials) ;;
     if negb (any_nonzero outcomes) then
       modify ed (set_alive "D") ;;
       modify ed (set_reason "G") ;;
       modify ed (set_died generation) ;;
       ret (dead_animals ++ [ed])
     else
       modify ed (set_et_count (EtInt (first_nonzero outcomes + 1))) ;;
       ret dead_animals
   else if embryo_trials <? 0 then
     transfer_until_success fuel ed last_rv edit_type 0 ;;
     ret dead_animals
   else ret dead_animals) w = Ok d w' ->
  only_writes ed w w'.
Proof.
  intros H. destruct (0 <? embryo_trials).
  - apply bind_Ok in H. destruct H as (rv & w1 & H1 & H).
    apply or_raise_Ok in H1. destruct H1 as [_ ->].
    apply bind_Ok in H. destruct H as (p & w1 & H1 & H).
    apply or_raise_Ok in H1. destruct H1 as [_ ->].
    apply bind_Ok in H. destruct H as (outcomes & w1 & H1 & H).
    apply bernoulli_rvs_size_heap, (only_writes_heap ed) in H1.
    eapply only_writes_trans; [exact H1|].
    destruct (negb (any_nonzero outcomes)).
    + repeat (apply bind_Ok in H; destruct H as (? & ? & ? & H)).
      repeat frame_step ed. minv. frame_chain.
    + repeat (apply bind_Ok in H; destruct H as (? & ? & ? & H)).
      repeat frame_step ed. minv. frame_chain.
  - destruct (embryo_trials <? 0); [|minv; apply only_writes_refl].
    apply bind_Ok in H. destruct H as (u & w2 & H2 & H).
    apply transfer_until_success_only_writes in H2. minv. assumption.
Qed.

(** One pass of the animal loop allocates exactly the clone, leaves every
    older object as it was and ends with the clone tagged 'G' and dated
    with the current generation. *)
Lemma edit_one_spec fuel recessives generation edit_type edit_trials
    embryo_trials i st st' w w' :
  edit_one fuel recessives generation edit_type edit_trials embryo_trials i
    st w = Ok st' w' ->
  length (heap w') = S (length (heap w)) /\
  (forall l, (l < length (heap w))%nat -> heap w' !! l = heap w !! l) /\
  exists a, heap w' !! length (heap w) = Some a /\
            reason a = "G" /\ died a = generation.
Proof.
  destruct st as [[animals dead_animals] next_id]. unfold edit_one.
  intros H.
  apply bind_Ok in H. destruct H as (orig & w1 & H1 & H).
  apply or_raise_Ok in H1. destruct H1 as [_ ->].
  apply bind_Ok in H. destruct H as (a & w1 & H1 & H).
  apply deref_Ok in H1. destruct H1 as [_ ->].
  apply bind_Ok in H. destruct H as (ed & w1 & H1 & H).
  apply alloc_Ok in H1. destruct H1 as [-> ->].
  set (ed := length (heap w)) in *.
  set (w1 := mkWorld (heap w ++ [a]) (draws w) (cursor w)) in *.
  apply bind_Ok in H. destruct H as (u1 & w2 & H1 & H).
  apply modify_only_writes in H1.
  apply bind_Ok in H. destruct H as (u2 & w3 & H2 & H).
  apply modify_only_writes in H2.
  apply bind_Ok in H. destruct H as (last_rv & w4 & H3 & H).
  apply edit_loci_only_writes in H3.
  apply bind_Ok in H. destruct H as (dead' & w5 & H4 & H).
  apply embryo_transfer_only_writes in H4.
  assert (F : only_writes ed w1 w5) by frame_chain.
  clear H1 H2 H3 H4.
  apply bind_Ok in H. destruct H as (u3 & w6 & H5 & H).
  apply bind_Ok in H. destruct H as (u4 & w7 & H6 & H).
  apply ret_Ok in H. destruct H as [_ ->].
  pose proof (modify_only_writes _ _ _ _ _ H5) as F5.
  pose proof (modify_only_writes _ _ _ _ _ H6) as F6.
  apply modify_lookup in H5. destruct H5 as (a5 & _ & L5).
  apply modify_lookup in H6. destruct H6 as (a6 & L6 & L7).
  assert (a6 = set_reason "G" a5) by congruence. subst a6.
  assert (F' : only_writes ed w1 w7) by frame_chain.
  destruct F' as [Flen Fframe]. subst w1. simpl in *.
  rewrite length_app in Flen. simpl in Flen.
  split; [lia|]. split.
  - intros l Hl. rewrite Fframe by (subst ed; lia).
    apply lookup_app_l. assumption.
  - eexists. split; [exact L7|]. split; reflexivity.
Qed.

Lemma get_next_id_pure cows bulls dead_cows dead_bulls extras n w w' :
  get_next_id cows bulls dead_cows dead_bulls extras w = Ok n w' -> w' = w.
Proof.
  unfold get_next_id. intros H. minv.
  match goal with H : map_m _ _ _ = Ok _ _ |- _ =>
    apply map_m_heap in H; [auto|intros ? ? ? ? ?; minv; reflexivity] end.
Qed.

Lemma edit_genes_spec fuel cows bulls dead_cows dead_bulls recessives
    generation edit_prop edit_type edit_trials embryo_trials edit_sex extras
    r w w' :
  edit_genes fuel cows bulls dead_cows dead_bulls recessives generation
    edit_prop edit_type edit_trials embryo_trials edit_sex extras w = Ok r w' ->
  clones_marked (heap w) generation w'.
Proof.
  unfold edit_genes. intros H.
  apply bind_Ok in H. destruct H as (u & w1 & H1 & H).
  assert (w1 = w).
  { destruct (_ || _) in H1; [discriminate|].
    apply ret_Ok in H1. tauto. }
  subst w1. clear H1.
  apply bind_Ok in H. destruct H as (nid & w1 & H1 & H).
  apply get_next_id_pure in H1. subst w1.
  apply bind_Ok in H. destruct H as (st & w1 & H1 & H).
  assert (Hloop : clones_marked (heap w) generation w1).
  { match type of H1 with (if ?c then _ else _) _ = _ => destruct c end.
    - apply bind_Ok in H1. destruct H1 as (sorted & w2 & H2 & H1).
      apply sort_on_pure in H2. subst w2.
      revert H1.
      apply (fold_m_inv (fun _ w1 => clones_marked (heap w) generation w1)).
      + intros i s w2 s' w2' _ (Hlen & Hold & Hnew) Hi.
        apply edit_one_spec in Hi. destruct Hi as (Hl & Hp & a & Ha & HG).
        split; [lia|]. split.
        * intros l Hlt. rewrite Hp by lia. auto.
        * intros l [Hlo Hhi]. rewrite Hl in Hhi.
          destruct (decide (l = length (heap w2))) as [->|Hne]; [eauto|].
          rewrite Hp by lia. apply Hnew. lia.
      + split; [lia|]. split; [auto|]. intros l Hl. lia.
    - apply ret_Ok in H1. destruct H1 as [_ ->].
      split; [lia|]. split; [auto|]. intros l Hl. lia. }
  destruct st as [[animals dead_animals] nid'].
  apply bind_Ok in H. destruct H as (sorted & w2 & H2 & H).
  apply sort_on_pure in H2. subst w2.
  assert (w' = w1).
  { destruct (String.eqb _ _) in H; apply ret_Ok in H; tauto. }
  subst w'. exact Hloop.
Qed.

(** C10. Every clone that a run of [edit_genes] creates ends with the
    gene-editing code 'G' as death reason and the current generation as
    death generation, whatever the outcome of its embryo transfer; in
    particular a clone whose transfer succeeds joins the live bulls alive
    ('A') and still carries 'G' and the generation in those fields. *)
Theorem edit_genes_tags_every_clone :
  (forall fuel cows bulls dead_cows dead_bulls recessives generation edit_prop
          edit_type edit_trials embryo_trials edit_sex extras r w w',
      edit_genes fuel cows bulls dead_cows dead_bulls recessives generation
        edit_prop edit_type edit_trials embryo_trials edit_sex extras w
      = Ok r w' ->
      forall l, (length (heap w) <= l < length (heap w'))%nat ->
        exists a, heap w' !! l = Some a /\ reason a = "G" /\ died a = generation)
  /\
  (exists w' a,
      edit_genes 1 [] [0%nat] [] [] one_lethal 7 1 "P" 1 1 "M" [] (lone_bull [0] [])
      = Ok ([], [0; 1]%nat, [], []) w'
      /\ heap w' !! 1%nat = Some a
      /\ alive a = "A" /\ reason a = "G" /\ died a = 7).
Proof.
  split.
  - intros until w'. intros H l Hl.
    apply edit_genes_spec in H. destruct H as (_ & _ & Hnew). auto.
  - eexists _, _. split; [vm_compute; reflexivity|].
    split; [vm_compute; reflexivity|]. repeat split.
Qed.

Lemma edit_genes_tags_every_clone_witness :
  exists w' a,
    edit_genes 1 [] [0%nat] [] [] one_lethal 7 1 "C" 1 1 "M" []
      (lone_bull [0] [0; 1 # 2]%Q)
    = Ok ([], [0; 1]%nat, [], [1%nat]) w'
    /\ heap w' !! 1%nat = Some a /\ reason a = "G" /\ died a = 7.
Proof.
  assert (Hrun : exists w',
             edit_genes 1 [] [0%nat] [] [] one_lethal 7 1 "C" 1 1 "M" []
               (lone_bull [0] [0; 1 # 2]%Q)
             = Ok ([], [0; 1]%nat, [], [1%nat]) w'
             /\ length (heap w') = 2%nat).
  { eexists. split; vm_compute; reflexivity. }
  destruct Hrun as (w' & Hrun & Hlen).
  destruct (proj1 edit_genes_tags_every_clone _ _ _ _ _ _ _ _ _ _ _ _ _ _ _ _
              Hrun 1%nat) as (a & Ha & HG & Hd).
  { rewrite Hlen. simpl. lia. }
  exists w', a. auto.
Defined.

(** ** The value matrix against the table of the specification *)

(** Outside the heterozygous x homozygous-minor combination without
    carrier penalty, the source subtracts the discount of the table. *)
Lemma locus_adjust_matches_table carrier_penalty b_gt c_gt v cell :
  genotype_code b_gt -> genotype_code c_gt ->
  carrier_penalty = true \/ ~ het_by_minor b_gt c_gt ->
  (locus_adjust carrier_penalty b_gt c_gt v cell
   == cell - spec_discount carrier_penalty b_gt c_gt v)%Q.
Proof.
  unfold genotype_code, het_by_minor.
  intros [->|[->| ->]] [->|[->| ->]] [->|Hn]; try destruct carrier_penalty;
    unfold locus_adjust, spec_discount; simpl; try ring;
    exfalso; apply Hn; auto.
Qed.

(** C1. With the recessive penalty on and the carrier penalty off, the
    cell of a heterozygous bull and a homozygous-minor cow is the parent
    average less the inbreeding discount and nothing else: the half of
    the locus value that the table asks for the affected calves is not
    subtracted (15/2 instead of 15/2 - 25 for TBVs 10 and 5, no
    inbreeding, locus value 50). *)
Theorem het_by_minor_cell_not_discounted :
  (forall v cell,
      locus_adjust false 0 (-1) v cell = cell /\
      locus_adjust false (-1) 0 v cell = cell /\
      (spec_discount false 0 (-1) v == (1 # 2) * v)%Q) /\
  (forall w,
      build_b_mat horned_only (inbr small_portfolios) 25 true false
        [founder 1 0 "M" 0 10 [0]] [founder 3 0 "F" 0 5 [-1]] w
      = Ok [[15 # 2]] w) /\
  ~ (15 # 2 == (1 # 2) * (10 + 5) - 0 * 100 * 25
               - spec_discount false 0 (-1) 50)%Q.
Proof.
  split; [|split].
  - intros v cell. repeat split.
  - intros w. vm_compute. reflexivity.
  - vm_compute. discriminate.
Qed.

(** ** Random mating *)

(** The mating loop of a cow never completes: its body ends by writing
    through the unbound name [cow]. *)
Lemma mate_until_mated_never_returns fuel recessives generation max_matings
    calf_loss dehorning_loss harvest_beef bulls matings c st w r w' :
  mate_until_mated fuel recessives generation max_matings calf_loss
    dehorning_loss harvest_beef bulls matings c st w <> Ok r w'.
Proof.
  destruct fuel as [|fuel]; simpl; [discriminate|].
  intros H. minv.
Qed.

(** C3. Random mating of two live cows to two live bulls with ample
    capacity stops with a [NameError] before any cow is looked at: the
    call of [get_next_id] that precedes the mating loop reads the name
    [args], which is bound nowhere.  No cow is mated, no calf is created
    and the run does not continue. *)
Theorem random_mating_raises_name_error :
  random_mating 5 ∅ [2; 3]%nat [0; 1]%nat [] [] 1 one_lethal 10 0 0 0 []
    (small_world [])
  = Raise (NameError "args").
Proof. vm_compute. reflexivity. Qed.

(** ** When the mating routines return *)

Lemma init_matings_pure bulls m w w' : init_matings bulls w = Ok m w' -> w' = w.
Proof. intros H. apply init_matings_spec in H. tauto. Qed.

(** The table of matings is set up for any bulls that are in the store. *)
Lemma init_matings_total bulls w :
  Forall (fun b => is_Some (heap w !! b)) bulls ->
  exists matings, init_matings bulls w = Ok matings w.
Proof.
  unfold init_matings. generalize (∅ : gmap Z Z).
  induction bulls as [|b bulls IH]; intros m Hall; simpl.
  - eexists. reflexivity.
  - apply Forall_cons in Hall. destruct Hall as [[a Ha] Hall].
    destruct (IH (<[animal a := 0]> m) Hall) as [m' Hm'].
    exists m'. eapply bind_Ok_intro; [|exact Hm'].
    eapply bind_Ok_intro; [unfold deref; rewrite Ha; reflexivity|reflexivity].
Qed.

(** Were [args] bound, the loop over the cows would still get past a cow
    only if she is not alive. *)
Lemma random_mating_loop fuel recessives generation max_matings calf_loss
    dehorning_loss harvest_beef bulls matings cows :
  forall st st' w w',
  fold_m (fun c st =>
            cow_r <- deref c ;;
            if String.eqb (alive cow_r) "A" then
              st' <- mate_until_mated fuel recessives generation max_matings
                       calf_loss dehorning_loss harvest_beef bulls matings c st ;;
              unbound_name "cow" ;;
              ret st'
            else ret st)
    cows st w = Ok st' w' ->
  w' = w /\ st' = st /\
  Forall (fun c => exists a, heap w !! c = Some a /\ alive a <> "A") cows.
Proof.
  induction cows as [|c cows IH]; simpl; intros st st' w w' H.
  - apply ret_Ok in H. destruct H as [-> ->]. auto.
  - apply bind_Ok in H. destruct H as (st1 & w1 & H1 & H).
    apply bind_Ok in H1. destruct H1 as (cow_r & w0 & Hd & H1).
    apply deref_Ok in Hd. destruct Hd as [Hc ->].
    destruct (String.eqb_spec (alive cow_r) "A") as [Ha|Ha].
    + apply bind_Ok in H1. destruct H1 as (st2 & w2 & Hm & _).
      exfalso. eapply mate_until_mated_never_returns. exact Hm.
    + apply ret_Ok in H1. destruct H1 as [-> ->].
      apply IH in H. destruct H as (-> & -> & Hall).
      repeat split. constructor; eauto.
Qed.

(** The closing call of [compute_inbreeding] never hands its lists back:
    its [return] statement reads the unbound local [matings]. *)
Lemma compute_inbreeding_unproxied_never_returns coi cows bulls dead_cows
    dead_bulls w r w' :
  compute_inbreeding_unproxied coi cows bulls dead_cows dead_bulls w
  <> Ok r w'.
Proof.
  unfold compute_inbreeding_unproxied. intros H. minv.
Qed.

(** With a live bull in the list it stops earlier, at the first bull of
    the pedigree loop. *)
Lemma compute_inbreeding_unproxied_first_bull coi cows b bulls dead_cows
    dead_bulls w :
  Forall (fun c => is_Some (heap w !! c)) (cows ++ dead_cows ++ [b]) ->
  compute_inbreeding_unproxied coi cows (b :: bulls) dead_cows dead_bulls w
  = Raise (UnboundLocalError "matings").
Proof.
  intros Hall. apply Forall_app in Hall. destruct Hall as [Hc Hall].
  apply Forall_app in Hall. destruct Hall as [Hdc Hb].
  apply Forall_cons in Hb. destruct Hb as [[a Ha] _].
  assert (Hread : forall ls,
             Forall (fun c => is_Some (heap w !! c)) ls ->
             for_each ls (fun c => deref c ;; ret tt) w = Ok tt w).
  { induction ls as [|l ls IH]; intros Hls; [reflexivity|].
    apply Forall_cons in Hls. destruct Hls as [[x Hx] Hls]. simpl.
    eapply bind_Ok_intro; [|exact (IH Hls)].
    eapply bind_Ok_intro; [unfold deref; rewrite Hx; reflexivity|reflexivity]. }
  unfold compute_inbreeding_unproxied.
  eapply bind_Ok_intro; [exact (Hread _ Hc)|].
  eapply bind_Ok_intro; [exact (Hread _ Hdc)|].
  simpl. unfold bind at 1 2 3. unfold deref at 1. rewrite Ha. reflexivity.
Qed.

(** ** Genetic transmission *)

(** C4. A calf that is homozygous-recessive at a lethal locus (both
    carrier parents transmit the minor allele) and survives the calfhood
    draw is returned with status 'A', an empty death reason and death
    generation -1; the death was written under the integer keys 6, 7
    and 8 of the record instead. *)
Theorem lethal_homozygote_returned_alive :
  exists calf w',
    create_new_calf (founder 1 0 "M" 0 10 [0]) (founder 3 0 "F" 0 5 [0])
      one_lethal 10 3 0 0 0
      (mkWorld [] (tape [3 # 4; 0; 1 # 4; 1 # 4; 1 # 2]%Q) 0)
    = Ok calf w'
    /\ genotypes calf = [-1] /\ born calf = 3
    /\ alive calf = "A" /\ reason calf = "" /\ died calf = -1
    /\ key6 calf = Some "D" /\ key7 calf = Some "R" /\ key8 calf = Some 3.
Proof.
  eexists _, _. split; [vm_compute; reflexivity|]. repeat split.
Qed.

(** C7. With two loci, a calf lost to calfhood mortality at the first
    locus is returned at once: its genotype vector has one entry and its
    edit-status and edit-count vectors have none. *)
Theorem early_return_leaves_short_vectors :
  exists calf w',
    create_new_calf (founder 1 0 "M" 0 10 [1; 1]) (founder 3 0 "F" 0 5 [1; 1])
      two_lethals 10 3 1 0 0
      (mkWorld [] (tape [3 # 4; 0; 1 # 2; 1 # 2]%Q) 0)
    = Ok calf w'
    /\ alive calf = "D" /\ reason calf = "C"
    /\ length two_lethals = 2%nat
    /\ genotypes calf = [1] /\ edit_status calf = [] /\ edit_count calf = [].
Proof.
  eexists _, _. split; [vm_compute; reflexivity|]. repeat split.
Qed.

(** ** What the transmission model does guarantee *)

(** An iteration that falls through appends one entry to each vector; an
    iteration that returns does so for calfhood or dehorning loss. *)
Lemma calf_locus_vectors sire_r dam_r recessives generation cl dl hb rk rv
    calf f w w' :
  calf_locus sire_r dam_r recessives generation cl dl hb rk rv calf w = Ok f w' ->
  match f with
  | Continue c =>
      length (genotypes c) = S (length (genotypes calf)) /\
      length (edit_status c) = S (length (edit_status calf)) /\
      length (edit_count c) = S (length (edit_count calf))
  | Return c => reason c = "C" \/ reason c = "H"
  end.
Proof.
  unfold calf_locus. intros H. minv; simpl; auto;
    repeat case_match; simpl; rewrite ?length_app; simpl; lia.
Qed.

Lemma calf_loci_vectors sire_r dam_r recessives generation cl dl hb items :
  forall calf c w w',
  calf_loci sire_r dam_r recessives generation cl dl hb items calf w = Ok c w' ->
  reason c <> "C" -> reason c <> "H" ->
  length (genotypes c) = (length (genotypes calf) + length items)%nat /\
  length (edit_status c) = (length (edit_status calf) + length items)%nat /\
  length (edit_count c) = (length (edit_count calf) + length items)%nat.
Proof.
  induction items as [|[rk rv] items IH]; simpl; intros calf c w w' H HC HH.
  - minv. lia.
  - apply bind_Ok in H. destruct H as (f & w1 & H1 & H).
    apply calf_locus_vectors in H1. destruct f as [c1|c1].
    + apply IH in H; [|assumption|assumption]. lia.
    + apply ret_Ok in H. destruct H as [-> _]. tauto.
Qed.

(** A calf that is returned for any reason other than calfhood ('C') or
    dehorning ('H') loss, in particular every calf returned alive, has
    one genotype, edit-status and edit-count entry per locus. *)
Lemma create_new_calf_vectors sire_r dam_r recessives calf_id generation cl dl
    hb c w w' :
  create_new_calf sire_r dam_r recessives calf_id generation cl dl hb w = Ok c w' ->
  reason c <> "C" -> reason c <> "H" ->
  length (genotypes c) = length recessives /\
  length (edit_status c) = length recessives /\
  length (edit_count c) = length recessives.
Proof.
  unfold create_new_calf. intros H HC HH.
  apply bind_Ok in H. destruct H as (coin & w1 & _ & H).
  apply bind_Ok in H. destruct H as (z & w2 & _ & H).
  apply calf_loci_vectors in H; [|assumption|assumption]. exact H.
Qed.

(** ** Gene editing *)

(** C5. A clone whose only embryo-transfer trial fails is marked dead
    with reason 'G' and appended to the dead bulls, and the same object
    is then appended to the live bulls as well; the original is
    untouched. *)
Theorem failed_transfer_clone_in_both_lists :
  exists w' clone,
    edit_genes 1 [] [0%nat] [] [] one_lethal 7 1 "C" 1 1 "M" []
      (lone_bull [0] [0; 1 # 2]%Q)
    = Ok ([], [0; 1]%nat, [], [1%nat]) w'
    /\ heap w' !! 0%nat = Some (founder 1 0 "M" 0 10 [0])
    /\ heap w' !! 1%nat = Some clone
    /\ alive clone = "D" /\ reason clone = "G" /\ died clone = 7.
Proof.
  eexists _, _. split; [vm_compute; reflexivity|].
  split; [vm_compute; reflexivity|].
  split; [vm_compute; reflexivity|]. repeat split.
Qed.

(** C6. With a bounded number of trials, the first successful edit
    leaves the loop over the loci: a clone that is a carrier at two
    flagged loci is edited at the first only, even with the tool that
    never fails.  With unlimited retries both loci are edited. *)
Theorem bounded_edit_stops_after_first_locus :
  (exists w' clone,
      edit_genes 1 [] [0%nat] [] [] two_lethals 7 1 "P" 1 1 "M" []
        (lone_bull [0; 0] [])
      = Ok ([], [0; 1]%nat, [], []) w'
      /\ heap w' !! 1%nat = Some clone
      /\ genotypes clone = [1; 0] /\ edit_status clone = [1; 0]
      /\ edit_count clone = [1; 0])
  /\
  (exists w' clone,
      edit_genes 1 [] [0%nat] [] [] two_lethals 7 1 "P" (-1) 1 "M" []
        (lone_bull [0; 0] [])
      = Ok ([], [0; 1]%nat, [], []) w'
      /\ heap w' !! 1%nat = Some clone
      /\ genotypes clone = [1; 1] /\ edit_status clone = [1; 1]
      /\ edit_count clone = [1; 1]).
Proof.
  split; eexists _, _; (split; [vm_compute; reflexivity|]);
    (split; [vm_compute; reflexivity|]); repeat split.
Qed.

(** ** What gene editing does guarantee *)

(** The objects that exist before [edit_genes] runs, the originals among
    them, are left as they were. *)
Lemma edit_genes_leaves_originals fuel cows bulls dead_cows dead_bulls
    recessives generation edit_prop edit_type edit_trials embryo_trials
    edit_sex extras r w w' :
  edit_genes fuel cows bulls dead_cows dead_bulls recessives generation
    edit_prop edit_type edit_trials embryo_trials edit_sex extras w = Ok r w' ->
  forall l, (l < length (heap w))%nat -> heap w' !! l = heap w !! l.
Proof.
  intros H. apply edit_genes_spec in H. destruct H as (_ & Hold & _).
  exact Hold.
Qed.

(** ** Culling *)

(** C8. With the maximum bull age configured as 1, the culling step of
    generation 2 keeps both bulls born in generation 0 alive: the call
    of [cull_bulls] passes no maximum age, so bulls are culled against
    the default of 3. *)
Theorem run_scenario_ignores_max_bull_age :
  exists cows' w' b,
    run_scenario_cull short_lived_bulls 2 [2; 3]%nat [0; 1]%nat [] []
      (small_world [])
    = Ok (cows', [0; 1]%nat, [], []) w'
    /\ heap w' !! 0%nat = Some b
    /\ alive b = "A"
    /\ cfg_max_bull_age short_lived_bulls < 2 - born b.
Proof.
  eexists _, _, _. split; [vm_compute; reflexivity|].
  split; [vm_compute; reflexivity|]. split; [reflexivity|]. vm_compute.
  reflexivity.
Qed.

(** ** The age cull *)

Lemma ages_kept_refl w : ages_kept w w.
Proof. intros l a H. eauto. Qed.

Lemma ages_kept_heap w w' : heap w' = heap w -> ages_kept w w'.
Proof. intros E l a H. rewrite E. eauto. Qed.

Lemma ages_kept_trans w1 w2 w3 :
  ages_kept w1 w2 -> ages_kept w2 w3 -> ages_kept w1 w3.
Proof.
  intros H12 H23 l a H. destruct (H12 l a H) as (a2 & H2 & Hb2 & Ha2).
  destruct (H23 l a2 H2) as (a3 & H3 & Hb3 & Ha3).
  exists a3. split; [assumption|]. split; [congruence|auto].
Qed.

Lemma modify_ages_kept l f u w w' :
  (forall a, born (f a) = born a) ->
  (forall a, alive a <> "A" -> alive (f a) <> "A") ->
  modify l f w = Ok u w' -> ages_kept w w'.
Proof.
  intros Hb Ha H. apply modify_Ok in H. destruct H as (a0 & H0 & ->).
  intros l' a Hl. simpl. destruct (decide (l' = l)) as [->|Hne].
  - rewrite list_lookup_insert_eq by (eapply lookup_lt_Some; eauto).
    assert (a = a0) by congruence. subst a0. eauto.
  - rewrite list_lookup_insert_ne by congruence. eauto.
Qed.

Lemma alloc_ages_kept a l w w' : alloc a w = Ok l w' -> ages_kept w w'.
Proof.
  intros H. apply alloc_Ok in H. destruct H as [_ ->].
  intros l' a' Hl. simpl. exists a'. split; [|auto].
  apply lookup_app_l_Some. assumption.
Qed.

Lemma mark_dead_spec code generation l u w w' :
  mark_dead code generation l w = Ok u w' ->
  ages_kept w w' /\
  exists a, heap w' !! l = Some a /\ alive a = "D" /\ reason a = code.
Proof.
  unfold mark_dead. intros H.
  apply bind_Ok in H. destruct H as (u1 & w1 & H1 & H).
  apply bind_Ok in H. destruct H as (u2 & w2 & H2 & H3).
  assert (K1 : ages_kept w w1).
  { eapply modify_ages_kept; [| |exact H1]; [reflexivity|].
    intros a _. simpl. discriminate. }
  assert (K2 : ages_kept w1 w2).
  { eapply modify_ages_kept; [| |exact H2]; [reflexivity|]. intros a Ha. exact Ha. }
  assert (K3 : ages_kept w2 w').
  { eapply modify_ages_kept; [| |exact H3]; [reflexivity|]. intros a Ha. exact Ha. }
  split; [eauto using ages_kept_trans|].
  apply modify_lookup in H1. destruct H1 as (a1 & _ & L1).
  apply modify_lookup in H2. destruct H2 as (a2 & L2 & L2').
  apply modify_lookup in H3. destruct H3 as (a3 & L3 & L3').
  assert (a2 = set_alive "D" a1) by congruence.
  assert (a3 = set_reason code a2) by congruence. subst.
  eexists. split; [exact L3'|]. split; reflexivity.
Qed.

Lemma old_are_dead_stable generation max_age animals w w' :
  ages_kept w w' ->
  old_are_dead generation max_age animals w ->
  old_are_dead generation max_age animals w'.
Proof.
  intros K H. unfold old_are_dead in *. eapply Forall_impl; [exact H|].
  simpl. intros l (a & Ha & Hold). destruct (K l a Ha) as (a' & Ha' & Hb & Hd).
  exists a'. split; [assumption|]. rewrite Hb. auto.
Qed.

Lemma within_age_stable generation max_age animals w w' :
  ages_kept w w' ->
  within_age generation max_age animals w ->
  within_age generation max_age animals w'.
Proof.
  intros K H. unfold within_age in *. eapply Forall_impl; [exact H|].
  simpl. intros l (a & Ha & Hold). destruct (K l a Ha) as (a' & Ha' & Hb & Hd).
  exists a'. split; [assumption|]. rewrite Hb. auto.
Qed.

Lemma within_age_subset generation max_age (kept animals : list loc) w :
  kept ⊆ animals ->
  within_age generation max_age animals w ->
  within_age generation max_age kept w.
Proof.
  unfold within_age. rewrite !Forall_forall. intros Hsub H l Hl. auto.
Qed.

(** After the age cull, whoever is too old is dead, and marked 'A'. *)
Lemma age_cull_spec generation max_age animals :
  forall dead dead' w w',
  age_cull generation max_age animals dead w = Ok dead' w' ->
  ages_kept w w' /\ old_are_dead generation max_age animals w'.
Proof.
  unfold age_cull, old_are_dead.
  induction animals as [|b animals IH]; simpl; intros dead dead' w w' H.
  - apply ret_Ok in H. destruct H as [_ ->].
    split; [apply ages_kept_refl|constructor].
  - apply bind_Ok in H. destruct H as (dead1 & w1 & H1 & H).
    apply IH in H. destruct H as [K Hall].
    apply bind_Ok in H1. destruct H1 as (a & w0 & Hd & H1).
    apply deref_Ok in Hd. destruct Hd as [Hb ->].
    assert (K1 : ages_kept w w1 /\
                 exists a1, heap w1 !! b = Some a1 /\
                   (max_age < generation - born a1 -> alive a1 <> "A")).
    { destruct (max_age <? generation - born a) eqn:E.
      - apply bind_Ok in H1. destruct H1 as (u & w2 & Hm & H1).
        apply ret_Ok in H1. destruct H1 as [_ ->].
        apply mark_dead_spec in Hm. destruct Hm as (Km & a1 & L1 & HD & _).
        split; [exact Km|]. exists a1. split; [exact L1|].
        intros _. rewrite HD. discriminate.
      - apply ret_Ok in H1. destruct H1 as [_ ->].
        split; [apply ages_kept_refl|]. exists a. split; [exact Hb|].
        apply Z.ltb_ge in E. lia. }
    destruct K1 as (K1 & a1 & L1 & Hold).
    split; [eauto using ages_kept_trans|]. constructor; [|exact Hall].
    destruct (K b a1 L1) as (a' & La' & Hb' & Hd').
    exists a'. split; [exact La'|]. rewrite Hb'. auto.
Qed.

Lemma keep_alive_spec animals kept w w' :
  keep_alive animals w = Ok kept w' ->
  w' = w /\ kept ⊆ animals /\ all_alive kept w.
Proof.
  unfold keep_alive.
  apply (fold_m_inv (fun (kept : list loc) w0 =>
                       w0 = w /\ kept ⊆ animals /\ all_alive kept w)).
  - intros b kept0 w0 kept1 w1 Hin (-> & Hsub & Hall) Hb.
    apply bind_Ok in Hb. destruct Hb as (a & w2 & Hd & Hb).
    apply deref_Ok in Hd. destruct Hd as [La ->].
    apply ret_Ok in Hb. destruct Hb as [-> ->].
    split; [reflexivity|].
    destruct (String.eqb_spec (alive a) "A") as [Ha|Ha]; [|auto].
    split.
    + intros x Hx. apply elem_of_app in Hx. destruct Hx as [Hx|Hx]; [auto|].
      apply list_elem_of_singleton in Hx. subst x. exact Hin.
    + apply Forall_app. split; [exact Hall|]. repeat constructor. eauto.
  - split; [reflexivity|]. split; [intros x Hx; inversion Hx|constructor].
Qed.

(** Whoever survives the filter after the age cull is within the age. *)
Lemma survivors_within_age generation max_age (kept animals : list loc) w :
  kept ⊆ animals ->
  old_are_dead generation max_age animals w ->
  all_alive kept w ->
  within_age generation max_age kept w.
Proof.
  unfold old_are_dead, all_alive, within_age. rewrite !Forall_forall.
  intros Hsub Hold Halive l Hl.
  destruct (Halive l Hl) as (a & La & Ha).
  destruct (Hold l (Hsub l Hl)) as (a' & La' & Hd).
  assert (a' = a) by congruence. subst a'.
  exists a. split; [exact La|].
  destruct (Z.le_gt_cases (generation - born a) max_age) as [|Hgt]; [assumption|].
  exfalso. apply Hd; [lia|exact Ha].
Qed.

(** ** Sorting and shuffling permute *)

Lemma insert_sorted_elem {K A} (leb : K -> K -> bool) (x y : K * A) l :
  y ∈ insert_sorted leb x l -> y = x \/ y ∈ l.
Proof.
  induction l as [|z l IH]; simpl.
  - intros H. apply list_elem_of_singleton in H. auto.
  - destruct (leb (fst x) (fst z)).
    + intros H. apply elem_of_cons in H. tauto.
    + intros H. apply elem_of_cons in H. destruct H as [->|H].
      * right. left.
      * apply IH in H. destruct H; [auto|]. right. by right.
Qed.

Lemma sort_pairs_elem {K A} (leb : K -> K -> bool) (y : K * A) l :
  y ∈ sort_pairs leb l -> y ∈ l.
Proof.
  unfold sort_pairs. induction l as [|x l IH]; simpl; [auto|].
  intros H. apply insert_sorted_elem in H. destruct H as [->|H].
  - left.
  - right. auto.
Qed.

Lemma keyed_snd {K} (key : animal_record -> K) l :
  forall keyed w w',
  map_m (fun x => a <- deref x ;; ret (key a, x)) l w = Ok keyed w' ->
  snd <$> keyed = l.
Proof.
  induction l as [|x l IH]; simpl; intros keyed w w' H.
  - apply ret_Ok in H. destruct H as [-> _]. reflexivity.
  - apply bind_Ok in H. destruct H as (y & w1 & H1 & H).
    apply bind_Ok in H. destruct H as (ys & w2 & H2 & H).
    apply ret_Ok in H. destruct H as [-> _].
    apply IH in H2. apply bind_Ok in H1. destruct H1 as (a & w3 & _ & H1).
    apply ret_Ok in H1. destruct H1 as [-> _].
    rewrite fmap_cons. simpl. f_equal. exact H2.
Qed.

Lemma sort_on_subset {K} (key : animal_record -> K) leb l l' w w' :
  sort_on key leb l w = Ok l' w' -> w' = w /\ l' ⊆ l.
Proof.
  intros H. split; [eapply sort_on_pure; eauto|].
  unfold sort_on in H. apply bind_Ok in H. destruct H as (keyed & w1 & H1 & H).
  apply ret_Ok in H. destruct H as [-> _]. apply keyed_snd in H1.
  intros x Hx. apply list_elem_of_fmap in Hx. destruct Hx as (y & -> & Hy).
  apply sort_pairs_elem in Hy. rewrite <- H1.
  apply list_elem_of_fmap. eauto.
Qed.

Lemma swap_subset {A} i j (l : list A) : swap i j l ⊆ l.
Proof.
  unfold swap. destruct (l !! i) as [xi|] eqn:Ei; [|done].
  destruct (l !! j) as [xj|] eqn:Ej; [|done].
  intros x Hx. apply list_elem_of_lookup in Hx. destruct Hx as [k Hk].
  apply list_lookup_insert_Some in Hk.
  destruct Hk as [(_ & -> & _)|(_ & Hk)].
  - eapply list_elem_of_lookup_2; eauto.
  - apply list_lookup_insert_Some in Hk.
    destruct Hk as [(_ & -> & _)|(_ & Hk)];
      eapply list_elem_of_lookup_2; eauto.
Qed.

Lemma random_shuffle_spec {A} (l l' : list A) w w' :
  random_shuffle l w = Ok l' w' -> heap w' = heap w /\ l' ⊆ l.
Proof.
  unfold random_shuffle.
  apply (fold_m_inv (fun (l0 : list A) w0 => heap w0 = heap w /\ l0 ⊆ l)).
  - intros i l0 w0 l1 w1 _ [Hh Hsub] H.
    apply bind_Ok in H. destruct H as (u & w2 & Hu & H).
    apply random_uniform01_heap in Hu.
    apply ret_Ok in H. destruct H as [-> ->].
    split; [congruence|]. etrans; [apply swap_subset|exact Hsub].
  - split; [reflexivity|done].
Qed.

(** ** The culling routines keep the live lists within the age *)

Lemma fold_m_ages_kept {A S} (body : A -> S -> M S) xs :
  (forall x s w s' w', body x s w = Ok s' w' -> ages_kept w w') ->
  forall s w s' w', fold_m body xs s w = Ok s' w' -> ages_kept w w'.
Proof.
  intros Hb. induction xs as [|x xs IH]; simpl; intros s w s' w' H.
  - apply ret_Ok in H. destruct H as [_ ->]. apply ages_kept_refl.
  - apply bind_Ok in H. destruct H as (s1 & w1 & H1 & H).
    eapply ages_kept_trans; eauto.
Qed.

Lemma mark_and_append_ages_kept code generation xs :
  forall dead dead' w w',
  fold_m (fun b dead => mark_dead code generation b ;; ret (dead ++ [b]))
    xs dead w = Ok dead' w' ->
  ages_kept w w'.
Proof.
  intros dead dead' w w' Hrun.
  eapply fold_m_ages_kept; [|exact Hrun].
  intros b s w0 s' w0' H. simpl in H.
  apply bind_Ok in H. destruct H as (u & w1 & H1 & H).
  apply ret_Ok in H. destruct H as [_ ->].
  apply mark_dead_spec in H1. tauto.
Qed.

(** After [cull_bulls] no bull of the returned live list is older than
    the [max_bull_age] that the routine was given. *)
Lemma cull_bulls_within_age bulls dead_bulls generation max_bulls max_bull_age
    bulls' dead_bulls' w w' :
  cull_bulls bulls dead_bulls generation max_bulls max_bull_age w
  = Ok (bulls', dead_bulls') w' ->
  ages_kept w w' /\ within_age generation max_bull_age bulls' w'.
Proof.
  unfold cull_bulls. intros H.
  apply bind_Ok in H. destruct H as (dead1 & w1 & H1 & H).
  apply age_cull_spec in H1. destruct H1 as [K1 Hold].
  apply bind_Ok in H. destruct H as (kept & w2 & H2 & H).
  apply keep_alive_spec in H2. destruct H2 as (-> & Hsub & Halive).
  pose proof (survivors_within_age _ _ _ _ _ Hsub Hold Halive) as Hin.
  match type of H with (if ?c then _ else _) _ = _ => destruct c end.
  - apply ret_Ok in H. destruct H as [E ->]. injection E as E1 E2; subst. auto.
  - apply bind_Ok in H. destruct H as (sorted & w2 & H2 & H).
    apply sort_on_subset in H2. destruct H2 as [-> Hsorted].
    apply bind_Ok in H. destruct H as (dead2 & w2 & H2 & H).
    apply mark_and_append_ages_kept in H2.
    apply ret_Ok in H. destruct H as [E ->]. injection E as E1 E2; subst.
    split; [eauto using ages_kept_trans|].
    eapply within_age_stable; [exact H2|].
    eapply within_age_subset; [|exact Hin].
    etrans; [apply subseteq_drop|exact Hsorted].
Qed.

Lemma member_of_pure c lst b w w' : member_of c lst w = Ok b w' -> w' = w.
Proof.
  unfold member_of. intros H.
  apply bind_Ok in H. destruct H as (a & w1 & H1 & H).
  apply deref_Ok in H1. destruct H1 as [_ ->].
  revert H. apply fold_m_pure. intros l found w0 s' w0' H.
  destruct found; [apply ret_Ok in H; tauto|].
  destruct (Nat.eqb l c); [apply ret_Ok in H; tauto|].
  apply bind_Ok in H. destruct H as (a' & w2 & H2 & H).
  apply deref_Ok in H2. destruct H2 as [_ ->]. apply ret_Ok in H. tauto.
Qed.

(** Marking a cow dead and filing a copy of her record. *)
Lemma mark_and_copy_ages_kept code generation c (dead dead' : list loc) w w' :
  (mark_dead code generation c ;;
   a <- deref c ;;
   cp <- alloc a ;;
   ret (dead ++ [cp])) w = Ok dead' w' ->
  ages_kept w w'.
Proof.
  intros H.
  apply bind_Ok in H. destruct H as (u & w1 & H1 & H).
  apply mark_dead_spec in H1. destruct H1 as [K1 _].
  apply bind_Ok in H. destruct H as (a & w2 & H2 & H).
  apply deref_Ok in H2. destruct H2 as [_ ->].
  apply bind_Ok in H. destruct H as (cp & w2 & H2 & H).
  apply alloc_ages_kept in H2.
  apply ret_Ok in H. destruct H as [_ ->].
  eauto using ages_kept_trans.
Qed.

Lemma trim_herds_ages_kept generation base_herds max_herd_size cows dead_cows
    dead_cows' w w' :
  trim_herds generation base_herds max_herd_size cows dead_cows w
  = Ok dead_cows' w' ->
  ages_kept w w'.
Proof.
  unfold trim_herds. intros Hrun.
  eapply fold_m_ages_kept; [|exact Hrun].
  intros h s w0 s' w0' H. simpl in H.
  apply bind_Ok in H. destruct H as (recs & w1 & H1 & H).
  apply map_m_heap in H1.
  2:{ intros x y w2 w2' Hx. apply bind_Ok in Hx.
      destruct Hx as (a & w3 & Hd & Hx). apply deref_Ok in Hd.
      destruct Hd as [_ ->]. apply ret_Ok in Hx. tauto. }
  subst w1.
  match type of H with (if ?c then _ else _) _ = _ => destruct c end.
  - eapply fold_m_ages_kept; [|exact H].
    clear H. intros c s0 w2 s1 w2' H. simpl in H.
    apply bind_Ok in H. destruct H as (hit & w3 & Hm & H).
    apply member_of_pure in Hm. subst w3.
    destruct hit.
    + eapply mark_and_copy_ages_kept; eauto.
    + apply ret_Ok in H. destruct H as [_ ->]. apply ages_kept_refl.
  - apply ret_Ok in H. destruct H as [_ ->]. apply ages_kept_refl.
Qed.

(** After [cull_cows] no cow of the returned live list is older than
    [max_cow_age]. *)
Lemma cull_cows_within_age cows dead_cows generation base_herds max_cows
    max_cow_age culling_rate cows' dead_cows' w w' :
  cull_cows cows dead_cows generation base_herds max_cows max_cow_age
    culling_rate w = Ok (cows', dead_cows') w' ->
  ages_kept w w' /\ within_age generation max_cow_age cows' w'.
Proof.
  unfold cull_cows. intros H.
  apply bind_Ok in H. destruct H as (dead1 & w1 & H1 & H).
  apply age_cull_spec in H1. destruct H1 as [K1 Hold].
  apply bind_Ok in H. destruct H as (kept1 & w2 & H2 & H).
  apply keep_alive_spec in H2. destruct H2 as (-> & Hsub1 & _).
  apply bind_Ok in H. destruct H as (dead2 & w2 & H2 & H).
  assert (K2 : ages_kept w1 w2).
  { match type of H2 with (if ?c then _ else _) _ = _ => destruct c end.
    - eapply fold_m_ages_kept; [|exact H2].
      intros c s w0 s' w0' Hc. simpl in Hc.
      apply bind_Ok in Hc. destruct Hc as (u & w3 & Hu & Hc).
      apply random_uniform01_heap, ages_kept_heap in Hu.
      eapply ages_kept_trans; [exact Hu|].
      match type of Hc with (if ?c then _ else _) _ = _ => destruct c end.
      + eapply mark_and_copy_ages_kept; eauto.
      + apply ret_Ok in Hc. destruct Hc as [_ ->]. apply ages_kept_refl.
    - apply ret_Ok in H2. destruct H2 as [_ ->]. apply ages_kept_refl. }
  clear H2.
  apply bind_Ok in H. destruct H as (kept2 & w3 & H3 & H).
  apply keep_alive_spec in H3. destruct H3 as (-> & Hsub2 & Halive2).
  assert (Hin2 : within_age generation max_cow_age kept2 w2).
  { eapply survivors_within_age; [|eapply old_are_dead_stable; eauto|eauto].
    etrans; eauto. }
  apply bind_Ok in H. destruct H as (shuffled & w3 & H3 & H).
  apply random_shuffle_spec in H3. destruct H3 as [Hh3 Hsub3].
  assert (K3 : ages_kept w w3)
    by eauto using ages_kept_trans, ages_kept_heap.
  assert (Hin3 : within_age generation max_cow_age shuffled w3).
  { eapply within_age_stable; [apply ages_kept_heap; exact Hh3|].
    eapply within_age_subset; eauto. }
  clear Hin2 K1 K2 Hold.
  match type of H with (if ?c then _ else _) _ = _ => destruct c end.
  - apply ret_Ok in H. destruct H as [E ->]. injection E as E1 E2; subst. auto.
  - apply bind_Ok in H. destruct H as (u & w4 & H4 & H).
    assert (w4 = w3).
    { match type of H4 with (if ?c then _ else _) _ = _ => destruct c end;
        [discriminate|]. apply ret_Ok in H4. tauto. }
    subst w4. clear H4.
    apply bind_Ok in H. destruct H as (dead3 & w4 & H4 & H).
    apply trim_herds_ages_kept in H4.
    apply bind_Ok in H. destruct H as (kept3 & w5 & H5 & H).
    apply keep_alive_spec in H5. destruct H5 as (-> & Hsub5 & _).
    apply ret_Ok in H. destruct H as [E ->]. injection E as E1 E2; subst.
    split; [eauto using ages_kept_trans|].
    eapply within_age_subset; [exact Hsub5|].
    eapply within_age_stable; eauto.
Qed.

(** The culling step of the generation loop leaves the live cows within
    the configured maximum cow age, and the live bulls within the default
    of [cull_bulls], whatever maximum bull age is configured. *)
Lemma run_scenario_cull_within_age cfg generation cows bulls dead_cows
    dead_bulls cows' bulls' dead_cows' dead_bulls' w w' :
  run_scenario_cull cfg generation cows bulls dead_cows dead_bulls w
  = Ok (cows', bulls', dead_cows', dead_bulls') w' ->
  within_age generation cull_bulls_default_max_bull_age bulls' w' /\
  within_age generation (cfg_max_cow_age cfg) cows' w'.
Proof.
  unfold run_scenario_cull. intros H.
  apply bind_Ok in H. destruct H as ([bs ds] & w1 & H1 & H).
  apply cull_bulls_within_age in H1. destruct H1 as [K1 Hb].
  apply bind_Ok in H. destruct H as ([cs dcs] & w2 & H2 & H).
  apply cull_cows_within_age in H2. destruct H2 as [K2 Hc].
  apply ret_Ok in H. destruct H as [E ->]. simpl in E. injection E as E1 E2 E3 E4; subst.
  split; [|exact Hc]. eapply within_age_stable; eauto.
Qed.

(** ** Allele counting *)

Lemma fold_m_app {A S} (body : A -> S -> M S) xs ys s w :
  fold_m body (xs ++ ys) s w
  = (s' <- fold_m body xs s ;; fold_m body ys s') w.
Proof.
  revert s w. induction xs as [|x xs IH]; intros s w; simpl.
  - reflexivity.
  - unfold bind in *. destruct (body x s w); auto.
Qed.

Lemma copies_in_app xs ys r :
  copies_in (xs ++ ys) r = copies_in xs r + copies_in ys r.
Proof. induction xs as [|x xs IH]; simpl; lia. Qed.

Lemma copies_in_counts recs r :
  copies_in recs r = minor_allele_copies r recs.
Proof.
  unfold minor_allele_copies, count_genotype.
  induction recs as [|a recs IH]; [reflexivity|].
  simpl copies_in. rewrite IH. rewrite !filter_cons. unfold copies_of.
  destruct (genotypes a !! r) as [g|] eqn:E.
  - destruct (Z.eqb_spec g 0) as [H0|H0];
      destruct (Z.eqb_spec g (-1)) as [H1|H1]; try lia; subst;
      repeat case_decide; try congruence; simpl length; lia.
  - repeat case_decide; try congruence. lia.
Qed.

(** The inner loop over the loci, for the first [k] of them. *)
Lemma count_loci_ok a w k :
  forall counts,
  (k <= length counts)%nat -> (k <= length (genotypes a))%nat ->
  exists res,
    fold_m (fun r counts =>
              g <- or_raise IndexError (genotypes a !! r) ;;
              n <- or_raise IndexError (counts !! r) ;;
              let n := if g =? 0 then n + 1 else n in
              g <- or_raise IndexError (genotypes a !! r) ;;
              let n := if g =? -1 then n + 2 else n in
              ret (<[r := n]> counts))
      (seq 0 k) counts w = Ok res w
    /\ length res = length counts
    /\ forall r c, counts !! r = Some c ->
         res !! r = Some (if decide (r < k)%nat then c + copies_of a r else c).
Proof.
  induction k as [|k IH]; intros counts Hc Hg.
  - exists counts. split; [reflexivity|]. split; [reflexivity|].
    intros r c Hr. rewrite decide_False by lia. assumption.
  - destruct (IH counts) as (res & Hrun & Hlen & Hres); [lia|lia|].
    destruct (lookup_lt_is_Some_2 (genotypes a) k) as [g Eg]; [lia|].
    destruct (lookup_lt_is_Some_2 counts k) as [c Ec]; [lia|].
    pose proof (Hres k c Ec) as Ek. rewrite decide_False in Ek by lia.
    exists (<[k := if g =? -1 then (if g =? 0 then c + 1 else c) + 2
                   else (if g =? 0 then c + 1 else c)]> res).
    split; [|split].
    + rewrite seq_S, fold_m_app. eapply bind_Ok_intro; [exact Hrun|].
      simpl. unfold bind, or_raise, ret. rewrite Eg, Ek. reflexivity.
    + rewrite length_insert. assumption.
    + intros r c' Hr. destruct (decide (r = k)) as [->|Hne].
      * rewrite list_lookup_insert_eq by lia.
        rewrite decide_True by lia. unfold copies_of. rewrite Eg.
        assert (c' = c) by congruence. subst c'. f_equal.
        destruct (g =? 0), (g =? -1); lia.
      * rewrite list_lookup_insert_ne by congruence.
        rewrite (Hres r c' Hr).
        destruct (decide (r < k)%nat), (decide (r < S k)%nat);
          try reflexivity; lia.
Qed.

Lemma count_animal_ok n a counts w :
  length counts = n -> (n <= length (genotypes a))%nat ->
  exists res,
    count_animal n a counts w = Ok res w
    /\ length res = n
    /\ forall r c, counts !! r = Some c -> res !! r = Some (c + copies_of a r).
Proof.
  intros Hc Hg. unfold count_animal.
  destruct (count_loci_ok a w n counts) as (res & Hrun & Hlen & Hres);
    [lia|lia|].
  exists res. split; [exact Hrun|]. split; [congruence|].
  intros r c Hr. rewrite (Hres r c Hr).
  rewrite decide_True; [reflexivity|].
  apply lookup_lt_Some in Hr. lia.
Qed.

(** The loop over a list of animals. *)
Lemma count_animals_ok n w ls recs :
  records_of w ls recs ->
  Forall (fun a => (n <= length (genotypes a))%nat) recs ->
  forall counts, length counts = n ->
  exists res,
    fold_m (fun b counts => a <- deref b ;; count_animal n a counts)
      ls counts w = Ok res w
    /\ length res = n
    /\ forall r c, counts !! r = Some c ->
         res !! r = Some (c + copies_in recs r).
Proof.
  induction 1 as [|l a ls recs Hl _ IH]; intros Hall counts Hc.
  - exists counts. simpl. repeat split; [assumption|].
    intros r c Hr. rewrite Hr. f_equal. lia.
  - apply Forall_cons in Hall. destruct Hall as [Ha Hall].
    destruct (count_animal_ok n a counts w Hc Ha) as (res1 & Hrun1 & Hlen1 & Hres1).
    destruct (IH Hall res1 Hlen1) as (res & Hrun & Hlen & Hres).
    exists res. split; [|split; [exact Hlen|]].
    { simpl. eapply bind_Ok_intro; [|exact Hrun].
      eapply bind_Ok_intro; [|exact Hrun1].
      unfold deref. rewrite Hl. reflexivity. }
    intros r c Hr. rewrite (Hres r _ (Hres1 r c Hr)). f_equal. simpl. lia.
Qed.

(** ** The frequency loop *)

Lemma index_of_string_fresh rk (pre post : list string) :
  rk ∉ pre ->
  index_of String.eqb rk (pre ++ rk :: post) = Some (length pre).
Proof.
  induction pre as [|k pre IH]; intros Hnot; simpl.
  - rewrite String.eqb_refl. reflexivity.
  - apply not_elem_of_cons in Hnot. destruct Hnot as [Hne Hnot].
    destruct (String.eqb_spec k rk) as [->|_]; [congruence|].
    rewrite IH by assumption. reflexivity.
Qed.

Lemma store_frequency_fresh rk v rv (pre post : recessives_t) :
  rk ∉ keys pre ->
  store_frequency rk v (pre ++ (rk, rv) :: post)
  = pre ++ (rk, set_frequency v rv) :: post.
Proof.
  induction pre as [|[k rv'] pre IH]; intros Hnot; simpl.
  - rewrite String.eqb_refl. reflexivity.
  - unfold keys in Hnot. simpl in Hnot.
    apply not_elem_of_cons in Hnot. destruct Hnot as [Hne Hnot].
    destruct (String.eqb_spec k rk) as [->|_]; [congruence|].
    rewrite IH by assumption. reflexivity.
Qed.

Lemma keys_with_frequencies f recessives :
  keys (with_frequencies f recessives) = keys recessives.
Proof.
  unfold keys, with_frequencies. rewrite fmap_imap.
  revert f. induction recessives as [|x xs IH]; intros f; [reflexivity|].
  simpl. f_equal. apply (IH (fun r => f (S r))).
Qed.

Lemma with_frequencies_snoc f pre rk rv :
  with_frequencies f (pre ++ [(rk, rv)])
  = with_frequencies f pre ++ [(rk, set_frequency (f (length pre)) rv)].
Proof.
  unfold with_frequencies. rewrite imap_app. simpl.
  rewrite Nat.add_0_r. reflexivity.
Qed.

Section FrequencyLoop.

Variables (recessives : recessives_t) (counts : list Z) (total generation : Z)
          (freq_hist : gmap Z (list Q)) (f : nat -> Q) (w : world).

Hypothesis keys_distinct : NoDup (keys recessives).
Hypothesis total_nonzero : total <> 0.
Hypothesis counted : forall r, (r < length recessives)%nat ->
  exists n, counts !! r = Some n /\ f r = (inject_Z n / inject_Z total)%Q.
Hypothesis not_fixed : forall r rk rv,
  recessives !! r = Some (rk, rv) -> lethal rv = 1 ->
  Qeq_bool ((1 - f r) * (1 - f r) + 2 * f r * (1 - f r)) 0 = false.

Let body :=
  fun (item : string * recessive) (st : recessives_t * gmap Z (list Q)) =>
    let '(recs, hist) := st in
    r <- or_raise ValueError
           (index_of String.eqb (fst item) (keys recessives)) ;;
    n <- or_raise IndexError (counts !! r) ;;
    (if total =? 0 then raise ZeroDivisionError else ret tt) ;;
    let r_freq := (inject_Z n / inject_Z total)%Q in
    (if lethal (snd item) =? 1 then
       let denom :=
         ((1 - r_freq) * (1 - r_freq) + 2 * r_freq * (1 - r_freq))%Q in
       if Qeq_bool denom 0 then raise ZeroDivisionError else ret tt
     else ret tt) ;;
    entry <- or_raise KeyError (hist !! generation) ;;
    ret (store_frequency (fst item) r_freq recs,
         <[generation := entry ++ [r_freq]]> hist).

Lemma frequency_loop_ok items :
  forall pre, recessives = pre ++ items ->
  fold_m body items
    (with_frequencies f pre ++ items,
     <[generation := f <$> seq 0 (length pre)]> freq_hist) w
  = Ok (with_frequencies f recessives,
        <[generation := f <$> seq 0 (length recessives)]> freq_hist) w.
Proof.
  induction items as [|[rk rv] items IH]; intros pre Hsplit.
  - rewrite app_nil_r in Hsplit. subst pre. simpl. rewrite app_nil_r.
    reflexivity.
  - assert (Hfresh : rk ∉ keys pre).
    { pose proof keys_distinct as Hnd. rewrite Hsplit in Hnd.
      unfold keys in Hnd. rewrite fmap_app in Hnd. simpl in Hnd.
      apply NoDup_app in Hnd. destruct Hnd as (_ & Hdisj & _).
      intros Hin. apply (Hdisj rk Hin). left. }
    assert (Hidx : index_of String.eqb rk (keys recessives)
                   = Some (length pre)).
    { rewrite Hsplit. unfold keys. rewrite fmap_app. simpl.
      rewrite index_of_string_fresh by exact Hfresh.
      rewrite length_fmap. reflexivity. }
    assert (Hlt : (length pre < length recessives)%nat).
    { rewrite Hsplit, length_app. simpl. lia. }
    destruct (counted _ Hlt) as (n & Hn & Hf).
    assert (Hitem : recessives !! length pre = Some (rk, rv)).
    { rewrite Hsplit. apply list_lookup_middle. reflexivity. }
    simpl fold_m. eapply bind_Ok_intro; [|apply (IH (pre ++ [(rk, rv)]))].
    + unfold body. simpl fst. simpl snd.
      eapply bind_Ok_intro; [rewrite Hidx; reflexivity|].
      eapply bind_Ok_intro; [rewrite Hn; reflexivity|].
      eapply bind_Ok_intro.
      { destruct (Z.eqb_spec total 0); [contradiction|reflexivity]. }
      rewrite <- Hf.
      eapply bind_Ok_intro.
      { destruct (Z.eqb_spec (lethal rv) 1) as [Hl|_]; [|reflexivity].
        rewrite (not_fixed _ _ _ Hitem Hl). reflexivity. }
      eapply bind_Ok_intro; [rewrite lookup_insert_eq; reflexivity|].
      unfold ret. f_equal. f_equal.
      * rewrite store_frequency_fresh
          by (rewrite keys_with_frequencies; exact Hfresh).
        rewrite with_frequencies_snoc, <- app_assoc. reflexivity.
      * rewrite insert_insert_eq, length_app. simpl.
        rewrite Nat.add_1_r, seq_S, fmap_app. reflexivity.
    + rewrite Hsplit, <- app_assoc. reflexivity.
Qed.

End FrequencyLoop.

Lemma count_genotype_bounds g r recs :
  0 <= count_genotype g r recs <= Z.of_nat (length recs).
Proof.
  unfold count_genotype. split; [lia|].
  apply inj_le. apply length_filter.
Qed.

Lemma count_genotype_disjoint r recs :
  count_genotype 0 r recs + count_genotype (-1) r recs
  <= Z.of_nat (length recs).
Proof.
  unfold count_genotype. induction recs as [|a recs IH]; [simpl; lia|].
  rewrite !filter_cons. repeat case_decide; simpl length; try lia.
  congruence.
Qed.

(** A frequency [n/t] with [0 <= n < t] does not annul the normaliser
    of the genotype frequencies of a lethal. *)
Lemma lethal_denominator_nonzero n t :
  0 <= n -> 0 < t -> n <> t ->
  let q := (inject_Z n / inject_Z t)%Q in
  Qeq_bool ((1 - q) * (1 - q) + 2 * q * (1 - q)) 0 = false.
Proof.
  intros Hn Ht Hne q.
  destruct (Qeq_bool _ 0) eqn:E; [|reflexivity]. exfalso.
  apply Qeq_bool_iff in E.
  assert (Ht' : ~ (inject_Z t == 0)%Q).
  { intros H. change 0%Q with (inject_Z 0) in H.
    apply (proj1 (inject_Z_injective _ _)) in H. lia. }
  assert (Hq : (q * inject_Z t == inject_Z n)%Q).
  { subst q. field. exact Ht'. }
  assert (Hprod : ((inject_Z t - inject_Z n) * (inject_Z t + inject_Z n) == 0)%Q).
  { rewrite <- Hq.
    transitivity (inject_Z t * inject_Z t
                  * ((1 - q) * (1 - q) + 2 * q * (1 - q)))%Q; [ring|].
    rewrite E. ring. }
  apply Qmult_integral in Hprod. destruct Hprod as [H|H].
  - unfold Qminus in H. rewrite <- inject_Z_opp, <- inject_Z_plus in H.
    change 0%Q with (inject_Z 0) in H. apply (proj1 (inject_Z_injective _ _)) in H. lia.
  - rewrite <- inject_Z_plus in H.
    change 0%Q with (inject_Z 0) in H. apply (proj1 (inject_Z_injective _ _)) in H. lia.
Qed.

Lemma with_frequencies_lookup f recessives r rk rv :
  recessives !! r = Some (rk, rv) ->
  with_frequencies f recessives !! r = Some (rk, set_frequency (f r) rv).
Proof.
  intros H. unfold with_frequencies. rewrite list_lookup_imap, H. reflexivity.
Qed.

(** For a non-empty live population whose genotype vectors cover every
    locus, and in which no lethal locus has the minor allele fixed,
    [update_maf] returns normally; the frequency it stores for every
    locus is (heterozygotes + 2 x homozygous-minor animals) / (2 x live
    animals), counted over the live bulls and cows, the other fields of
    the locus are kept, and the vector of these frequencies in locus
    order becomes the entry of the generation in the frequency history. *)
Lemma update_maf_counts_minor_alleles cows bulls generation recessives
    freq_hist w cow_recs bull_recs :
  NoDup (keys recessives) ->
  records_of w bulls bull_recs ->
  records_of w cows cow_recs ->
  bull_recs ++ cow_recs <> [] ->
  Forall (fun a => (length recessives <= length (genotypes a))%nat)
    (bull_recs ++ cow_recs) ->
  (forall r rk rv,
      recessives !! r = Some (rk, rv) -> lethal rv = 1 ->
      minor_allele_copies r (bull_recs ++ cow_recs)
      <> 2 * Z.of_nat (length (bull_recs ++ cow_recs))) ->
  exists recessives' freqs,
    update_maf cows bulls generation recessives freq_hist w
    = Ok (recessives', <[generation := freqs]> freq_hist) w
    /\ freqs = (fun r => minor_allele_frequency r (bull_recs ++ cow_recs))
               <$> seq 0 (length recessives)
    /\ length recessives' = length recessives
    /\ forall r rk rv,
         recessives !! r = Some (rk, rv) ->
         exists rv',
           recessives' !! r = Some (rk, rv')
           /\ frequency rv'
              = minor_allele_frequency r (bull_recs ++ cow_recs)
           /\ value rv' = value rv /\ lethal rv' = lethal rv
           /\ edit rv' = edit rv /\ edit_mode rv' = edit_mode rv.
Proof.
  intros Hkeys Hbulls Hcows Hlive Hgen Hfix.
  set (live := bull_recs ++ cow_recs) in *.
  set (f := fun r => minor_allele_frequency r live).
  exists (with_frequencies f recessives), (f <$> seq 0 (length recessives)).
  split; [|split; [reflexivity|split]].
  - unfold update_maf.
    replace (length (keys recessives)) with (length recessives)
      by (unfold keys; rewrite length_fmap; reflexivity).
    apply Forall_app in Hgen. destruct Hgen as [Hgb Hgc].
    destruct (count_animals_ok (length recessives) w bulls bull_recs Hbulls Hgb
                (replicate (length recessives) 0))
      as (res1 & Hrun1 & Hlen1 & Hres1); [apply length_replicate|].
    destruct (count_animals_ok (length recessives) w cows cow_recs Hcows Hgc
                res1 Hlen1) as (res2 & Hrun2 & Hlen2 & Hres2).
    eapply bind_Ok_intro; [exact Hrun1|].
    eapply bind_Ok_intro; [exact Hrun2|].
    assert (Hlen : 2 * (Z.of_nat (length cows) + Z.of_nat (length bulls))
                   = 2 * Z.of_nat (length live)).
    { subst live. rewrite length_app.
      rewrite (Forall2_length _ _ _ Hbulls), (Forall2_length _ _ _ Hcows). lia. }
    assert (Hpos : 0 < 2 * Z.of_nat (length live)).
    { destruct live; [congruence|]. simpl length. lia. }
    rewrite Hlen.
    apply (frequency_loop_ok recessives res2 (2 * Z.of_nat (length live))
             generation freq_hist f w Hkeys) with (pre := []);
      [lia| | |reflexivity].
    + intros r Hr. exists (minor_allele_copies r live). split; [|reflexivity].
      assert (H0 : replicate (length recessives) 0 !! r = Some 0)
        by (apply lookup_replicate_2; exact Hr).
      rewrite (Hres2 r _ (Hres1 r 0 H0)). f_equal.
      rewrite <- copies_in_counts. subst live. rewrite copies_in_app. lia.
    + intros r rk rv Hr Hl. subst f. unfold minor_allele_frequency.
      apply lethal_denominator_nonzero; [|exact Hpos|eauto].
      unfold minor_allele_copies.
      pose proof (count_genotype_bounds 0 r live).
      pose proof (count_genotype_bounds (-1) r live). lia.
  - unfold with_frequencies. apply length_imap.
  - intros r rk rv Hr. exists (set_frequency (f r) rv).
    split; [apply with_frequencies_lookup; exact Hr|].
    repeat split.
Qed.

Lemma update_maf_counts_minor_alleles_small_herd :
  exists recessives' freqs,
    update_maf [2; 3]%nat [0; 1]%nat 5 one_lethal ∅ (small_world [])
    = Ok (recessives', <[5 := freqs]> ∅) (small_world [])
    /\ freqs = (fun r => minor_allele_frequency r small_herd) <$> seq 0 1
    /\ length recessives' = 1%nat
    /\ forall r rk rv,
         one_lethal !! r = Some (rk, rv) ->
         exists rv',
           recessives' !! r = Some (rk, rv')
           /\ frequency rv' = minor_allele_frequency r small_herd
           /\ value rv' = value rv /\ lethal rv' = lethal rv
           /\ edit rv' = edit rv /\ edit_mode rv' = edit_mode rv.
Proof.
  apply (update_maf_counts_minor_alleles [2; 3]%nat [0; 1]%nat 5 one_lethal ∅
           (small_world [])
           [founder 3 0 "F" 0 5 [0]; founder 4 0 "F" 0 7 [1]]
           [founder 1 0 "M" 0 10 [0]; founder 2 0 "M" 0 20 [1]]).
  - apply NoDup_singleton.
  - repeat constructor.
  - repeat constructor.
  - discriminate.
  - repeat constructor.
  - intros r rk rv Hr _. destruct r as [|r]; [|discriminate Hr].
    vm_compute. discriminate.
Defined.

(** C9. With the minor allele of a lethal locus fixed in the live
    population (one bull and one cow, both homozygous for it, so that
    the frequency of the claim is 1) [update_maf] raises
    [ZeroDivisionError]: the normaliser of the genotype frequencies of a
    lethal is zero there, and the division precedes the two stores.  No
    frequency is stored and no entry is appended.  The same population
    at a locus that is not lethal goes through: the frequency stored and
    the entry of the generation are the frequency of the claim. *)
Theorem update_maf_fixed_lethal_divides_by_zero :
  (minor_allele_frequency 0 (heap fixed_pair) == 1)%Q
  /\ update_maf [1%nat] [0%nat] 5 one_lethal ∅ fixed_pair
     = Raise ZeroDivisionError
  /\ exists recessives',
       update_maf [1%nat] [0%nat] 5 horned_only ∅ fixed_pair
       = Ok (recessives',
             <[5 := [minor_allele_frequency 0 (heap fixed_pair)]]> ∅)
            fixed_pair
       /\ (frequency ∘ snd) <$> recessives'
          = [minor_allele_frequency 0 (heap fixed_pair)].
Proof.
  split; [reflexivity|]. split; [vm_compute; reflexivity|].
  eexists. split; vm_compute; reflexivity.
Qed.

(** * Further properties of the routines *)

(** ** Calves: [create_new_calf] (l.1931-2113) *)

(** An invariant [P] of the iterations that fall through, with [Q] for
    the early returns, holds of the calf that is returned. *)
Lemma calf_loci_inv (P Q : animal_record -> Prop) sire_r dam_r recessives
    generation cl dl hb items :
  (forall rk rv calf f w w',
      P calf ->
      calf_locus sire_r dam_r recessives generation cl dl hb rk rv calf w
      = Ok f w' ->
      match f with Continue c => P c | Return c => Q c end) ->
  forall calf c w w',
  P calf ->
  calf_loci sire_r dam_r recessives generation cl dl hb items calf w = Ok c w' ->
  P c \/ Q c.
Proof.
  intros Hstep. induction items as [|[rk rv] items IH]; simpl; intros calf c w w' HP H.
  - apply ret_Ok in H. destruct H as [-> _]. auto.
  - apply bind_Ok in H. destruct H as (f & w1 & H1 & H).
    apply (Hstep _ _ _ _ _ _ HP) in H1. destruct f as [c1|c1].
    + eapply IH; eauto.
    + apply ret_Ok in H. destruct H as [-> _]. auto.
Qed.

Lemma calf_locus_identity sire_r dam_r recessives generation cl dl hb rk rv
    calf f w w' :
  calf_locus sire_r dam_r recessives generation cl dl hb rk rv calf w = Ok f w' ->
  match f with Continue c | Return c => same_identity calf c end.
Proof.
  unfold calf_locus, same_identity. intros H.
  minv; simpl; repeat case_match; simpl; repeat split; reflexivity.
Qed.

(** X1. The calf that [create_new_calf] returns carries the id it was
    given, the ids of its parents, the current generation as its birth
    generation and the herd of its dam; its sex is 'M' or 'F', its
    inbreeding 0 and its bred flag 0, whatever happens in the loop over
    the loci; the store is only read. *)
Theorem create_new_calf_identity sire_r dam_r recessives calf_id generation
    cl dl hb c w w' :
  create_new_calf sire_r dam_r recessives calf_id generation cl dl hb w
  = Ok c w' ->
  heap w' = heap w /\
  animal c = calf_id /\ sire c = animal sire_r /\ dam c = animal dam_r /\
  born c = generation /\ herd c = herd dam_r /\
  (sex c = "M" \/ sex c = "F") /\ inbreeding c = 0%Q /\ bred c = 0.
Proof.
  intros H. split; [apply create_new_calf_spec in H; tauto|].
  unfold create_new_calf in H.
  apply bind_Ok in H. destruct H as (coin & w1 & _ & H).
  apply bind_Ok in H. destruct H as (z & w2 & _ & H).
  eapply (calf_loci_inv (same_identity _) (same_identity _)) in H.
  - assert (Hid : same_identity
             (mkAnimal calf_id (animal sire_r) (animal dam_r) generation
                (if negb (coin =? 0) then "M" else "F") (herd dam_r) "A" ""
                (-1) ((tbv sire_r + tbv dam_r) * (1 # 2) +
                      z * 200 * (math_sqrt_half *
                        (1 - (1 # 2) * (inbreeding sire_r + inbreeding dam_r))))%Q
                0 [] [] (EtList []) 0 [] None None None) c)
      by (destruct H; exact H).
    clear H. unfold same_identity in Hid. simpl in Hid.
    destruct Hid as (-> & -> & -> & -> & Hsex & -> & _ & -> & ->).
    repeat split. rewrite Hsex. destruct (negb (coin =? 0)); auto.
  - intros rk rv calf f wa wb HP Hl. apply calf_locus_identity in Hl.
    unfold same_identity in *. destruct f; intuition congruence.
  - unfold same_identity. repeat split.
Qed.

Lemma create_new_calf_identity_witness :
  exists c w',
    create_new_calf (founder 1 0 "M" 0 10 [0]) (founder 3 0 "F" 7 5 [0])
      one_lethal 10 3 0 0 0
      (mkWorld [] (tape [3 # 4; 0; 1 # 4; 1 # 4; 1 # 2]%Q) 0)
    = Ok c w'
    /\ animal c = 10 /\ sire c = 1 /\ dam c = 3 /\ born c = 3 /\ herd c = 7.
Proof.
  assert (Hrun : exists c w',
             create_new_calf (founder 1 0 "M" 0 10 [0]) (founder 3 0 "F" 7 5 [0])
               one_lethal 10 3 0 0 0
               (mkWorld [] (tape [3 # 4; 0; 1 # 4; 1 # 4; 1 # 2]%Q) 0)
             = Ok c w').
  { eexists _, _. vm_compute. reflexivity. }
  destruct Hrun as (c & w' & Hrun). exists c, w'. split; [exact Hrun|].
  destruct (create_new_calf_identity _ _ _ _ _ _ _ _ _ _ _ Hrun)
    as (_ & Ha & Hs & Hd & Hb & Hh & _).
  repeat split; assumption.
Defined.

(** X2. A calf that is not lost as a calf ('C') or at dehorning ('H'),
    so in particular every calf returned alive, has exactly one genotype,
    one edit-status and one edit-count entry per recessive. *)
Theorem create_new_calf_complete_vectors sire_r dam_r recessives calf_id
    generation cl dl hb c w w' :
  create_new_calf sire_r dam_r recessives calf_id generation cl dl hb w
  = Ok c w' ->
  reason c <> "C" -> reason c <> "H" ->
  length (genotypes c) = length recessives /\
  length (edit_status c) = length recessives /\
  length (edit_count c) = length recessives.
Proof. apply create_new_calf_vectors. Qed.

Lemma create_new_calf_complete_vectors_witness :
  exists c w',
    create_new_calf (founder 1 0 "M" 0 10 [0; 1]) (founder 3 0 "F" 0 5 [1; 1])
      two_lethals 10 3 0 0 0 (mkWorld [] (tape []) 0)
    = Ok c w'
    /\ length (genotypes c) = 2%nat
    /\ length (edit_status c) = 2%nat
    /\ length (edit_count c) = 2%nat.
Proof.
  assert (Hrun : exists c w',
             create_new_calf (founder 1 0 "M" 0 10 [0; 1])
               (founder 3 0 "F" 0 5 [1; 1]) two_lethals 10 3 0 0 0
               (mkWorld [] (tape []) 0)
             = Ok c w' /\ reason c = "").
  { eexists _, _. split; vm_compute; reflexivity. }
  destruct Hrun as (c & w' & Hrun & Hr). exists c, w'. split; [exact Hrun|].
  apply (create_new_calf_complete_vectors _ _ _ _ _ _ _ _ _ _ _ Hrun);
    rewrite Hr; discriminate.
Defined.

Lemma draw_allele_cases g s w w' :
  draw_allele g w = Ok s w' ->
  (s = "A" \/ s = "a") /\ (g = 1 -> s = "A") /\ (s = "A" -> g = 1 \/ g = 0).
Proof.
  unfold draw_allele. intros H.
  destruct (Z.eqb_spec g 1) as [H1|H1].
  - apply ret_Ok in H. destruct H as [-> _]. auto.
  - destruct (Z.eqb_spec g 0) as [H0|H0].
    + apply bind_Ok in H. destruct H as (x & w1 & _ & H).
      apply ret_Ok in H. destruct H as [-> _].
      destruct (x =? 0); split; auto; split; auto; lia.
    + apply ret_Ok in H. destruct H as [-> _].
      split; auto. split; [lia|discriminate].
Qed.

(** What an iteration appends, given the genotypes of the parents at the
    locus. *)
Lemma calf_locus_genotype sire_r dam_r recessives generation cl dl hb rk rv
    calf f w w' :
  calf_locus sire_r dam_r recessives generation cl dl hb rk rv calf w = Ok f w' ->
  exists r b c g,
    index_of String.eqb rk (keys recessives) = Some r /\
    genotypes sire_r !! r = Some b /\ genotypes dam_r !! r = Some c /\
    genotype_code g /\ (b = 1 \/ c = 1 -> g <> -1) /\
    match f with
    | Continue c' | Return c' => genotypes c' = genotypes calf ++ [g]
    end.
Proof.
  unfold calf_locus. intros H.
  apply bind_Ok in H. destruct H as (r & w1 & Hr & H).
  apply or_raise_Ok in Hr. destruct Hr as [Hr ->].
  apply bind_Ok in H. destruct H as (b & w1 & Hb & H).
  apply or_raise_Ok in Hb. destruct Hb as [Hb ->].
  apply bind_Ok in H. destruct H as (sa & w1 & Hsa & H).
  apply bind_Ok in H. destruct H as (c & w2 & Hc & H).
  apply or_raise_Ok in Hc. destruct Hc as [Hc ->].
  apply bind_Ok in H. destruct H as (da & w2 & Hda & H).
  apply draw_allele_cases in Hsa. destruct Hsa as (Hsa & Hsb & _).
  apply draw_allele_cases in Hda. destruct Hda as (Hda & Hdb & _).
  apply bind_Ok in H. destruct H as (calf1 & w3 & Hg & H).
  assert (Hcalf1 : exists g, genotype_code g /\ (b = 1 \/ c = 1 -> g <> -1) /\
                             genotypes calf1 = genotypes calf ++ [g]).
  { unfold genotype_code.
    destruct (String.eqb sa "a" && String.eqb da "a") eqn:Eaa.
    - apply andb_prop in Eaa. destruct Eaa as [E1 E2].
      apply String.eqb_eq in E1, E2. subst sa da.
      apply ret_Ok in Hg. destruct Hg as [-> _]. exists (-1).
      split; [auto|]. split.
      + intros [Hb1|Hc1]; [apply Hsb in Hb1|apply Hdb in Hc1]; discriminate.
      + destruct (lethal rv =? 1); reflexivity.
    - destruct (String.eqb sa "A" && String.eqb da "A").
      + apply bind_Ok in Hg. destruct Hg as (m & w4 & _ & Hg).
        apply ret_Ok in Hg. destruct Hg as [-> _].
        exists (if m =? 1 then 0 else 1).
        destruct (m =? 1); repeat split; auto; lia.
      + apply ret_Ok in Hg. destruct Hg as [-> _]. exists 0.
        repeat split; auto; lia. }
  destruct Hcalf1 as (g & Hcode & Hmendel & Hgen).
  exists r, b, c, g. repeat split; try assumption.
  clear Hg Hsa Hsb Hda Hdb.
  minv; simpl; repeat case_match; simpl; assumption.
Qed.

(** X3. Every entry of the genotype vector of a returned calf is one of
    the codes 1 (AA), 0 (Aa) and -1 (aa). *)
Theorem create_new_calf_genotype_codes sire_r dam_r recessives calf_id
    generation cl dl hb c w w' :
  create_new_calf sire_r dam_r recessives calf_id generation cl dl hb w
  = Ok c w' ->
  Forall genotype_code (genotypes c).
Proof.
  unfold create_new_calf. intros H.
  apply bind_Ok in H. destruct H as (coin & w1 & _ & H).
  apply bind_Ok in H. destruct H as (z & w2 & _ & H).
  eapply (calf_loci_inv (fun c => Forall genotype_code (genotypes c))
            (fun c => Forall genotype_code (genotypes c))) in H.
  - tauto.
  - intros rk rv calf f wa wb HP Hl. apply calf_locus_genotype in Hl.
    destruct Hl as (r & b & d & g & _ & _ & _ & Hg & _ & Hf).
    destruct f; rewrite Hf; apply Forall_app; auto.
  - simpl. constructor.
Qed.

Lemma create_new_calf_genotype_codes_witness :
  exists c w',
    create_new_calf (founder 1 0 "M" 0 10 [0; -1]) (founder 3 0 "F" 0 5 [1; 0])
      two_lethals 10 3 0 0 0 (mkWorld [] (tape []) 0)
    = Ok c w'
    /\ Forall genotype_code (genotypes c).
Proof.
  assert (Hrun : exists c w',
             create_new_calf (founder 1 0 "M" 0 10 [0; -1])
               (founder 3 0 "F" 0 5 [1; 0]) two_lethals 10 3 0 0 0
               (mkWorld [] (tape []) 0)
             = Ok c w').
  { eexists _, _. vm_compute. reflexivity. }
  destruct Hrun as (c & w' & Hrun). exists c, w'. split; [exact Hrun|].
  exact (create_new_calf_genotype_codes _ _ _ _ _ _ _ _ _ _ _ Hrun).
Defined.

(** X4. Mendelian transmission: when one of the parents is homozygous
    for the major allele at every locus, no locus of the calf is
    homozygous for the minor allele. *)
Theorem create_new_calf_needs_two_carriers sire_r dam_r recessives calf_id
    generation cl dl hb c w w' :
  Forall (eq 1) (genotypes sire_r) \/ Forall (eq 1) (genotypes dam_r) ->
  create_new_calf sire_r dam_r recessives calf_id generation cl dl hb w
  = Ok c w' ->
  -1 ∉ genotypes c.
Proof.
  unfold create_new_calf. intros Hpar H.
  apply bind_Ok in H. destruct H as (coin & w1 & _ & H).
  apply bind_Ok in H. destruct H as (z & w2 & _ & H).
  eapply (calf_loci_inv (fun c => -1 ∉ genotypes c)
            (fun c => -1 ∉ genotypes c)) in H.
  - tauto.
  - intros rk rv calf f wa wb HP Hl. apply calf_locus_genotype in Hl.
    destruct Hl as (r & b & d & g & _ & Hb & Hd & _ & Hg & Hf).
    assert (Hne : g <> -1).
    { apply Hg. destruct Hpar as [Hs|Hs]; [left|right];
        rewrite Forall_lookup in Hs; symmetry; eapply Hs; eassumption. }
    destruct f; rewrite Hf; intros Hin; apply elem_of_app in Hin;
      destruct Hin as [Hin|Hin]; try (apply HP; exact Hin);
      apply list_elem_of_singleton in Hin; congruence.
  - simpl. apply not_elem_of_nil.
Qed.

Lemma create_new_calf_needs_two_carriers_witness :
  exists c w',
    create_new_calf (founder 1 0 "M" 0 10 [1; 1]) (founder 3 0 "F" 0 5 [-1; 0])
      two_lethals 10 3 0 0 0 (mkWorld [] (tape []) 0)
    = Ok c w'
    /\ -1 ∉ genotypes c.
Proof.
  assert (Hrun : exists c w',
             create_new_calf (founder 1 0 "M" 0 10 [1; 1])
               (founder 3 0 "F" 0 5 [-1; 0]) two_lethals 10 3 0 0 0
               (mkWorld [] (tape []) 0)
             = Ok c w').
  { eexists _, _. vm_compute. reflexivity. }
  destruct Hrun as (c & w' & Hrun). exists c, w'. split; [exact Hrun|].
  refine (create_new_calf_needs_two_carriers _ _ _ _ _ _ _ _ _ _ _ _ Hrun).
  left. simpl. repeat constructor.
Defined.

Lemma calf_locus_status sire_r dam_r recessives generation cl dl hb rk rv
    calf f w w' :
  calf_in_loop generation calf ->
  calf_locus sire_r dam_r recessives generation cl dl hb rk rv calf w = Ok f w' ->
  match f with
  | Continue c => calf_in_loop generation c
  | Return c => calf_lost generation c
  end.
Proof.
  unfold calf_locus. intros HP H.
  apply bind_Ok in H. destruct H as (r & w1 & _ & H).
  apply bind_Ok in H. destruct H as (b & w2 & _ & H).
  apply bind_Ok in H. destruct H as (sa & w3 & _ & H).
  apply bind_Ok in H. destruct H as (c & w4 & _ & H).
  apply bind_Ok in H. destruct H as (da & w5 & _ & H).
  apply bind_Ok in H. destruct H as (calf1 & w6 & Hg & H).
  assert (Hst : alive calf1 = alive calf /\ reason calf1 = reason calf /\
                died calf1 = died calf /\ sex calf1 = sex calf).
  { clear H. minv; simpl; repeat case_match; simpl; auto. }
  destruct Hst as (Ha & Hr & Hd & Hs). clear Hg.
  assert (HP1 : calf_in_loop generation calf1).
  { unfold calf_in_loop in *. rewrite Ha, Hr, Hd, Hs. exact HP. }
  clear HP Ha Hr Hd Hs.
  apply bind_Ok in H. destruct H as (lost & w7 & _ & H).
  destruct (negb (lost =? 0)).
  { apply ret_Ok in H. destruct H as [-> _].
    unfold calf_lost. simpl. auto. }
  apply bind_Ok in H. destruct H as (dehorned & w8 & Hde & H).
  assert (Hde' : match dehorned with
                 | Continue c => c = calf1
                 | Return c => calf_lost generation c
                 end).
  { clear H. minv; simpl; unfold calf_lost; simpl; auto. }
  clear Hde. destruct dehorned as [c1|c1].
  - subst c1. apply bind_Ok in H. destruct H as (calf2 & w9 & Hh & H).
    apply ret_Ok in H. destruct H as [-> _].
    assert (HP2 : calf_in_loop generation calf2).
    { destruct (String.eqb_spec (alive calf1) "A") as [EA|EA].
      - destruct (String.eqb_spec (sex calf1) "M") as [EM|EM].
        + apply bind_Ok in Hh. destruct Hh as (x & w10 & _ & Hh).
          destruct (negb (x =? 0)); apply ret_Ok in Hh; destruct Hh as [-> _].
          * right. simpl. auto.
          * exact HP1.
        + apply ret_Ok in Hh. destruct Hh as [-> _]. exact HP1.
      - apply ret_Ok in Hh. destruct Hh as [-> _]. exact HP1. }
    unfold calf_in_loop in *. destruct (et_count _); simpl; exact HP2.
  - apply ret_Ok in H. destruct H as [-> _]. exact Hde'.
Qed.

(** X5. The death record of a returned calf: it is either untouched
    (alive, no reason, died -1), or dead in its birth generation for one
    of the reasons 'C', 'H' and 'B'; only male calves carry 'B', and the
    reason 'R' of a recessive lethal is never recorded. *)
Theorem create_new_calf_death_record sire_r dam_r recessives calf_id
    generation cl dl hb c w w' :
  create_new_calf sire_r dam_r recessives calf_id generation cl dl hb w
  = Ok c w' ->
  (alive c = "A" /\ reason c = "" /\ died c = -1) \/
  (alive c = "D" /\ died c = generation /\
   (reason c = "C" \/ reason c = "H" \/ (reason c = "B" /\ sex c = "M"))).
Proof.
  unfold create_new_calf. intros H.
  apply bind_Ok in H. destruct H as (coin & w1 & _ & H).
  apply bind_Ok in H. destruct H as (z & w2 & _ & H).
  eapply (calf_loci_inv (calf_in_loop generation) (calf_lost generation)) in H.
  - unfold calf_in_loop, calf_lost in H. tauto.
  - intros rk rv calf f wa wb HP Hl. eapply calf_locus_status; eauto.
  - left. simpl. auto.
Qed.

Lemma create_new_calf_death_record_witness :
  exists c w',
    create_new_calf (founder 1 0 "M" 0 10 [1]) (founder 3 0 "F" 0 5 [1])
      one_lethal 10 3 0 0 1 (mkWorld [] (tape [0; 0; 1 # 2; 0; 0]%Q) 0)
    = Ok c w'
    /\ alive c = "D" /\ reason c = "B" /\ died c = 3 /\ sex c = "M".
Proof.
  assert (Hrun : exists c w',
             create_new_calf (founder 1 0 "M" 0 10 [1]) (founder 3 0 "F" 0 5 [1])
               one_lethal 10 3 0 0 1 (mkWorld [] (tape [0; 0; 1 # 2; 0; 0]%Q) 0)
             = Ok c w' /\ reason c = "B").
  { eexists _, _. split; vm_compute; reflexivity. }
  destruct Hrun as (c & w' & Hrun & Hr). exists c, w'. split; [exact Hrun|].
  destruct (create_new_calf_death_record _ _ _ _ _ _ _ _ _ _ _ Hrun)
    as [(_ & Hr' & _)|(Ha & Hd & [Hr'|[Hr'|[_ Hs]]])];
    try (rewrite Hr in Hr'; discriminate Hr').
  auto.
Defined.

Lemma index_of_elem (x : string) (l : list string) :
  x ∈ l -> exists n, index_of String.eqb x l = Some n.
Proof.
  induction l as [|y l IH]; intros Hin.
  - apply elem_of_nil in Hin. contradiction.
  - simpl. destruct (String.eqb_spec y x) as [E|E]; [eauto|].
    apply elem_of_cons in Hin. destruct Hin as [Hin|Hin]; [congruence|].
    destruct (IH Hin) as (n & ->). simpl. eauto.
Qed.

(** X6. The dehorning step reads the calf's genotype at the position of
    'Horned' among the loci while the vector is still being filled: when
    'Horned' is a locus but not the first one, the only calves that
    [create_new_calf] returns are those lost as calves at the first locus;
    every other run ends in an exception. *)
Theorem create_new_calf_horned_must_come_first sire_r dam_r rk rv rest calf_id
    generation cl dl hb c w w' :
  rk <> "Horned" ->
  "Horned" ∈ keys rest ->
  create_new_calf sire_r dam_r ((rk, rv) :: rest) calf_id generation cl dl hb w
  = Ok c w' ->
  alive c = "D" /\ reason c = "C" /\ length (genotypes c) = 1%nat.
Proof.
  intros Hrk Hin H. unfold create_new_calf in H.
  apply bind_Ok in H. destruct H as (coin & w1 & _ & H).
  apply bind_Ok in H. destruct H as (z & w2 & _ & H).
  simpl in H.
  apply bind_Ok in H. destruct H as (f & w3 & Hl & H).
  destruct (index_of_elem _ _ Hin) as (n & Hn).
  assert (Hh : index_of String.eqb "Horned" (keys ((rk, rv) :: rest)) = Some (S n)).
  { change (keys ((rk, rv) :: rest)) with (rk :: keys rest). cbn [index_of].
    destruct (String.eqb_spec rk "Horned"); [contradiction|].
    rewrite Hn. reflexivity. }
  assert (Hf : exists c1, f = Return c1 /\ alive c1 = "D" /\ reason c1 = "C" /\
                          length (genotypes c1) = 1%nat).
  { clear H. unfold calf_locus in Hl. rewrite Hh in Hl.
    apply bind_Ok in Hl. destruct Hl as (r & w4 & _ & Hl).
    apply bind_Ok in Hl. destruct Hl as (b & w5 & _ & Hl).
    apply bind_Ok in Hl. destruct Hl as (sa & w6 & _ & Hl).
    apply bind_Ok in Hl. destruct Hl as (d & w7 & _ & Hl).
    apply bind_Ok in Hl. destruct Hl as (da & w8 & _ & Hl).
    apply bind_Ok in Hl. destruct Hl as (calf1 & w9 & Hg & Hl).
    assert (Hc1 : alive calf1 = "A" /\ length (genotypes calf1) = 1%nat).
    { clear Hl. minv; simpl; repeat case_match; simpl; auto. }
    destruct Hc1 as [Ha Hlen]. clear Hg.
    apply bind_Ok in Hl. destruct Hl as (lost & w10 & _ & Hl).
    destruct (negb (lost =? 0)).
    - apply ret_Ok in Hl. destruct Hl as [-> _]. eexists. split; [reflexivity|].
      simpl. auto.
    - exfalso. rewrite Ha in Hl. simpl in Hl.
      rewrite (lookup_ge_None_2 (genotypes calf1) (S n)) in Hl by lia.
      apply bind_Ok in Hl. destruct Hl as (dh & w11 & Hl & _).
      apply bind_Ok in Hl. destruct Hl as (g & w12 & Hl & _).
      discriminate Hl. }
  destruct Hf as (c1 & -> & Ha & Hr & Hlen).
  apply ret_Ok in H. destruct H as [-> _]. auto.
Qed.

Lemma create_new_calf_horned_must_come_first_witness :
  exists c w',
    create_new_calf (founder 1 0 "M" 0 10 [1; -1]) (founder 3 0 "F" 0 5 [1; -1])
      [("HH1", mkRecessive (1 # 50) 40 1 1 "A");
       ("Horned", mkRecessive (3 # 4) 50 0 0 "D")]
      10 3 1 0 0 (mkWorld [] (tape []) 0)
    = Ok c w'
    /\ alive c = "D" /\ reason c = "C" /\ length (genotypes c) = 1%nat.
Proof.
  assert (Hrun : exists c w',
             create_new_calf (founder 1 0 "M" 0 10 [1; -1])
               (founder 3 0 "F" 0 5 [1; -1])
               [("HH1", mkRecessive (1 # 50) 40 1 1 "A");
                ("Horned", mkRecessive (3 # 4) 50 0 0 "D")]
               10 3 1 0 0 (mkWorld [] (tape []) 0)
             = Ok c w').
  { eexists _, _. vm_compute. reflexivity. }
  destruct Hrun as (c & w' & Hrun). exists c, w'. split; [exact Hrun|].
  refine (create_new_calf_horned_must_come_first _ _ _ _ _ _ _ _ _ _ _ _ _ _ _ Hrun).
  - discriminate.
  - simpl. apply list_elem_of_singleton. reflexivity.
Defined.

(** ** Animal ids: [get_next_id] (l.722-754) *)

Lemma list_max_spec l m :
  list_max l = Some m -> m ∈ l /\ Forall (fun x => x <= m) l.
Proof.
  revert m. induction l as [|x l IH]; simpl; intros m H; [discriminate|].
  destruct (list_max l) as [m'|] eqn:E.
  - injection H as <-. destruct (IH m' eq_refl) as [Hin Hall]. split.
    + destruct (Z.max_spec x m') as [[_ ->]|[_ ->]].
      * apply elem_of_cons. right. exact Hin.
      * apply elem_of_cons; left; reflexivity.
    + constructor; [lia|]. eapply Forall_impl; [exact Hall|].
      simpl. intros. lia.
  - injection H as <-. destruct l as [|y l]; [|simpl in E; destruct (list_max l); discriminate].
    split; [apply elem_of_cons; left; reflexivity|]. constructor; [lia|constructor].
Qed.

Lemma map_m_animal_ids ls :
  forall ids w w',
  map_m (fun x => a <- deref x ;; ret (animal a)) ls w = Ok ids w' ->
  w' = w /\
  Forall2 (fun l i => exists a, heap w !! l = Some a /\ animal a = i) ls ids.
Proof.
  induction ls as [|l ls IH]; simpl; intros ids w w' H.
  - apply ret_Ok in H. destruct H as [-> ->]. split; [reflexivity|constructor].
  - apply bind_Ok in H. destruct H as (i & w1 & Hi & H).
    apply bind_Ok in Hi. destruct Hi as (a & w2 & Ha & Hi).
    apply deref_Ok in Ha. destruct Ha as [Ha ->].
    apply ret_Ok in Hi. destruct Hi as [-> ->].
    apply bind_Ok in H. destruct H as (is' & w3 & Hrest & H).
    apply IH in Hrest. destruct Hrest as [-> Hrest].
    apply ret_Ok in H. destruct H as [-> ->].
    split; [reflexivity|]. constructor; eauto.
Qed.

(** X7. The id that [get_next_id] returns is larger than the id of every
    animal in the four lists and in the extra lists, and it is the
    successor of the id of one of them; the store is only read. *)
Theorem get_next_id_is_fresh cows bulls dead_cows dead_bulls extras n w w' :
  get_next_id cows bulls dead_cows dead_bulls extras w = Ok n w' ->
  w' = w /\
  (forall l, l ∈ cows ++ dead_cows ++ bulls ++ dead_bulls ++ concat extras ->
     exists a, heap w !! l = Some a /\ animal a < n) /\
  (exists l a, l ∈ cows ++ dead_cows ++ bulls ++ dead_bulls ++ concat extras /\
     heap w !! l = Some a /\ animal a + 1 = n).
Proof.
  unfold get_next_id. intros H.
  apply bind_Ok in H. destruct H as (ids & w1 & Hids & H).
  apply map_m_animal_ids in Hids. destruct Hids as [-> Hids].
  apply bind_Ok in H. destruct H as (m & w2 & Hm & H).
  apply or_raise_Ok in Hm. destruct Hm as [Hm ->].
  apply ret_Ok in H. destruct H as [-> ->].
  apply list_max_spec in Hm. destruct Hm as [Hin Hall].
  split; [reflexivity|]. split.
  - intros l Hl. apply list_elem_of_lookup in Hl. destruct Hl as (i & Hl).
    destruct (Forall2_lookup_l _ _ _ _ _ Hids Hl) as (id & Hid & a & Ha & Hida).
    exists a. split; [exact Ha|].
    rewrite Forall_lookup in Hall. specialize (Hall _ _ Hid). simpl in Hall. lia.
  - apply list_elem_of_lookup in Hin. destruct Hin as (i & Hi).
    destruct (Forall2_lookup_r _ _ _ _ _ Hids Hi) as (l & Hl & a & Ha & Hida).
    exists l, a. split; [eapply list_elem_of_lookup_2; exact Hl|].
    split; [exact Ha|]. lia.
Qed.

Lemma get_next_id_is_fresh_witness :
  exists n,
    get_next_id [2; 3]%nat [0; 1]%nat [] [] [] (small_world [])
    = Ok n (small_world [])
    /\ forall l, l ∈ [2; 3; 0; 1]%nat ->
         exists a, heap (small_world []) !! l = Some a /\ animal a < n.
Proof.
  assert (Hrun : exists n,
             get_next_id [2; 3]%nat [0; 1]%nat [] [] [] (small_world [])
             = Ok n (small_world [])).
  { eexists. vm_compute. reflexivity. }
  destruct Hrun as (n & Hrun). exists n. split; [exact Hrun|].
  exact (proj1 (proj2 (get_next_id_is_fresh _ _ _ _ _ _ _ _ Hrun))).
Defined.

(** ** Sorting permutes *)

Lemma insert_sorted_perm {K A} (leb : K -> K -> bool) (x : K * A) l :
  insert_sorted leb x l ≡ₚ x :: l.
Proof.
  induction l as [|y l IH]; simpl; [reflexivity|].
  destruct (leb (fst x) (fst y)); [reflexivity|].
  rewrite IH. apply Permutation_swap.
Qed.

Lemma sort_pairs_perm {K A} (leb : K -> K -> bool) (l : list (K * A)) :
  sort_pairs leb l ≡ₚ l.
Proof.
  induction l as [|x l IH]; simpl; [reflexivity|].
  unfold sort_pairs in *. simpl. rewrite insert_sorted_perm, IH. reflexivity.
Qed.

Lemma sort_on_perm {K} (key : animal_record -> K) leb l l' w w' :
  sort_on key leb l w = Ok l' w' -> w' = w /\ l' ≡ₚ l.
Proof.
  intros H. pose proof (sort_on_pure _ _ _ _ _ _ H) as ->.
  split; [reflexivity|]. unfold sort_on in H.
  apply bind_Ok in H. destruct H as (keyed & w1 & Hk & H).
  apply keyed_snd in Hk. apply ret_Ok in H. destruct H as [-> _].
  rewrite <- Hk. apply fmap_Permutation, sort_pairs_perm.
Qed.

(** ** Gene editing: [edit_genes] (l.2121-2374) *)

(** X8. A proportion outside [0, 1] is not replaced by the announced
    default: the message of the range check reads the unbound name [p],
    so the call ends in a [NameError] before anything is edited. *)
Theorem edit_genes_rejects_proportion fuel cows bulls dead_cows dead_bulls
    recessives generation edit_prop edit_type edit_trials embryo_trials
    edit_sex extras w :
  (edit_prop < 0 \/ 1 < edit_prop)%Q ->
  edit_genes fuel cows bulls dead_cows dead_bulls recessives generation
    edit_prop edit_type edit_trials embryo_trials edit_sex extras w
  = Raise (NameError "p").
Proof.
  intros Hp. unfold edit_genes, bind.
  destruct (Qle_bool 0 edit_prop) eqn:E0; simpl; [|reflexivity].
  destruct (Qle_bool edit_prop 1) eqn:E1; simpl; [|reflexivity].
  apply Qle_bool_iff in E0, E1. exfalso.
  destruct Hp as [Hp|Hp]; [apply (Qlt_not_le _ _ Hp E0)|apply (Qlt_not_le _ _ Hp E1)].
Qed.

Lemma edit_genes_rejects_proportion_witness :
  edit_genes 1 [] [0%nat] [] [] one_lethal 7 (3 # 2) "C" 1 1 "M" []
    (lone_bull [0] [])
  = Raise (NameError "p").
Proof.
  apply (edit_genes_rejects_proportion 1 [] [0%nat] [] [] one_lethal 7 (3 # 2)
           "C" 1 1 "M" [] (lone_bull [0] [])).
  right. reflexivity.
Defined.

(** X9. Editing works on copies: every record that is in the store when
    [edit_genes] is called is unchanged when it returns, whatever the
    outcome of the edits and of the embryo transfers. *)
Theorem edit_genes_never_writes_originals fuel cows bulls dead_cows dead_bulls
    recessives generation edit_prop edit_type edit_trials embryo_trials
    edit_sex extras r w w' :
  edit_genes fuel cows bulls dead_cows dead_bulls recessives generation
    edit_prop edit_type edit_trials embryo_trials edit_sex extras w = Ok r w' ->
  forall l a, heap w !! l = Some a -> heap w' !! l = Some a.
Proof.
  intros H l a Ha.
  rewrite (edit_genes_leaves_originals _ _ _ _ _ _ _ _ _ _ _ _ _ _ _ _ H);
    [exact Ha|].
  eapply lookup_lt_Some. exact Ha.
Qed.

Lemma edit_genes_never_writes_originals_witness :
  exists r w',
    edit_genes 1 [] [0%nat] [] [] two_lethals 7 1 "P" 1 1 "M" []
      (lone_bull [0; 0] [])
    = Ok r w'
    /\ heap w' !! 0%nat = Some (founder 1 0 "M" 0 10 [0; 0]).
Proof.
  assert (Hrun : exists r w',
             edit_genes 1 [] [0%nat] [] [] two_lethals 7 1 "P" 1 1 "M" []
               (lone_bull [0; 0] [])
             = Ok r w').
  { eexists _, _. vm_compute. reflexivity. }
  destruct Hrun as (r & w' & Hrun). exists r, w'. split; [exact Hrun|].
  apply (edit_genes_never_writes_originals _ _ _ _ _ _ _ _ _ _ _ _ _ _ _ _
           Hrun 0%nat).
  reflexivity.
Defined.

Lemma edit_one_lists fuel recessives generation edit_type edit_trials
    embryo_trials i animals dead nid st' w w' :
  edit_one fuel recessives generation edit_type edit_trials embryo_trials i
    (animals, dead, nid) w = Ok st' w' ->
  exists dead',
    st' = (animals ++ [length (heap w)], dead', nid + 1) /\
    (dead' = dead \/ dead' = dead ++ [length (heap w)]).
Proof.
  unfold edit_one. intros H.
  apply bind_Ok in H. destruct H as (orig & w1 & H1 & H).
  apply or_raise_Ok in H1. destruct H1 as [_ ->].
  apply bind_Ok in H. destruct H as (a & w1 & H1 & H).
  apply deref_Ok in H1. destruct H1 as [_ ->].
  apply bind_Ok in H. destruct H as (ed & w1 & H1 & H).
  apply alloc_Ok in H1. destruct H1 as [-> _].
  apply bind_Ok in H. destruct H as (u1 & w2 & _ & H).
  apply bind_Ok in H. destruct H as (u2 & w3 & _ & H).
  apply bind_Ok in H. destruct H as (last_rv & w4 & _ & H).
  apply bind_Ok in H. destruct H as (dead' & w5 & Hd & H).
  apply bind_Ok in H. destruct H as (u3 & w6 & _ & H).
  apply bind_Ok in H. destruct H as (u4 & w7 & _ & H).
  apply ret_Ok in H. destruct H as [-> _].
  exists dead'. split; [reflexivity|].
  clear -Hd. minv; auto.
Qed.

Lemma edit_fold_lists fuel recessives generation edit_type edit_trials
    embryo_trials ks :
  forall animals dead nid st' w w',
  fold_m (edit_one fuel recessives generation edit_type edit_trials
            embryo_trials) ks (animals, dead, nid) w = Ok st' w' ->
  exists dead',
    st' = (animals ++ seq (length (heap w)) (length ks), dead',
           nid + Z.of_nat (length ks)) /\
    dead `prefix_of` dead' /\
    length (heap w') = (length (heap w) + length ks)%nat.
Proof.
  induction ks as [|k ks IH]; intros animals dead nid st' w w' H;
    cbn [fold_m length] in *.
  - apply ret_Ok in H. destruct H as [-> ->]. exists dead. simpl.
    rewrite app_nil_r, Z.add_0_r, Nat.add_0_r. auto.
  - apply bind_Ok in H. destruct H as (st1 & w1 & H1 & H).
    pose proof (edit_one_spec _ _ _ _ _ _ _ _ _ _ _ H1) as (Hlen & _).
    apply edit_one_lists in H1. destruct H1 as (dead1 & -> & Hdead1).
    apply IH in H. destruct H as (dead' & -> & Hpre & Hlen').
    exists dead'. split.
    { replace (nid + Z.of_nat (S (length ks)))
        with (nid + 1 + Z.of_nat (length ks)) by lia.
      rewrite Hlen, <- app_assoc. reflexivity. }
    split; [|lia].
    destruct Hdead1 as [->| ->]; [exact Hpre|].
    etrans; [apply prefix_app_r; reflexivity|exact Hpre].
Qed.

(** X10. [edit_genes] changes the lists of one sex only.  The lists of
    the other sex are returned as they were passed; the live list of the
    edited sex comes back as a rearrangement of its animals together with
    every clone made during the call, whether its embryo transfer
    succeeded or not, and the dead list keeps its old entries in front. *)
Theorem edit_genes_lists fuel cows bulls dead_cows dead_bulls recessives
    generation edit_prop edit_type edit_trials embryo_trials edit_sex extras
    cows' bulls' dead_cows' dead_bulls' w w' :
  edit_genes fuel cows bulls dead_cows dead_bulls recessives generation
    edit_prop edit_type edit_trials embryo_trials edit_sex extras w
  = Ok (cows', bulls', dead_cows', dead_bulls') w' ->
  let clones := seq (length (heap w)) (length (heap w') - length (heap w)) in
  if String.eqb edit_sex "M"
  then cows' = cows /\ dead_cows' = dead_cows /\
       bulls' ≡ₚ bulls ++ clones /\ dead_bulls `prefix_of` dead_bulls'
  else bulls' = bulls /\ dead_bulls' = dead_bulls /\
       cows' ≡ₚ cows ++ clones /\ dead_cows `prefix_of` dead_cows'.
Proof.
  unfold edit_genes. intros H.
  apply bind_Ok in H. destruct H as (u & w1 & H1 & H).
  assert (w1 = w).
  { destruct (_ || _) in H1; [discriminate|].
    apply ret_Ok in H1. tauto. }
  subst w1. clear H1.
  apply bind_Ok in H. destruct H as (nid & w1 & H1 & H).
  apply get_next_id_pure in H1. subst w1.
  set (sx := if existsb (String.eqb edit_sex) ["M"; "F"] then edit_sex else "F") in *.
  assert (Hsx : String.eqb sx "M" = String.eqb edit_sex "M").
  { subst sx. cbn [existsb].
    destruct (String.eqb_spec edit_sex "M") as [->|HM]; [reflexivity|].
    destruct (String.eqb edit_sex "F"); cbn [orb];
      [apply String.eqb_neq; exact HM|reflexivity]. }
  rewrite Hsx in H.
  set (animals := if String.eqb edit_sex "M" then bulls else cows) in *.
  set (dead_animals := if String.eqb edit_sex "M" then dead_bulls else dead_cows) in *.
  apply bind_Ok in H. destruct H as (st & w1 & H1 & H).
  assert (Hloop : exists dead',
             st = (fst (fst st), dead', snd st) /\
             fst (fst st) ≡ₚ animals ++ seq (length (heap w))
                                       (length (heap w1) - length (heap w)) /\
             dead_animals `prefix_of` dead').
  { match type of H1 with (if ?c then _ else _) _ = _ => destruct c end.
    - apply bind_Ok in H1. destruct H1 as (sorted & w2 & H2 & H1).
      apply sort_on_perm in H2. destruct H2 as [-> Hperm].
      apply edit_fold_lists in H1. destruct H1 as (dead' & -> & Hpre & Hlen).
      exists dead'. simpl. split; [reflexivity|]. split; [|exact Hpre].
      rewrite Hperm, Hlen, (Nat.add_comm (length (heap w))), Nat.add_sub.
      reflexivity.
    - apply ret_Ok in H1. destruct H1 as [-> ->]. exists dead_animals.
      simpl. rewrite Nat.sub_diag. simpl. rewrite app_nil_r. auto. }
  destruct Hloop as (dead' & Hst & Hperm & Hpre).
  destruct st as [[animals1 dead1] nid1]. simpl in Hst, Hperm.
  injection Hst as ->.
  apply bind_Ok in H. destruct H as (sorted & w2 & H2 & H).
  apply sort_on_perm in H2. destruct H2 as [-> Hperm2].
  cbv zeta. subst animals dead_animals.
  destruct (String.eqb edit_sex "M"); apply ret_Ok in H; destruct H as [H ->];
    injection H as -> -> -> ->; repeat split; auto; etrans; eauto.
Qed.

Lemma edit_genes_lists_witness :
  exists bulls' dead_bulls' w',
    edit_genes 1 [] [0%nat] [] [] one_lethal 7 1 "C" 1 1 "M" []
      (lone_bull [0] [0; 1 # 2]%Q)
    = Ok ([], bulls', [], dead_bulls') w'
    /\ bulls' ≡ₚ [0; 1]%nat.
Proof.
  assert (Hrun : exists w',
             edit_genes 1 [] [0%nat] [] [] one_lethal 7 1 "C" 1 1 "M" []
               (lone_bull [0] [0; 1 # 2]%Q)
             = Ok ([], [0; 1]%nat, [], [1%nat]) w'
             /\ length (heap w') = 2%nat).
  { eexists. split; vm_compute; reflexivity. }
  destruct Hrun as (w' & Hrun & Hlen).
  exists [0; 1]%nat, [1%nat], w'. split; [exact Hrun|].
  pose proof (edit_genes_lists _ _ _ _ _ _ _ _ _ _ _ _ _ _ _ _ _ _ _ Hrun) as H.
  simpl in H. rewrite Hlen in H. simpl in H. tauto.
Defined.

(** ** Culling: [cull_bulls] (l.2377-2442) and [cull_cows] (l.2653-2780) *)

Lemma fold_m_prefix {A B} (body : A -> list B -> M (list B)) xs :
  (forall x s w s' w', body x s w = Ok s' w' -> s `prefix_of` s') ->
  forall s w s' w', fold_m body xs s w = Ok s' w' -> s `prefix_of` s'.
Proof.
  intros Hb. induction xs as [|x xs IH]; simpl; intros s w s' w' H.
  - apply ret_Ok in H. destruct H as [-> _]. reflexivity.
  - apply bind_Ok in H. destruct H as (s1 & w1 & H1 & H).
    etrans; [eapply Hb; exact H1|eapply IH; exact H].
Qed.

Lemma age_cull_prefix generation max_age animals dead dead' w w' :
  age_cull generation max_age animals dead w = Ok dead' w' ->
  dead `prefix_of` dead'.
Proof.
  unfold age_cull. apply fold_m_prefix.
  intros b s w0 s' w0' H.
  apply bind_Ok in H. destruct H as (a & w1 & _ & H).
  destruct (max_age <? generation - born a).
  - apply bind_Ok in H. destruct H as (u & w2 & _ & H).
    apply ret_Ok in H. destruct H as [-> _]. apply prefix_app_r. reflexivity.
  - apply ret_Ok in H. destruct H as [-> _]. reflexivity.
Qed.

(** X11. [cull_bulls] returns at most [max_bulls] live bulls (250 when
    the parameter is not positive); the survivors are bulls of the list
    that was passed, and the dead list keeps its old entries in front. *)
Theorem cull_bulls_respects_capacity bulls dead_bulls generation max_bulls
    max_bull_age bulls' dead_bulls' w w' :
  cull_bulls bulls dead_bulls generation max_bulls max_bull_age w
  = Ok (bulls', dead_bulls') w' ->
  Z.of_nat (length bulls') <= (if max_bulls <=? 0 then 250 else max_bulls) /\
  bulls' ⊆ bulls /\
  dead_bulls `prefix_of` dead_bulls'.
Proof.
  unfold cull_bulls. intros H.
  set (cap := if max_bulls <=? 0 then 250 else max_bulls) in *.
  assert (Hcap : 0 < cap) by (subst cap; destruct (Z.leb_spec max_bulls 0); lia).
  apply bind_Ok in H. destruct H as (dead1 & w1 & H1 & H).
  apply age_cull_prefix in H1.
  apply bind_Ok in H. destruct H as (kept & w2 & H2 & H).
  apply keep_alive_spec in H2. destruct H2 as (-> & Hsub & _).
  destruct (Z.leb_spec (Z.of_nat (length kept)) cap) as [Hle|Hgt].
  - apply ret_Ok in H. destruct H as [E _]. injection E as -> ->. auto.
  - apply bind_Ok in H. destruct H as (sorted & w2 & H2 & H).
    apply sort_on_perm in H2. destruct H2 as [-> Hperm].
    apply bind_Ok in H. destruct H as (dead2 & w2 & H2 & H).
    apply fold_m_prefix in H2.
    2:{ intros b s w0 s' w0' Hb.
        apply bind_Ok in Hb. destruct Hb as (u & w3 & _ & Hb).
        apply ret_Ok in Hb. destruct Hb as [-> _]. apply prefix_app_r. reflexivity. }
    apply ret_Ok in H. destruct H as [E _]. injection E as -> ->.
    pose proof (Permutation_length Hperm) as Hlen.
    split; [rewrite length_drop; lia|].
    split; [|etrans; eauto].
    etrans; [apply subseteq_drop|]. rewrite Hperm. exact Hsub.
Qed.

Lemma cull_bulls_respects_capacity_witness :
  exists bulls' dead_bulls' w',
    cull_bulls [0; 1]%nat [] 1 1 3 (small_world []) = Ok (bulls', dead_bulls') w'
    /\ Z.of_nat (length bulls') <= 1.
Proof.
  assert (Hrun : exists bulls' dead_bulls' w',
             cull_bulls [0; 1]%nat [] 1 1 3 (small_world [])
             = Ok (bulls', dead_bulls') w').
  { eexists _, _, _. vm_compute. reflexivity. }
  destruct Hrun as (bulls' & dead_bulls' & w' & Hrun).
  exists bulls', dead_bulls', w'. split; [exact Hrun|].
  exact (proj1 (cull_bulls_respects_capacity _ _ _ _ _ _ _ _ _ Hrun)).
Defined.

(** X12. After [cull_bulls] no bull of the returned live list is older
    than the [max_bull_age] that the routine was given, and no object of
    the store has changed its birth generation or come back to life. *)
Theorem cull_bulls_age_limit bulls dead_bulls generation max_bulls max_bull_age
    bulls' dead_bulls' w w' :
  cull_bulls bulls dead_bulls generation max_bulls max_bull_age w
  = Ok (bulls', dead_bulls') w' ->
  within_age generation max_bull_age bulls' w' /\ ages_kept w w'.
Proof.
  intros H. apply cull_bulls_within_age in H. tauto.
Qed.

Lemma cull_bulls_age_limit_witness :
  exists bulls' dead_bulls' w',
    cull_bulls [0; 1]%nat [] 2 10 1 (small_world []) = Ok (bulls', dead_bulls') w'
    /\ within_age 2 1 bulls' w'.
Proof.
  assert (Hrun : exists bulls' dead_bulls' w',
             cull_bulls [0; 1]%nat [] 2 10 1 (small_world [])
             = Ok (bulls', dead_bulls') w').
  { eexists _, _, _. vm_compute. reflexivity. }
  destruct Hrun as (bulls' & dead_bulls' & w' & Hrun).
  exists bulls', dead_bulls', w'. split; [exact Hrun|].
  exact (proj1 (cull_bulls_age_limit _ _ _ _ _ _ _ _ _ Hrun)).
Defined.

Lemma copy_to_dead_prefix {A} (xs : list A)
    (body : A -> list loc -> M (list loc)) :
  (forall x s w s' w', body x s w = Ok s' w' ->
     s' = s \/ exists cp, s' = s ++ [cp]) ->
  forall s w s' w', fold_m body xs s w = Ok s' w' -> s `prefix_of` s'.
Proof.
  intros Hb. apply fold_m_prefix. intros x s w s' w' H.
  destruct (Hb _ _ _ _ _ H) as [->|(cp & ->)];
    [reflexivity|apply prefix_app_r; reflexivity].
Qed.

Lemma mark_and_copy_lists code generation c (dead dead' : list loc) w w' :
  (mark_dead code generation c ;;
   a <- deref c ;;
   cp <- alloc a ;;
   ret (dead ++ [cp])) w = Ok dead' w' ->
  exists cp, dead' = dead ++ [cp].
Proof.
  intros H.
  apply bind_Ok in H. destruct H as (u & w1 & _ & H).
  apply bind_Ok in H. destruct H as (a & w2 & _ & H).
  apply bind_Ok in H. destruct H as (cp & w3 & _ & H).
  apply ret_Ok in H. destruct H as [-> _]. eauto.
Qed.

Lemma trim_herds_prefix generation base_herds max_herd_size cows dead_cows
    dead_cows' w w' :
  trim_herds generation base_herds max_herd_size cows dead_cows w
  = Ok dead_cows' w' ->
  dead_cows `prefix_of` dead_cows'.
Proof.
  unfold trim_herds. apply fold_m_prefix.
  intros h s w0 s' w0' H.
  apply bind_Ok in H. destruct H as (recs & w1 & _ & H).
  match type of H with (if ?c then _ else _) _ = _ => destruct c end.
  - revert H. apply copy_to_dead_prefix.
    intros c s0 w2 s1 w2' H.
    apply bind_Ok in H. destruct H as (hit & w3 & _ & H).
    destruct hit.
    + right. eapply mark_and_copy_lists. exact H.
    + apply ret_Ok in H. destruct H as [-> _]. auto.
  - apply ret_Ok in H. destruct H as [-> _]. reflexivity.
Qed.

Lemma cull_cows_lists cows dead_cows generation base_herds max_cows
    max_cow_age culling_rate cows' dead_cows' w w' :
  cull_cows cows dead_cows generation base_herds max_cows max_cow_age
    culling_rate w = Ok (cows', dead_cows') w' ->
  cows' ⊆ cows /\ dead_cows `prefix_of` dead_cows'.
Proof.
  unfold cull_cows. intros H.
  apply bind_Ok in H. destruct H as (dead1 & w1 & H1 & H).
  apply age_cull_prefix in H1.
  apply bind_Ok in H. destruct H as (kept1 & w2 & H2 & H).
  apply keep_alive_spec in H2. destruct H2 as (-> & Hsub1 & _).
  apply bind_Ok in H. destruct H as (dead2 & w2 & H2 & H).
  assert (P2 : dead1 `prefix_of` dead2).
  { match type of H2 with (if ?c then _ else _) _ = _ => destruct c end.
    - revert H2. apply copy_to_dead_prefix.
      intros c s w0 s' w0' Hc.
      apply bind_Ok in Hc. destruct Hc as (u & w3 & _ & Hc).
      match type of Hc with (if ?c then _ else _) _ = _ => destruct c end.
      + right. eapply mark_and_copy_lists. exact Hc.
      + apply ret_Ok in Hc. destruct Hc as [-> _]. auto.
    - apply ret_Ok in H2. destruct H2 as [-> _]. reflexivity. }
  clear H2.
  apply bind_Ok in H. destruct H as (kept2 & w3 & H3 & H).
  apply keep_alive_spec in H3. destruct H3 as (-> & Hsub2 & _).
  apply bind_Ok in H. destruct H as (shuffled & w3 & H3 & H).
  apply random_shuffle_spec in H3. destruct H3 as [_ Hsub3].
  assert (Hsub : shuffled ⊆ cows) by (etrans; [exact Hsub3|]; etrans; eauto).
  match type of H with (if ?c then _ else _) _ = _ => destruct c end.
  - apply ret_Ok in H. destruct H as [E _]. injection E as -> ->.
    split; [exact Hsub|]. etrans; eauto.
  - apply bind_Ok in H. destruct H as (u & w4 & _ & H).
    apply bind_Ok in H. destruct H as (dead3 & w5 & H4 & H).
    apply trim_herds_prefix in H4.
    apply bind_Ok in H. destruct H as (kept3 & w6 & H5 & H).
    apply keep_alive_spec in H5. destruct H5 as (-> & Hsub5 & _).
    apply ret_Ok in H. destruct H as [E _]. injection E as -> ->.
    split; [etrans; eauto|]. etrans; [exact H1|]. etrans; eauto.
Qed.

(** X13. After [cull_cows] no cow of the returned live list is older
    than [max_cow_age]; the survivors are cows of the list that was
    passed and the dead list keeps its old entries in front. *)
Theorem cull_cows_age_limit cows dead_cows generation base_herds max_cows
    max_cow_age culling_rate cows' dead_cows' w w' :
  cull_cows cows dead_cows generation base_herds max_cows max_cow_age
    culling_rate w = Ok (cows', dead_cows') w' ->
  within_age generation max_cow_age cows' w' /\
  cows' ⊆ cows /\
  dead_cows `prefix_of` dead_cows'.
Proof.
  intros H. pose proof (cull_cows_lists _ _ _ _ _ _ _ _ _ _ _ H) as [Hsub Hpre].
  apply cull_cows_within_age in H. tauto.
Qed.

Lemma cull_cows_age_limit_witness :
  exists cows' dead_cows' w',
    cull_cows [2; 3]%nat [] 2 1 0 1 0 (small_world []) = Ok (cows', dead_cows') w'
    /\ within_age 2 1 cows' w'.
Proof.
  assert (Hrun : exists cows' dead_cows' w',
             cull_cows [2; 3]%nat [] 2 1 0 1 0 (small_world [])
             = Ok (cows', dead_cows') w').
  { eexists _, _, _. vm_compute. reflexivity. }
  destruct Hrun as (cows' & dead_cows' & w' & Hrun).
  exists cows', dead_cows', w'. split; [exact Hrun|].
  exact (proj1 (cull_cows_age_limit _ _ _ _ _ _ _ _ _ _ _ Hrun)).
Defined.

(** X14. [cull_cows] divides by the number of herds whenever a cap on
    the number of cows is in force: with a positive [max_cows] and
    [base_herds = 0] it never returns. *)
Theorem cull_cows_needs_herds cows dead_cows generation max_cows max_cow_age
    culling_rate r w w' :
  0 < max_cows ->
  cull_cows cows dead_cows generation 0 max_cows max_cow_age culling_rate w
  <> Ok r w'.
Proof.
  intros Hpos H. unfold cull_cows in H.
  apply bind_Ok in H. destruct H as (dead1 & w1 & _ & H).
  apply bind_Ok in H. destruct H as (kept1 & w2 & _ & H).
  apply bind_Ok in H. destruct H as (dead2 & w3 & _ & H).
  apply bind_Ok in H. destruct H as (kept2 & w4 & _ & H).
  apply bind_Ok in H. destruct H as (shuffled & w5 & _ & H).
  destruct (Z.ltb_spec max_cows 0); [lia|].
  destruct (Z.eqb_spec max_cows 0); [lia|].
  apply bind_Ok in H. destruct H as (u & w6 & H & _).
  discriminate H.
Qed.

Lemma cull_cows_needs_herds_witness :
  cull_cows [2; 3]%nat [] 2 0 5 10 0 (small_world [])
  <> Ok ([2; 3]%nat, []) (small_world []).
Proof.
  apply (cull_cows_needs_herds [2; 3]%nat [] 2 5 10 0%Q ([2; 3]%nat, [])
           (small_world []) (small_world [])).
  lia.
Defined.

(** ** Allele frequencies: [update_maf] (l.2841-2924) *)

(** X15. With no live animal the total number of alleles is zero, and
    [update_maf] divides by it at the first recessive. *)
Theorem update_maf_empty_population generation recessives freq_hist w :
  recessives <> [] ->
  update_maf [] [] generation recessives freq_hist w = Raise ZeroDivisionError.
Proof.
  intros Hne. destruct recessives as [|[rk rv] rest]; [congruence|].
  unfold update_maf, bind. simpl. rewrite String.eqb_refl. reflexivity.
Qed.

Lemma update_maf_empty_population_witness :
  update_maf [] [] 5 one_lethal ∅ (small_world []) = Raise ZeroDivisionError.
Proof.
  apply (update_maf_empty_population 5 one_lethal ∅ (small_world [])).
  discriminate.
Defined.

(** A run of the loop over the loci that returns has found every locus
    in the genotype vector. *)
Lemma count_animal_Ok n a counts res w w' :
  length counts = n ->
  count_animal n a counts w = Ok res w' ->
  (n <= length (genotypes a))%nat /\ w' = w /\ length res = n /\
  forall r c, counts !! r = Some c -> res !! r = Some (c + copies_of a r).
Proof.
  intros Hlen H.
  destruct (le_lt_dec n (length (genotypes a))) as [Hle|Hlt].
  - destruct (count_animal_ok n a counts w Hlen Hle) as (res0 & Hrun & Hl & Hres).
    rewrite Hrun in H. injection H as <- <-. auto.
  - exfalso. unfold count_animal in H.
    replace n with (length (genotypes a) + S (n - S (length (genotypes a))))%nat
      in H by lia.
    rewrite seq_app, fold_m_app in H.
    apply bind_Ok in H. destruct H as (s1 & w1 & _ & H).
    simpl in H. apply bind_Ok in H. destruct H as (s2 & w2 & H & _).
    apply bind_Ok in H. destruct H as (g & w3 & H & _).
    rewrite (lookup_ge_None_2 (genotypes a)) in H by lia. discriminate H.
Qed.

Lemma count_animals_Ok n ls :
  forall counts res w w',
  length counts = n ->
  fold_m (fun b counts => a <- deref b ;; count_animal n a counts)
    ls counts w = Ok res w' ->
  w' = w /\ length res = n /\
  exists recs,
    records_of w ls recs /\
    forall r c, counts !! r = Some c -> res !! r = Some (c + copies_in recs r).
Proof.
  induction ls as [|l ls IH]; intros counts res w w' Hlen H; cbn [fold_m] in H.
  - apply ret_Ok in H. destruct H as [-> ->]. split; [reflexivity|].
    split; [exact Hlen|]. exists []. split; [constructor|].
    intros r c Hr. simpl. rewrite Z.add_0_r. exact Hr.
  - apply bind_Ok in H. destruct H as (c1 & w1 & H1 & H).
    apply bind_Ok in H1. destruct H1 as (a & w2 & Ha & H1).
    apply deref_Ok in Ha. destruct Ha as [Ha ->].
    apply (count_animal_Ok _ _ _ _ _ _ Hlen) in H1.
    destruct H1 as (_ & -> & Hlen1 & Hc1).
    apply (IH _ _ _ _ Hlen1) in H. destruct H as (-> & Hlen2 & recs & Hrecs & Hres).
    split; [reflexivity|]. split; [exact Hlen2|].
    exists (a :: recs). split; [constructor; assumption|].
    intros r c Hr. rewrite (Hres r _ (Hc1 r c Hr)). simpl. f_equal. lia.
Qed.

Lemma copies_in_bounds recs r : 0 <= copies_in recs r <= 2 * Z.of_nat (length recs).
Proof.
  induction recs as [|a recs IH]; simpl; [lia|].
  assert (0 <= copies_of a r <= 2); [|lia].
  unfold copies_of. destruct (genotypes a !! r) as [g|]; [|lia].
  destruct (Z.eqb_spec g 0), (Z.eqb_spec g (-1)); lia.
Qed.

Lemma store_frequency_same_locus rk v recs :
  Forall2 same_locus recs (store_frequency rk v recs).
Proof.
  induction recs as [|[k rv] recs IH]; simpl; [constructor|].
  destruct (String.eqb k rk).
  - constructor; [repeat split|]. apply Forall2_same_length_lookup.
    split; [reflexivity|]. intros i x y Hx Hy.
    assert (x = y) by congruence. subst y. repeat split.
  - constructor; [repeat split|exact IH].
Qed.

Lemma same_locus_trans a b c : same_locus a b -> same_locus b c -> same_locus a c.
Proof. unfold same_locus. intuition congruence. Qed.

Lemma ratio_in_unit_interval n t :
  0 <= n <= t -> 0 < t -> in_unit_interval (inject_Z n / inject_Z t).
Proof.
  intros Hn Ht. unfold in_unit_interval.
  assert (Hpos : (0 < inject_Z t)%Q) by (rewrite <- (Zlt_Qlt 0); exact Ht).
  split.
  - apply Qle_shift_div_l; [exact Hpos|]. rewrite Qmult_0_l.
    rewrite <- (Zle_Qle 0). lia.
  - apply Qle_shift_div_r; [exact Hpos|]. rewrite Qmult_1_l.
    rewrite <- Zle_Qle. lia.
Qed.

(** What holds of every run of [update_maf] that returns. *)
Lemma update_maf_Ok cows bulls generation recessives freq_hist recs' hist' w w' :
  update_maf cows bulls generation recessives freq_hist w = Ok (recs', hist') w' ->
  w' = w /\
  Forall2 same_locus recessives recs' /\
  (forall g, g <> generation -> hist' !! g = freq_hist !! g) /\
  exists freqs,
    hist' !! generation = Some freqs /\ Forall in_unit_interval freqs.
Proof.
  unfold update_maf. intros H.
  set (n := length (keys recessives)) in *.
  apply bind_Ok in H. destruct H as (counts1 & w1 & H1 & H).
  apply count_animals_Ok in H1; [|apply length_replicate].
  destruct H1 as (-> & Hlen1 & bull_recs & Hbulls & Hc1).
  apply bind_Ok in H. destruct H as (counts2 & w1 & H2 & H).
  apply count_animals_Ok in H2; [|exact Hlen1].
  destruct H2 as (-> & Hlen2 & cow_recs & Hcows & Hc2).
  pose proof (Forall2_length _ _ _ Hbulls) as Lb.
  pose proof (Forall2_length _ _ _ Hcows) as Lc.
  assert (Hcounts : forall r c, counts2 !! r = Some c ->
            0 <= c <= 2 * (Z.of_nat (length cows) + Z.of_nat (length bulls))).
  { intros r c Hr.
    assert (Hr0 : replicate n 0 !! r = Some 0).
    { apply lookup_replicate_2. apply lookup_lt_Some in Hr. lia. }
    rewrite (Hc2 r _ (Hc1 r 0 Hr0)) in Hr. injection Hr as <-.
    pose proof (copies_in_bounds bull_recs r).
    pose proof (copies_in_bounds cow_recs r). lia. }
  clear Hc1 Hc2 Hbulls Hcows.
  set (total := 2 * (Z.of_nat (length cows) + Z.of_nat (length bulls))) in *.
  revert H.
  apply (fold_m_inv
           (fun (st : list (string * recessive) * gmap Z (list Q)) w0 =>
              w0 = w /\
              Forall2 same_locus recessives (fst st) /\
              (forall g, g <> generation -> snd st !! g = freq_hist !! g) /\
              exists freqs,
                snd st !! generation = Some freqs /\
                Forall in_unit_interval freqs)).
  - intros item [recs hist] w0 [recs1 hist1] w0' _ (-> & Hsame & Hother & Hfreqs) Hb.
    simpl in Hsame, Hother, Hfreqs.
    apply bind_Ok in Hb. destruct Hb as (r & w2 & Hr & Hb).
    apply or_raise_Ok in Hr. destruct Hr as [_ ->].
    apply bind_Ok in Hb. destruct Hb as (c & w2 & Hc & Hb).
    apply or_raise_Ok in Hc. destruct Hc as [Hc ->].
    apply bind_Ok in Hb. destruct Hb as (u & w2 & Hz & Hb).
    destruct (Z.eqb_spec total 0) as [|Htot]; [discriminate Hz|].
    apply ret_Ok in Hz. destruct Hz as [_ ->].
    apply bind_Ok in Hb. destruct Hb as (u2 & w2 & Hl & Hb).
    assert (w2 = w).
    { destruct (lethal (snd item) =? 1); [|apply ret_Ok in Hl; tauto].
      destruct (Qeq_bool _ 0); [discriminate Hl|apply ret_Ok in Hl; tauto]. }
    subst w2. clear Hl.
    apply bind_Ok in Hb. destruct Hb as (entry & w2 & He & Hb).
    apply or_raise_Ok in He. destruct He as [He ->].
    apply ret_Ok in Hb. destruct Hb as [E ->]. injection E as -> ->.
    simpl. split; [reflexivity|]. split.
    { apply Forall2_same_length_lookup. split.
      - rewrite (Forall2_length _ _ _ Hsame).
        apply (Forall2_length _ _ _ (store_frequency_same_locus _ _ _)).
      - intros i x z Hx Hz.
        destruct (Forall2_lookup_l _ _ _ _ _ Hsame Hx) as (y & Hy & Hxy).
        destruct (Forall2_lookup_l _ _ _ _ _
                    (store_frequency_same_locus (fst item)
                       (inject_Z c / inject_Z total) recs) Hy)
          as (z' & Hz' & Hyz).
        assert (z' = z) by congruence. subst z'.
        eapply same_locus_trans; eauto. }
    split.
    { intros g Hg. rewrite lookup_insert_ne by congruence. auto. }
    destruct Hfreqs as (freqs & Hf & Hunit).
    assert (entry = freqs) by congruence. subst entry.
    exists (freqs ++ [(inject_Z c / inject_Z total)%Q]).
    split; [apply lookup_insert_eq|].
    apply Forall_app. split; [exact Hunit|]. constructor; [|constructor].
    apply ratio_in_unit_interval; [apply (Hcounts _ _ Hc)|].
    pose proof (Hcounts _ _ Hc). lia.
  - simpl. split; [reflexivity|]. split.
    { apply Forall2_same_length_lookup. split; [reflexivity|].
      intros i x y Hx Hy. assert (x = y) by congruence. subst y. repeat split. }
    split.
    { intros g Hg. rewrite lookup_insert_ne by congruence. reflexivity. }
    exists []. split; [apply lookup_insert_eq|constructor].
Qed.

(** X16. Every frequency that [update_maf] records for the current
    generation lies between 0 and 1. *)
Theorem update_maf_frequencies_in_unit_interval cows bulls generation
    recessives freq_hist recs' hist' w w' :
  update_maf cows bulls generation recessives freq_hist w = Ok (recs', hist') w' ->
  exists freqs,
    hist' !! generation = Some freqs /\ Forall in_unit_interval freqs.
Proof. intros H. apply update_maf_Ok in H. tauto. Qed.

Lemma update_maf_frequencies_in_unit_interval_witness :
  exists recs' hist' w' freqs,
    update_maf [2; 3]%nat [0; 1]%nat 5 one_lethal ∅ (small_world [])
    = Ok (recs', hist') w'
    /\ hist' !! 5 = Some freqs /\ Forall in_unit_interval freqs.
Proof.
  assert (Hrun : exists recs' hist' w',
             update_maf [2; 3]%nat [0; 1]%nat 5 one_lethal ∅ (small_world [])
             = Ok (recs', hist') w').
  { eexists _, _, _. vm_compute. reflexivity. }
  destruct Hrun as (recs' & hist' & w' & Hrun).
  destruct (update_maf_frequencies_in_unit_interval _ _ _ _ _ _ _ _ _ Hrun)
    as (freqs & Hf & Hu).
  exists recs', hist', w', freqs. auto.
Defined.

(** X17. [update_maf] reads the animals and writes nothing to them; in
    the recessives table it changes at most the frequencies, and in the
    frequency history only the entry of the current generation. *)
Theorem update_maf_frame cows bulls generation recessives freq_hist recs'
    hist' w w' :
  update_maf cows bulls generation recessives freq_hist w = Ok (recs', hist') w' ->
  w' = w /\
  Forall2 same_locus recessives recs' /\
  forall g, g <> generation -> hist' !! g = freq_hist !! g.
Proof. intros H. apply update_maf_Ok in H. tauto. Qed.

Lemma update_maf_frame_witness :
  exists recs' hist' w',
    update_maf [2; 3]%nat [0; 1]%nat 5 one_lethal {[4 := [1 # 2]%Q]}
      (small_world [])
    = Ok (recs', hist') w'
    /\ w' = small_world [] /\ hist' !! 4 = Some [1 # 2]%Q.
Proof.
  assert (Hrun : exists recs' hist' w',
             update_maf [2; 3]%nat [0; 1]%nat 5 one_lethal {[4 := [1 # 2]%Q]}
               (small_world [])
             = Ok (recs', hist') w').
  { eexists _, _, _. vm_compute. reflexivity. }
  destruct Hrun as (recs' & hist' & w' & Hrun).
  destruct (update_maf_frame _ _ _ _ _ _ _ _ _ Hrun) as (Hw & _ & Hh).
  exists recs', hist', w'. split; [exact Hrun|]. split; [exact Hw|].
  rewrite Hh by discriminate. reflexivity.
Defined.

(** ** Mating: [random_mating] (l.409-546) and [pryce_mating] (l.1416-1772) *)

(** X18. [random_mating] never reaches its mating loop.  After the
    table of matings is set up it calls [get_next_id] with [*args], and
    [args] is bound neither in the function, whose parameter is
    [extras], nor in the module: whatever the cows, the capacity, the
    loci and the table of coefficients, and for any bulls that are in
    the store, the call ends with a [NameError] on that name. *)
Theorem random_mating_stops_at_unbound_args fuel coi cows bulls dead_cows
    dead_bulls generation recessives max_matings calf_loss dehorning_loss
    harvest_beef extras w :
  Forall (fun b => is_Some (heap w !! b)) bulls ->
  random_mating fuel coi cows bulls dead_cows dead_bulls generation recessives
    max_matings calf_loss dehorning_loss harvest_beef extras w
  = Raise (NameError "args").
Proof.
  intros Hbulls. destruct (init_matings_total _ _ Hbulls) as [matings Hm].
  unfold random_mating. cbv zeta.
  eapply bind_Ok_intro; [exact Hm|]. reflexivity.
Qed.

Lemma random_mating_stops_at_unbound_args_witness :
  Forall (fun b => is_Some (heap retired_cow_world !! b)) [0%nat]
  /\ random_mating 5 ∅ [1%nat] [0%nat] [] [] 1 one_lethal 10 0 0 0 []
       retired_cow_world
     = Raise (NameError "args").
Proof.
  assert (Hbulls : Forall (fun b => is_Some (heap retired_cow_world !! b))
                     [0%nat]).
  { repeat constructor. eexists. reflexivity. }
  split; [exact Hbulls|].
  exact (random_mating_stops_at_unbound_args 5 ∅ [1%nat] [0%nat] [] [] 1
           one_lethal 10 0 0 0 [] retired_cow_world Hbulls).
Defined.

(** X19. Filing the newborns splits them by their status: the live list
    receives, in birth order, those recorded alive and the dead list all
    others; no newborn is dropped or filed twice, and the store is only
    read. *)
Theorem file_newborns_partitions news :
  forall live dead live' dead' w w',
  file_newborns news (live, dead) w = Ok (live', dead') w' ->
  w' = w /\
  live' = live ++ filter (fun l => alive <$> heap w !! l = Some "A") news /\
  dead' = dead ++ filter (fun l => alive <$> heap w !! l <> Some "A") news.
Proof.
  unfold file_newborns.
  induction news as [|n news IH]; intros live dead live' dead' w w' H;
    cbn [fold_m] in H.
  - apply ret_Ok in H. destruct H as [E ->]. injection E as -> ->.
    rewrite !filter_nil, !app_nil_r. auto.
  - apply bind_Ok in H. destruct H as (st & w1 & H1 & H).
    apply bind_Ok in H1. destruct H1 as (a & w2 & Ha & H1).
    apply deref_Ok in Ha. destruct Ha as [Ha ->].
    rewrite !filter_cons, Ha. simpl.
    destruct (String.eqb_spec (alive a) "A") as [EA|EA];
      apply ret_Ok in H1; destruct H1 as [-> ->]; simpl in H;
      apply IH in H; destruct H as (-> & -> & ->).
    + rewrite decide_True by congruence.
      rewrite decide_False by (intros Hn; apply Hn; congruence).
      rewrite <- app_assoc. auto.
    + rewrite decide_False by congruence.
      rewrite decide_True by congruence.
      rewrite <- app_assoc. auto.
Qed.

Lemma file_newborns_partitions_witness :
  exists live' dead' w',
    file_newborns [1; 0]%nat ([], [])
      (mkWorld [founder 1 0 "M" 0 10 [0];
                set_alive "D" (founder 3 0 "F" 0 5 [0])] (tape []) 0)
    = Ok (live', dead') w'
    /\ live' = [0%nat] /\ dead' = [1%nat].
Proof.
  assert (Hrun : exists live' dead' w',
             file_newborns [1; 0]%nat ([], [])
               (mkWorld [founder 1 0 "M" 0 10 [0];
                         set_alive "D" (founder 3 0 "F" 0 5 [0])] (tape []) 0)
             = Ok (live', dead') w').
  { eexists _, _, _. vm_compute. reflexivity. }
  destruct Hrun as (live' & dead' & w' & Hrun).
  exists live', dead', w'. split; [exact Hrun|].
  destruct (file_newborns_partitions _ _ _ _ _ _ _ Hrun) as (_ & -> & ->).
  split; reflexivity.
Defined.

(** X20. The recessive adjustment of a cell of [b_mat] does not depend
    on which of the two genotypes is the bull's and which the cow's. *)
Theorem locus_adjust_symmetric carrier_penalty b_gt c_gt v cell :
  locus_adjust carrier_penalty b_gt c_gt v cell
  = locus_adjust carrier_penalty c_gt b_gt v cell.
Proof.
  unfold locus_adjust.
  destruct (Z.eqb_spec b_gt (-1)), (Z.eqb_spec b_gt 1), (Z.eqb_spec b_gt 0),
    (Z.eqb_spec c_gt (-1)), (Z.eqb_spec c_gt 1), (Z.eqb_spec c_gt 0);
    simpl; try reflexivity; lia.
Qed.

Lemma locus_adjust_never_rewards carrier_penalty b_gt c_gt v cell :
  (0 <= v)%Q -> (locus_adjust carrier_penalty b_gt c_gt v cell <= cell)%Q.
Proof.
  intros Hv. unfold locus_adjust.
  assert (H4 : (0 <= (1 # 4) * v)%Q) by (apply Qmult_le_0_compat; [discriminate|exact Hv]).
  assert (H2 : (0 <= (1 # 2) * v)%Q) by (apply Qmult_le_0_compat; [discriminate|exact Hv]).
  assert (Hsub : forall d, (0 <= d)%Q -> (cell - d <= cell)%Q).
  { intros d Hd. rewrite <- (Qplus_0_r cell) at 2. unfold Qminus.
    apply Qplus_le_r. apply (Qopp_le_compat 0 d) in Hd. exact Hd. }
  repeat match goal with
         | |- context [if ?c then _ else _] => destruct c
         end;
    try apply Qle_refl; apply Hsub; try assumption.
  rewrite <- (Qplus_0_r 0). apply Qplus_le_compat; assumption.
Qed.

Lemma adjust_loop_lowers recessives carrier_penalty b c items :
  Forall (fun item : string * recessive => (0 <= value (snd item))%Q) items ->
  forall cell v w w',
  fold_m (fun (item : string * recessive) (cell : Q) =>
            r <- or_raise ValueError
                   (index_of String.eqb (fst item) (keys recessives)) ;;
            b_gt <- or_raise IndexError (genotypes b !! r) ;;
            c_gt <- or_raise IndexError (genotypes c !! r) ;;
            ret (locus_adjust carrier_penalty b_gt c_gt (value (snd item)) cell))
    items cell w = Ok v w' ->
  (v <= cell)%Q.
Proof.
  induction 1 as [|item items Hitem Hitems IH]; intros cell v w w' H;
    cbn [fold_m] in H.
  - apply ret_Ok in H. destruct H as [-> _]. apply Qle_refl.
  - apply bind_Ok in H. destruct H as (cell1 & w1 & H1 & H).
    apply bind_Ok in H1. destruct H1 as (r & w2 & _ & H1).
    apply bind_Ok in H1. destruct H1 as (bg & w3 & _ & H1).
    apply bind_Ok in H1. destruct H1 as (cg & w4 & _ & H1).
    apply ret_Ok in H1. destruct H1 as [-> _].
    apply IH in H. eapply Qle_trans; [exact H|].
    apply locus_adjust_never_rewards. exact Hitem.
Qed.

(** X21. With the recessive penalty switched on, the value of a mating
    is the parent average less the inbreeding discount, lowered further
    by the loci: when no locus has a negative economic value, the cell is
    never above the value that the same mating has without the penalty. *)
Theorem mating_value_penalty_lowers recessives inbr flambda carrier_penalty
    b c v w w' :
  Forall (fun item : string * recessive => (0 <= value (snd item))%Q) recessives ->
  mating_value recessives inbr flambda true carrier_penalty b c w = Ok v w' ->
  exists v0,
    mating_value recessives inbr flambda false carrier_penalty b c w = Ok v0 w /\
    (v <= v0)%Q.
Proof.
  unfold mating_value. intros Hval H.
  apply bind_Ok in H. destruct H as (f & w1 & Hf & H).
  apply or_raise_Ok in Hf. destruct Hf as [Hf ->].
  exists ((1 # 2) * (tbv b + tbv c) - f * 100 * flambda)%Q.
  split; [unfold bind; rewrite Hf; reflexivity|].
  eapply adjust_loop_lowers; [exact Hval|exact H].
Qed.

Lemma mating_value_penalty_lowers_witness :
  exists v v0,
    mating_value horned_only (inbr small_portfolios) 25 true true
      (founder 1 0 "M" 0 10 [0]) (founder 3 0 "F" 0 5 [-1]) (small_world [])
    = Ok v (small_world [])
    /\ mating_value horned_only (inbr small_portfolios) 25 false true
         (founder 1 0 "M" 0 10 [0]) (founder 3 0 "F" 0 5 [-1]) (small_world [])
       = Ok v0 (small_world [])
    /\ (v <= v0)%Q.
Proof.
  assert (Hrun : exists v,
             mating_value horned_only (inbr small_portfolios) 25 true true
               (founder 1 0 "M" 0 10 [0]) (founder 3 0 "F" 0 5 [-1])
               (small_world [])
             = Ok v (small_world [])).
  { eexists. vm_compute. reflexivity. }
  destruct Hrun as (v & Hrun).
  destruct (mating_value_penalty_lowers horned_only (inbr small_portfolios) 25
              true _ _ v _ _ ltac:(repeat constructor; discriminate) Hrun)
    as (v0 & H0 & Hle).
  exists v, v0. auto.
Defined.

(** ** Selecting animals: [fetch_ages] (l.1875-1929) and
       [fetch_rec_and_age] (l.1774-1873) *)

(** A loop that reads each animal and appends the reference of those
    that satisfy [P]. *)
Lemma select_loop (P : animal_record -> Prop)
    (body : loc -> list loc -> M (list loc)) ls :
  (forall l acc acc' w w', body l acc w = Ok acc' w' ->
     w' = w /\ exists a, heap w !! l = Some a /\
       ((acc' = acc ++ [l] /\ P a) \/ (acc' = acc /\ ~ P a))) ->
  forall acc res w w', fold_m body ls acc w = Ok res w' ->
  w' = w /\ exists sel, res = acc ++ sel /\ animals_where P w ls sel.
Proof.
  intros Hbody. induction ls as [|l ls IH]; intros acc res w w' H;
    cbn [fold_m] in H.
  - apply ret_Ok in H. destruct H as [-> ->]. split; [reflexivity|].
    exists []. rewrite app_nil_r. split; [reflexivity|]. split; [reflexivity|].
    intros x. split; [intros Hx|intros [Hx _]]; apply elem_of_nil in Hx;
      contradiction.
  - apply bind_Ok in H. destruct H as (acc1 & w1 & H1 & H).
    apply Hbody in H1. destruct H1 as (-> & a & Ha & Hsel).
    apply IH in H. destruct H as (-> & sel & -> & Hsub & Hmem).
    split; [reflexivity|].
    destruct Hsel as [[-> HP]|[-> HP]].
    + exists (l :: sel). rewrite <- app_assoc. split; [reflexivity|].
      split; [apply sublist_skip; exact Hsub|].
      intros x. rewrite !elem_of_cons, Hmem. split.
      * intros [->|[Hx Hp]]; [split; [left; reflexivity|eauto]|tauto].
      * intros [[->|Hx] Hp]; [left; reflexivity|right; split; assumption].
    + exists sel. split; [reflexivity|].
      split; [apply sublist_cons; exact Hsub|].
      intros x. rewrite elem_of_cons, Hmem. split.
      * intros [Hx Hp]. split; [right; exact Hx|exact Hp].
      * intros [[->|Hx] Hp]; [|split; assumption].
        destruct Hp as (a' & Ha' & HP'). exfalso. apply HP. congruence.
Qed.

Lemma mating_age_tests generation bma cma a :
  (String.eqb (sex a) "M" && (bma <=? generation - born a)
   || String.eqb (sex a) "F" && (cma <=? generation - born a)) = true
  <-> of_mating_age generation bma cma a.
Proof.
  unfold of_mating_age.
  rewrite orb_true_iff, !andb_true_iff, !String.eqb_eq, !Z.leb_le. reflexivity.
Qed.

(** X22. [fetch_ages] returns, in the order of the list it was given,
    exactly the bulls that are at least [bull_mating_age] and the cows
    that are at least [cow_mating_age] generations old; animals with any
    other sex code are never returned, and the store is only read. *)
Theorem fetch_ages_selects animal_list generation bull_mating_age
    cow_mating_age aged w w' :
  fetch_ages animal_list generation bull_mating_age cow_mating_age w
  = Ok aged w' ->
  w' = w /\
  animals_where (of_mating_age generation bull_mating_age cow_mating_age) w
    animal_list aged.
Proof.
  unfold fetch_ages. intros H.
  destruct animal_list as [|l0 ls0] eqn:El.
  - simpl in H. apply ret_Ok in H. destruct H as [-> ->].
    split; [reflexivity|]. split; [reflexivity|].
    intros x. split; [intros Hx|intros [Hx _]]; apply elem_of_nil in Hx;
      contradiction.
  - rewrite <- El in *. replace (length animal_list <? 1)%nat with false in H
      by (subst animal_list; reflexivity).
    eapply (select_loop
              (of_mating_age generation bull_mating_age cow_mating_age)) in H.
    + destruct H as (-> & sel & -> & Hsel). split; [reflexivity|exact Hsel].
    + clear. intros l acc acc' w w' H.
      apply bind_Ok in H. destruct H as (a & w1 & Ha & H).
      apply deref_Ok in Ha. destruct Ha as [Ha ->].
      pose proof (mating_age_tests generation bull_mating_age cow_mating_age a)
        as Hiff.
      destruct (String.eqb (sex a) "M" && (bull_mating_age <=? generation - born a)).
      { apply ret_Ok in H. destruct H as [-> ->]. split; [reflexivity|].
        exists a. split; [exact Ha|]. left. split; [reflexivity|].
        apply Hiff. reflexivity. }
      destruct (String.eqb (sex a) "F" && (cow_mating_age <=? generation - born a)).
      { apply ret_Ok in H. destruct H as [-> ->]. split; [reflexivity|].
        exists a. split; [exact Ha|]. left. split; [reflexivity|].
        apply Hiff. reflexivity. }
      apply ret_Ok in H. destruct H as [-> ->]. split; [reflexivity|].
      exists a. split; [exact Ha|]. right. split; [reflexivity|].
      intros HP. apply Hiff in HP. discriminate HP.
Qed.

Lemma fetch_ages_selects_witness :
  exists aged,
    fetch_ages [0; 1; 2; 3]%nat 2 2 3 (small_world []) = Ok aged (small_world [])
    /\ animals_where (of_mating_age 2 2 3) (small_world []) [0; 1; 2; 3]%nat aged.
Proof.
  assert (Hrun : exists aged,
             fetch_ages [0; 1; 2; 3]%nat 2 2 3 (small_world [])
             = Ok aged (small_world [])).
  { eexists. vm_compute. reflexivity. }
  destruct Hrun as (aged & Hrun). exists aged. split; [exact Hrun|].
  exact (proj2 (fetch_ages_selects _ _ _ _ _ _ _ Hrun)).
Defined.

Lemma select_by_copies_spec rec_loc copies l a acc acc' w w' :
  select_by_copies rec_loc copies l a acc w = Ok acc' w' ->
  w' = w /\
  exists g, genotypes a !! rec_loc = Some g /\
    ((acc' = acc ++ [l] /\ g ∈ genotypes_wanted copies) \/
     (acc' = acc /\ g ∉ genotypes_wanted copies)).
Proof.
  unfold select_by_copies. intros H.
  apply bind_Ok in H. destruct H as (g & w1 & Hg & H).
  apply or_raise_Ok in Hg. destruct Hg as [Hg ->].
  assert (Hsel : (acc' = acc ++ [l] \/ acc' = acc) /\ w' = w /\
                 (acc' = acc ++ [l] <-> g ∈ genotypes_wanted copies)).
  { assert (Hne : acc ++ [l] <> acc).
    { intros E. apply (f_equal length) in E. rewrite length_app in E.
      simpl in E. lia. }
    unfold genotypes_wanted.
    destruct (Z.eqb_spec g 1), (Z.eqb_spec g 0), (Z.eqb_spec g (-1));
      try lia;
      destruct (Z.eqb_spec copies 0), (Z.eqb_spec copies 1),
        (Z.eqb_spec copies 2), (Z.eqb_spec copies 4), (Z.eqb_spec copies 5),
        (Z.eqb_spec copies 6); try lia;
      simpl in H; apply ret_Ok in H; destruct H as [-> ->];
      (split; [auto|]); (split; [reflexivity|]);
      rewrite ?elem_of_cons, ?elem_of_nil;
      (split; [intros E; try (symmetry in E; contradiction); lia
              |intros E; try reflexivity; exfalso; lia]). }
  destruct Hsel as (Hcases & -> & Hiff). split; [reflexivity|].
  exists g. split; [exact Hg|].
  destruct Hcases as [E|E].
  - left. split; [exact E|]. apply Hiff. exact E.
  - right. split; [exact E|]. intros Hin. apply Hiff in Hin.
    rewrite E in Hin. apply (f_equal length) in Hin. rewrite length_app in Hin.
    simpl in Hin. lia.
Qed.

Lemma existsb_string_index x l :
  existsb (String.eqb x) l = true -> exists n, index_of String.eqb x l = Some n.
Proof.
  induction l as [|y l IH]; simpl; [discriminate|].
  rewrite (String.eqb_sym x y).
  destruct (String.eqb y x); [eauto|]. simpl. intros H.
  destruct (IH H) as (n & ->). simpl. eauto.
Qed.

(** X23. [fetch_rec_and_age] returns, in the order of the list, exactly
    the animals of mating age whose genotype at the requested recessive
    is one that [copies] asks for: AA for 0, Aa for 1, aa for 2, AA or Aa
    for 4, aa or Aa for 5 and AA or aa for 6.  For any other value of
    [copies], and for a recessive that is not in the table, the result is
    empty. *)
Theorem fetch_rec_and_age_selects animal_list generation get_recessive
    recessives bull_mating_age cow_mating_age copies selected w w' :
  fetch_rec_and_age animal_list generation get_recessive recessives
    bull_mating_age cow_mating_age copies w = Ok selected w' ->
  w' = w /\
  match index_of String.eqb get_recessive (keys recessives) with
  | Some rec_loc =>
      animals_where
        (fun a => of_mating_age generation bull_mating_age cow_mating_age a /\
                  exists g, genotypes a !! rec_loc = Some g /\
                            g ∈ genotypes_wanted copies)
        w animal_list selected
  | None => selected = []
  end.
Proof.
  unfold fetch_rec_and_age. intros H.
  assert (Hnil : forall P, (forall a, P a -> exists g : Z, g ∈ genotypes_wanted copies) ->
                 (animal_list = [] \/ genotypes_wanted copies = []) ->
                 animals_where P w animal_list []).
  { intros P HP Hcase. split; [apply sublist_nil_l|].
    intros x. split; [intros Hx; apply elem_of_nil in Hx; contradiction|].
    intros [Hx (a & _ & Ha)]. destruct Hcase as [->| E].
    - exact Hx.
    - destruct (HP _ Ha) as (g & Hg). rewrite E in Hg.
      apply elem_of_nil in Hg. contradiction. }
  destruct (length animal_list <? 1)%nat eqn:Elen.
  { apply ret_Ok in H. destruct H as [-> ->]. split; [reflexivity|].
    destruct (index_of _ _ _); [|reflexivity].
    apply Hnil; [intros a (_ & g & _ & Hg); eauto|].
    left. destruct animal_list; [reflexivity|discriminate Elen]. }
  destruct (existsb (String.eqb get_recessive) (keys recessives)) eqn:Ekey;
    cbn [negb] in H.
  2:{ apply ret_Ok in H. destruct H as [-> ->]. split; [reflexivity|].
      destruct (index_of String.eqb get_recessive (keys recessives)) as [n|] eqn:En;
        [|reflexivity].
      exfalso. clear -Ekey En. revert n En.
      induction (keys recessives) as [|y l IH]; simpl; intros n En;
        [discriminate|].
      simpl in Ekey. rewrite (String.eqb_sym get_recessive y) in Ekey.
      destruct (String.eqb y get_recessive); [discriminate|]. simpl in Ekey.
      destruct (index_of String.eqb get_recessive l); [|discriminate].
      eapply IH; eauto. }
  destruct (existsb_string_index _ _ Ekey) as (rec_loc & Hloc). rewrite Hloc in *.
  destruct (existsb (Z.eqb copies) [0; 1; 2; 4; 5; 6]) eqn:Ecopies;
    cbn [negb] in H.
  2:{ apply ret_Ok in H. destruct H as [-> ->]. split; [reflexivity|].
      apply Hnil; [intros a (_ & g & _ & Hg); eauto|]. right.
      unfold genotypes_wanted. simpl in Ecopies.
      destruct (Z.eqb_spec copies 0), (Z.eqb_spec copies 1),
        (Z.eqb_spec copies 2), (Z.eqb_spec copies 4), (Z.eqb_spec copies 5),
        (Z.eqb_spec copies 6); try discriminate Ecopies; reflexivity. }
  apply bind_Ok in H. destruct H as (r & w1 & Hr & H).
  apply or_raise_Ok in Hr. destruct Hr as [Hr ->]. injection Hr as <-.
  eapply (select_loop
            (fun a => of_mating_age generation bull_mating_age cow_mating_age a /\
                      exists g, genotypes a !! rec_loc = Some g /\
                                g ∈ genotypes_wanted copies)) in H.
  - destruct H as (-> & sel & -> & Hsel). split; [reflexivity|exact Hsel].
  - clear. intros l acc acc' w w' H.
    apply bind_Ok in H. destruct H as (a & w1 & Ha & H).
    apply deref_Ok in Ha. destruct Ha as [Ha ->].
    pose proof (mating_age_tests generation bull_mating_age cow_mating_age a)
      as Hiff.
    assert (Hold : select_by_copies rec_loc copies l a acc w = Ok acc' w' ->
                   of_mating_age generation bull_mating_age cow_mating_age a ->
                   w' = w /\ exists a0, heap w !! l = Some a0 /\
                     ((acc' = acc ++ [l] /\
                       of_mating_age generation bull_mating_age cow_mating_age a0 /\
                       exists g, genotypes a0 !! rec_loc = Some g /\
                                 g ∈ genotypes_wanted copies) \/
                      (acc' = acc /\
                       ~ (of_mating_age generation bull_mating_age cow_mating_age a0 /\
                          exists g, genotypes a0 !! rec_loc = Some g /\
                                    g ∈ genotypes_wanted copies)))).
    { intros Hs Hage. apply select_by_copies_spec in Hs.
      destruct Hs as (-> & g & Hg & Hcase). split; [reflexivity|].
      exists a. split; [exact Ha|].
      destruct Hcase as [[-> Hin]|[-> Hout]]; [left; eauto|right].
      split; [reflexivity|]. intros (_ & g' & Hg' & Hin).
      apply Hout. congruence. }
    destruct (String.eqb (sex a) "M" && (bull_mating_age <=? generation - born a)).
    { apply Hold; [exact H|]. apply Hiff. reflexivity. }
    destruct (String.eqb (sex a) "F" && (cow_mating_age <=? generation - born a)).
    { apply Hold; [exact H|]. apply Hiff. reflexivity. }
    apply ret_Ok in H. destruct H as [-> ->]. split; [reflexivity|].
    exists a. split; [exact Ha|]. right. split; [reflexivity|].
    intros (HP & _). apply Hiff in HP. discriminate HP.
Qed.

Lemma fetch_rec_and_age_selects_witness :
  exists selected,
    fetch_rec_and_age [0; 1; 2; 3]%nat 2 "HH1" one_lethal 2 2 4 (small_world [])
    = Ok selected (small_world [])
    /\ animals_where
         (fun a => of_mating_age 2 2 2 a /\
                   exists g, genotypes a !! 0%nat = Some g /\
                             g ∈ genotypes_wanted 4)
         (small_world []) [0; 1; 2; 3]%nat selected.
Proof.
  assert (Hrun : exists selected,
             fetch_rec_and_age [0; 1; 2; 3]%nat 2 "HH1" one_lethal 2 2 4
               (small_world [])
             = Ok selected (small_world [])).
  { eexists. vm_compute. reflexivity. }
  destruct Hrun as (selected & Hrun). exists selected. split; [exact Hrun|].
  exact (proj2 (fetch_rec_and_age_selects _ _ _ _ _ _ _ _ _ _ Hrun)).
Defined.

Lemma select_loops_nested (body1 body2 : loc -> list loc -> M (list loc)) ls :
  (forall l acc1 acc1' acc2 acc2' w w1 w2,
     body1 l acc1 w = Ok acc1' w1 -> body2 l acc2 w = Ok acc2' w2 ->
     w1 = w /\ w2 = w /\
     ((acc1' = acc1 /\ (acc2' = acc2 \/ acc2' = acc2 ++ [l])) \/
      (acc1' = acc1 ++ [l] /\ acc2' = acc2 ++ [l]))) ->
  forall acc1 acc2 res1 res2 w w1 w2,
  fold_m body1 ls acc1 w = Ok res1 w1 ->
  fold_m body2 ls acc2 w = Ok res2 w2 ->
  exists s1 s2, res1 = acc1 ++ s1 /\ res2 = acc2 ++ s2 /\ s1 `sublist_of` s2.
Proof.
  intros Hbody. induction ls as [|l ls IH];
    intros acc1 acc2 res1 res2 w w1 w2 H1 H2; cbn [fold_m] in H1, H2.
  - apply ret_Ok in H1, H2. destruct H1 as [-> _], H2 as [-> _].
    exists [], []. rewrite !app_nil_r. auto.
  - apply bind_Ok in H1. destruct H1 as (a1 & wa & Hb1 & H1).
    apply bind_Ok in H2. destruct H2 as (a2 & wb & Hb2 & H2).
    destruct (Hbody _ _ _ _ _ _ _ _ Hb1 Hb2) as (-> & -> & Hcase).
    destruct (IH _ _ _ _ _ _ _ H1 H2) as (s1 & s2 & -> & -> & Hsub).
    destruct Hcase as [[-> [->| ->]]|[-> ->]].
    + exists s1, s2. auto.
    + exists s1, (l :: s2). rewrite <- app_assoc. repeat split.
      apply sublist_cons. exact Hsub.
    + exists (l :: s1), (l :: s2). rewrite <- !app_assoc. repeat split.
      apply sublist_skip. exact Hsub.
Qed.

(** X24. Selecting on a recessive never widens the selection on age:
    whatever [fetch_rec_and_age] returns is, in the same order, part of
    what [fetch_ages] returns for the same list and the same mating
    ages. *)
Theorem fetch_rec_and_age_within_fetch_ages animal_list generation
    get_recessive recessives bull_mating_age cow_mating_age copies selected
    aged w w1 w2 :
  fetch_rec_and_age animal_list generation get_recessive recessives
    bull_mating_age cow_mating_age copies w = Ok selected w1 ->
  fetch_ages animal_list generation bull_mating_age cow_mating_age w
  = Ok aged w2 ->
  selected `sublist_of` aged.
Proof.
  unfold fetch_rec_and_age, fetch_ages. intros H1 H2.
  destruct (length animal_list <? 1)%nat.
  { apply ret_Ok in H1. destruct H1 as [-> _]. apply sublist_nil_l. }
  destruct (negb (existsb (String.eqb get_recessive) (keys recessives))).
  { apply ret_Ok in H1. destruct H1 as [-> _]. apply sublist_nil_l. }
  destruct (negb (existsb (Z.eqb copies) [0; 1; 2; 4; 5; 6])).
  { apply ret_Ok in H1. destruct H1 as [-> _]. apply sublist_nil_l. }
  apply bind_Ok in H1. destruct H1 as (rec_loc & w3 & Hr & H1).
  apply or_raise_Ok in Hr. destruct Hr as [_ ->].
  edestruct select_loops_nested as (s1 & s2 & E1 & E2 & Hsub);
    [|exact H1|exact H2|simpl in E1, E2; subst; exact Hsub].
  clear. intros l acc1 acc1' acc2 acc2' w w1 w2 Hb1 Hb2.
  apply bind_Ok in Hb1. destruct Hb1 as (a & wa & Ha & Hb1).
  apply deref_Ok in Ha. destruct Ha as [Ha ->].
  apply bind_Ok in Hb2. destruct Hb2 as (a' & wb & Ha' & Hb2).
  apply deref_Ok in Ha'. destruct Ha' as [Ha' ->].
  assert (a' = a) by congruence. subst a'.
  assert (Hsel : forall acc', select_by_copies rec_loc copies l a acc1 w = Ok acc' w1 ->
                 w1 = w /\ (acc' = acc1 \/ acc' = acc1 ++ [l])).
  { intros acc' Hs. apply select_by_copies_spec in Hs.
    destruct Hs as (-> & g & _ & [[-> _]|[-> _]]); auto. }
  destruct (String.eqb (sex a) "M" && (bull_mating_age <=? generation - born a)).
  { apply ret_Ok in Hb2. destruct Hb2 as [-> ->].
    destruct (Hsel _ Hb1) as (Hw & Hc). split; [exact Hw|].
    split; [reflexivity|]. destruct Hc as [Hc|Hc]; [left|right]; auto. }
  destruct (String.eqb (sex a) "F" && (cow_mating_age <=? generation - born a)).
  { apply ret_Ok in Hb2. destruct Hb2 as [-> ->].
    destruct (Hsel _ Hb1) as (Hw & Hc). split; [exact Hw|].
    split; [reflexivity|]. destruct Hc as [Hc|Hc]; [left|right]; auto. }
  apply ret_Ok in Hb1, Hb2. destruct Hb1 as [-> ->], Hb2 as [-> ->].
  split; [reflexivity|]. split; [reflexivity|]. left. auto.
Qed.

Lemma fetch_rec_and_age_within_fetch_ages_witness :
  exists selected aged,
    fetch_rec_and_age [0; 1; 2; 3]%nat 2 "HH1" one_lethal 2 2 0 (small_world [])
    = Ok selected (small_world [])
    /\ fetch_ages [0; 1; 2; 3]%nat 2 2 2 (small_world [])
       = Ok aged (small_world [])
    /\ selected `sublist_of` aged.
Proof.
  assert (Hrun : exists selected aged,
             fetch_rec_and_age [0; 1; 2; 3]%nat 2 "HH1" one_lethal 2 2 0
               (small_world [])
             = Ok selected (small_world [])
             /\ fetch_ages [0; 1; 2; 3]%nat 2 2 2 (small_world [])
                = Ok aged (small_world [])).
  { eexists _, _. split; vm_compute; reflexivity. }
  destruct Hrun as (selected & aged & H1 & H2).
  exists selected, aged. split; [exact H1|]. split; [exact H2|].
  exact (fetch_rec_and_age_within_fetch_ages _ _ _ _ _ _ _ _ _ _ _ _ H1 H2).
Defined.

(** ** Herds and ages: [get_unique_herd_list] (l.2448-2467) and
       [age_distn] (l.2617-2643) *)

Lemma existsb_Zeqb x l : existsb (Z.eqb x) l = true <-> x ∈ l.
Proof.
  induction l as [|y l IH]; simpl.
  - split; [discriminate|]. intros H. apply elem_of_nil in H. contradiction.
  - rewrite orb_true_iff, IH, elem_of_cons, Z.eqb_eq. reflexivity.
Qed.

Lemma herd_loop animals :
  forall acc res w w',
  NoDup acc ->
  fold_m (fun l herd_list =>
            a <- deref l ;;
            if negb (existsb (Z.eqb (herd a)) herd_list)
            then ret (herd_list ++ [herd a])
            else ret herd_list)
    animals acc w = Ok res w' ->
  w' = w /\ NoDup res /\
  forall h, h ∈ res <->
    h ∈ acc \/ exists l a, l ∈ animals /\ heap w !! l = Some a /\ herd a = h.
Proof.
  induction animals as [|l ls IH]; intros acc res w w' Hnd H; cbn [fold_m] in H.
  - apply ret_Ok in H. destruct H as [-> ->]. split; [reflexivity|].
    split; [exact Hnd|]. intros h. split; [auto|].
    intros [Hh|(l & a & Hl & _)]; [exact Hh|].
    apply elem_of_nil in Hl. contradiction.
  - apply bind_Ok in H. destruct H as (acc1 & w1 & H1 & H).
    apply bind_Ok in H1. destruct H1 as (a & w2 & Ha & H1).
    apply deref_Ok in Ha. destruct Ha as [Ha ->].
    destruct (existsb (Z.eqb (herd a)) acc) eqn:E; cbn [negb] in H1;
      apply ret_Ok in H1; destruct H1 as [-> ->].
    + apply existsb_Zeqb in E.
      apply (IH _ _ _ _ Hnd) in H. destruct H as (-> & Hnd' & Hmem).
      split; [reflexivity|]. split; [exact Hnd'|].
      intros h. rewrite Hmem. split.
      * intros [Hh|(l' & a' & Hl' & Ha' & Hh)]; [auto|].
        right. exists l', a'. rewrite elem_of_cons. auto.
      * intros [Hh|(l' & a' & Hl' & Ha' & Hh)]; [auto|].
        apply elem_of_cons in Hl'. destruct Hl' as [->|Hl'].
        -- left. assert (a' = a) by congruence. subst. exact E.
        -- right. eauto.
    + assert (Hfresh : herd a ∉ acc).
      { intros Hin. apply existsb_Zeqb in Hin. congruence. }
      assert (Hnd1 : NoDup (acc ++ [herd a])).
      { apply NoDup_app. split; [exact Hnd|]. split.
        - intros x Hx Hx'. apply list_elem_of_singleton in Hx'. subst. auto.
        - apply NoDup_singleton. }
      apply (IH _ _ _ _ Hnd1) in H. destruct H as (-> & Hnd' & Hmem).
      split; [reflexivity|]. split; [exact Hnd'|].
      intros h. rewrite Hmem, elem_of_app, list_elem_of_singleton. split.
      * intros [[Hh| ->]|(l' & a' & Hl' & Ha' & Hh)]; [auto| |].
        -- right. exists l, a. rewrite elem_of_cons. auto.
        -- right. exists l', a'. rewrite elem_of_cons. auto.
      * intros [Hh|(l' & a' & Hl' & Ha' & Hh)]; [auto|].
        apply elem_of_cons in Hl'. destruct Hl' as [->|Hl'].
        -- left. right. congruence.
        -- right. eauto.
Qed.

(** X25. [get_unique_herd_list] returns every herd id that occurs among
    the animals, each one once, and nothing else; the store is only
    read. *)
Theorem get_unique_herd_list_spec animals herd_list w w' :
  get_unique_herd_list animals w = Ok herd_list w' ->
  w' = w /\ NoDup herd_list /\
  forall h, h ∈ herd_list <->
    exists l a, l ∈ animals /\ heap w !! l = Some a /\ herd a = h.
Proof.
  unfold get_unique_herd_list. intros H.
  apply herd_loop in H; [|apply NoDup_nil_2].
  destruct H as (-> & Hnd & Hmem). split; [reflexivity|]. split; [exact Hnd|].
  intros h. rewrite Hmem. split; [|auto].
  intros [Hh|Hh]; [apply elem_of_nil in Hh; contradiction|exact Hh].
Qed.

Lemma get_unique_herd_list_spec_witness :
  exists herd_list,
    get_unique_herd_list [0; 1; 2; 3]%nat (small_world [])
    = Ok herd_list (small_world [])
    /\ NoDup herd_list.
Proof.
  assert (Hrun : exists herd_list,
             get_unique_herd_list [0; 1; 2; 3]%nat (small_world [])
             = Ok herd_list (small_world [])).
  { eexists. vm_compute. reflexivity. }
  destruct Hrun as (herd_list & Hrun). exists herd_list. split; [exact Hrun|].
  exact (proj1 (proj2 (get_unique_herd_list_spec _ _ _ _ Hrun))).
Defined.

Lemma aged_exactly_snoc w generation k pre l a :
  heap w !! l = Some a ->
  aged_exactly w generation k (pre ++ [l])
  = (aged_exactly w generation k pre
     + if decide (k = generation - born a)%Z then 1 else 0)%nat.
Proof.
  intros Ha. unfold aged_exactly.
  rewrite filter_app, length_app, filter_cons, filter_nil, Ha. simpl.
  destruct (decide (k = generation - born a)) as [->|Hne].
  - rewrite decide_True by (f_equal; lia). reflexivity.
  - rewrite decide_False; [reflexivity|]. intros E. injection E as E. lia.
Qed.

Lemma age_loop generation ls :
  forall pre ages0 ages w w',
  (forall k, ages0 !! k =
     if decide (aged_exactly w generation k pre = 0)%nat then None
     else Some (Z.of_nat (aged_exactly w generation k pre))) ->
  fold_m (fun l (ages : gmap Z Z) =>
            a <- deref l ;;
            let age := generation - born a in
            let ages := match ages !! age with
                        | None => <[age := 0]> ages
                        | Some _ => ages
                        end in
            n <- or_raise KeyError (ages !! age) ;;
            ret (<[age := n + 1]> ages))
    ls ages0 w = Ok ages w' ->
  w' = w /\
  forall k, ages !! k =
    if decide (aged_exactly w generation k (pre ++ ls) = 0)%nat then None
    else Some (Z.of_nat (aged_exactly w generation k (pre ++ ls))).
Proof.
  induction ls as [|l ls IH]; intros pre ages0 ages w w' Hinv H;
    cbn [fold_m] in H.
  - apply ret_Ok in H. destruct H as [-> ->]. rewrite app_nil_r. auto.
  - apply bind_Ok in H. destruct H as (ages1 & w1 & H1 & H).
    apply bind_Ok in H1. destruct H1 as (a & w2 & Ha & H1).
    apply deref_Ok in Ha. destruct Ha as [Ha ->].
    cbv zeta in H1.
    apply bind_Ok in H1. destruct H1 as (n & w2 & Hn & H1).
    apply or_raise_Ok in Hn. destruct Hn as [Hn ->].
    apply ret_Ok in H1. destruct H1 as [-> ->].
    replace (pre ++ l :: ls) with ((pre ++ [l]) ++ ls)
      by (rewrite <- app_assoc; reflexivity).
    eapply IH; [|exact H].
    intros k. rewrite (aged_exactly_snoc _ _ _ _ _ _ Ha).
    pose proof (Hinv (generation - born a)) as Hage.
    destruct (decide (k = generation - born a)) as [->|Hne].
    + rewrite lookup_insert_eq.
      rewrite decide_False by lia. f_equal.
      destruct (decide (aged_exactly w generation (generation - born a) pre = 0)%nat)
        as [E|E]; rewrite Hage in Hn.
      * rewrite lookup_insert_eq in Hn. injection Hn as <-. lia.
      * rewrite Hage in Hn. injection Hn as <-. lia.
    + rewrite lookup_insert_ne by congruence.
      rewrite Nat.add_0_r, <- Hinv.
      destruct (ages0 !! (generation - born a));
        [reflexivity|apply lookup_insert_ne; congruence].
Qed.

(** X26. The table that [age_distn] returns has a key for exactly the
    ages that occur among the animals, and under each key the number of
    animals of that age. *)
Theorem age_distn_counts animals generation ages w w' :
  age_distn animals generation w = Ok ages w' ->
  w' = w /\
  forall k, ages !! k =
    if decide (aged_exactly w generation k animals = 0)%nat then None
    else Some (Z.of_nat (aged_exactly w generation k animals)).
Proof.
  unfold age_distn. intros H.
  apply (age_loop generation animals []) in H; [exact H|].
  intros k. rewrite lookup_empty. reflexivity.
Qed.

Lemma age_distn_counts_witness :
  exists ages,
    age_distn [0; 1; 2; 3]%nat 2 (small_world []) = Ok ages (small_world [])
    /\ ages !! 2 = Some 4 /\ ages !! 1 = None.
Proof.
  assert (Hrun : exists ages,
             age_distn [0; 1; 2; 3]%nat 2 (small_world [])
             = Ok ages (small_world [])).
  { eexists. vm_compute. reflexivity. }
  destruct Hrun as (ages & Hrun). exists ages. split; [exact Hrun|].
  destruct (age_distn_counts _ _ _ _ _ Hrun) as [_ Hk].
  split; rewrite Hk; reflexivity.
Defined.

(** ** Truncation mating: [truncation_mating] (l.564-716) *)

Lemma mate_with_top_bull_never_returns fuel recessives generation calf_loss
    dehorning_loss harvest_beef bulls b2k c st w r w' :
  mate_with_top_bull fuel recessives generation calf_loss dehorning_loss
    harvest_beef bulls b2k c st w <> Ok r w'.
Proof.
  destruct fuel as [|fuel]; simpl; [discriminate|].
  intros H. minv.
Qed.

Lemma truncation_mating_loop fuel recessives generation calf_loss
    dehorning_loss harvest_beef bulls b2k cows :
  forall st st' w w',
  fold_m (fun c st =>
            cow_r <- deref c ;;
            if String.eqb (alive cow_r) "A" then
              st' <- mate_with_top_bull fuel recessives generation calf_loss
                       dehorning_loss harvest_beef bulls b2k c st ;;
              cow <- unbound_name "cow" ;;
              modify cow (set_bred 1) ;;
              ret st'
            else ret st)
    cows st w = Ok st' w' ->
  w' = w /\ st' = st /\
  Forall (fun c => exists a, heap w !! c = Some a /\ alive a <> "A") cows.
Proof.
  induction cows as [|c cows IH]; simpl; intros st st' w w' H.
  - apply ret_Ok in H. destruct H as [-> ->]. auto.
  - apply bind_Ok in H. destruct H as (st1 & w1 & H1 & H).
    apply bind_Ok in H1. destruct H1 as (cow_r & w0 & Hd & H1).
    apply deref_Ok in Hd. destruct Hd as [Hc ->].
    destruct (String.eqb_spec (alive cow_r) "A") as [Ha|Ha].
    + apply bind_Ok in H1. destruct H1 as (st2 & w2 & Hm & _).
      exfalso. eapply mate_with_top_bull_never_returns. exact Hm.
    + apply ret_Ok in H1. destruct H1 as [-> ->].
      apply IH in H. destruct H as (-> & -> & Hall).
      repeat split. constructor; eauto.
Qed.

(** X27. [truncation_mating] never returns.  A cow that is alive stops
    the mating loop, whose body writes through the unbound name [cow];
    and when the loop is survived, the closing call of
    [compute_inbreeding] is made without proxy matings, so that its dict
    [matings] is never created: the call raises [UnboundLocalError] at
    the first live bull, and at its [return] statement otherwise.  With
    one live bull and no live cow the run ends with that error, with
    two live bulls and two live cows it ends with the [NameError]. *)
Theorem truncation_mating_never_returns :
  (forall fuel coi cows bulls dead_cows dead_bulls generation recessives pct
          calf_loss dehorning_loss harvest_beef extras w,
      returns (truncation_mating fuel coi cows bulls dead_cows dead_bulls
                 generation recessives pct calf_loss dehorning_loss
                 harvest_beef extras w) = false)
  /\ truncation_mating 5 ∅ [1%nat] [0%nat] [] [] 1 one_lethal (1 # 2) 0 0 0 []
       retired_cow_world
     = Raise (UnboundLocalError "matings")
  /\ truncation_mating 5 ∅ [2; 3]%nat [0; 1]%nat [] [] 1 one_lethal (1 # 2)
       0 0 0 [] (small_world [])
     = Raise (NameError "cow").
Proof.
  split; [|split; vm_compute; reflexivity].
  intros until w.
  destruct (truncation_mating _ _ _ _ _ _ _ _ _ _ _ _ _ _) as [r w'| |] eqn:E;
    [exfalso|reflexivity|reflexivity].
  unfold truncation_mating in E. cbv zeta in E.
  apply bind_Ok in E. destruct E as (sorted & w1 & _ & E).
  apply bind_Ok in E. destruct E as (nid & w2 & _ & E).
  apply bind_Ok in E. destruct E as (st & w3 & _ & E).
  destruct st as [[new_cows new_bulls] nid'].
  apply bind_Ok in E. destruct E as (cs & w4 & _ & E).
  apply bind_Ok in E. destruct E as (bs & w5 & _ & E).
  exact (compute_inbreeding_unproxied_never_returns _ _ _ _ _ _ _ _ E).
Qed.

(** ** The count of bred and open cows: [run_scenario] (l.4240-4256) *)

Lemma count_bred_loop generation cow_mating_age (w0 : world) cows :
  forall pre b o r b' o' r' w w',
  length (heap w) = length (heap w0) ->
  (forall l a, heap w0 !! l = Some a ->
     heap w !! l =
     Some (if decide (l ∈ pre /\ generation - born a < cow_mating_age)
           then set_bred 3 a else a)) ->
  fold_m (fun c (st : Z * Z * Z) =>
            let '(bred_cows, open_cows, replacements) := st in
            a <- deref c ;;
            let age := generation - born a in
            if age <? cow_mating_age then
              modify c (set_bred 3) ;;
              ret (bred_cows, open_cows, replacements + 1)
            else if cow_mating_age <=? age then
              a <- deref c ;;
              if bred a =? 1 then ret (bred_cows + 1, open_cows, replacements)
              else ret (bred_cows, open_cows + 1, replacements)
            else ret (bred_cows, open_cows, replacements))
    cows (b, o, r) w = Ok (b', o', r') w' ->
  b' + o' + r' = b + o + r + Z.of_nat (length cows) /\
  b <= b' /\ o <= o' /\ r <= r' /\
  forall l a, heap w0 !! l = Some a ->
    heap w' !! l =
    Some (if decide (l ∈ pre ++ cows /\ generation - born a < cow_mating_age)
          then set_bred 3 a else a).
Proof.
  induction cows as [|c cows IH]; intros pre b o r b' o' r' w w' Hlen Hinv H;
    cbn [fold_m] in H.
  - apply ret_Ok in H. destruct H as [E ->]. injection E as -> -> ->.
    rewrite app_nil_r. simpl. repeat split; try lia. exact Hinv.
  - apply bind_Ok in H. destruct H as ([[b1 o1] r1] & w1 & H1 & H).
    apply bind_Ok in H1. destruct H1 as (ac & w2 & Hc & H1).
    apply deref_Ok in Hc. destruct Hc as [Hc ->].
    destruct (lookup_lt_is_Some_2 (heap w0) c) as [a0 Ha0].
    { rewrite <- Hlen. eapply lookup_lt_Some. exact Hc. }
    pose proof (Hinv _ _ Ha0) as Hc0. rewrite Hc in Hc0. injection Hc0 as Hac.
    assert (Hborn : born ac = born a0).
    { rewrite Hac. destruct (decide _); reflexivity. }
    cbv zeta in H1. rewrite Hborn in H1.
    assert (Hstep : b1 + o1 + r1 = b + o + r + 1 /\ b <= b1 /\ o <= o1 /\ r <= r1 /\
              length (heap w1) = length (heap w0) /\
              forall l a, heap w0 !! l = Some a ->
                heap w1 !! l =
                Some (if decide (l ∈ pre ++ [c] /\
                                 generation - born a < cow_mating_age)
                      then set_bred 3 a else a)).
    { destruct (Z.ltb_spec (generation - born a0) cow_mating_age) as [Hy|Hy].
      - apply bind_Ok in H1. destruct H1 as (u & w3 & Hm & H1).
        apply ret_Ok in H1. destruct H1 as [E ->]. injection E as -> -> ->.
        apply modify_Ok in Hm. destruct Hm as (ac' & Hc' & ->). simpl.
        assert (ac' = ac) by congruence. subst ac'.
        repeat split; try lia.
        + rewrite length_insert. exact Hlen.
        + intros l a Ha. destruct (decide (l = c)) as [->|Hne].
          * assert (a = a0) by congruence. subst a.
            rewrite list_lookup_insert_eq by (eapply lookup_lt_Some; exact Hc).
            rewrite decide_True
              by (split; [apply elem_of_app; right;
                          apply list_elem_of_singleton; reflexivity|lia]).
            rewrite Hac. destruct (decide _); reflexivity.
          * rewrite list_lookup_insert_ne by congruence.
            rewrite (Hinv _ _ Ha).
            destruct (decide (l ∈ pre /\ _)) as [D|D],
              (decide (l ∈ pre ++ [c] /\ _)) as [D'|D']; try reflexivity;
              exfalso.
            -- apply D'. destruct D as [Hin Hage].
               split; [apply elem_of_app; left; exact Hin|exact Hage].
            -- destruct D' as [Hin Hage]. apply elem_of_app in Hin.
               destruct Hin as [Hin|Hin]; [apply D; split; assumption|].
               apply list_elem_of_singleton in Hin. congruence.
      - destruct (Z.leb_spec cow_mating_age (generation - born a0)); [|lia].
        apply bind_Ok in H1. destruct H1 as (ac' & w3 & Hc' & H1).
        apply deref_Ok in Hc'. destruct Hc' as [_ ->].
        assert (Hst : b1 + o1 + r1 = b + o + r + 1 /\
                      b <= b1 /\ o <= o1 /\ r <= r1 /\ w1 = w).
        { destruct (bred ac' =? 1); apply ret_Ok in H1; destruct H1 as [E ->];
            injection E as -> -> ->; repeat split; lia. }
        destruct Hst as (? & ? & ? & ? & ->). repeat split; try assumption.
        intros l a Ha. rewrite (Hinv _ _ Ha).
        destruct (decide (l ∈ pre /\ _)) as [D|D],
          (decide (l ∈ pre ++ [c] /\ _)) as [D'|D']; try reflexivity;
          exfalso.
        + apply D'. destruct D as [Hin Hage].
          split; [apply elem_of_app; left; exact Hin|exact Hage].
        + destruct D' as [Hin Hage]. apply elem_of_app in Hin.
          destruct Hin as [Hin|Hin]; [tauto|].
          apply list_elem_of_singleton in Hin. subst l.
          assert (a = a0) by congruence. subst a. lia. }
    destruct Hstep as (Hsum & Hb & Ho & Hr & Hlen1 & Hinv1).
    apply (IH (pre ++ [c]) _ _ _ _ _ _ _ _ Hlen1 Hinv1) in H.
    destruct H as (Hsum' & Hb' & Ho' & Hr' & Hfin).
    rewrite <- app_assoc in Hfin. simpl in Hfin.
    repeat split; try lia; [|exact Hfin].
    rewrite Hsum', Hsum. simpl length. lia.
Qed.

(** X28. The loop of [run_scenario] that counts bred cows, open cows
    and replacements puts every cow of the list in exactly one of the
    three counts; the only change it makes to the store is the flag
    [bred = 3] on the cows younger than [cow_mating_age]. *)
Theorem count_bred_cows_partitions cows generation cow_mating_age bred_cows
    open_cows replacements w w' :
  count_bred_cows cows generation cow_mating_age w
  = Ok (bred_cows, open_cows, replacements) w' ->
  bred_cows + open_cows + replacements = Z.of_nat (length cows) /\
  0 <= bred_cows /\ 0 <= open_cows /\ 0 <= replacements /\
  forall l a, heap w !! l = Some a ->
    heap w' !! l =
    Some (if decide (l ∈ cows /\ generation - born a < cow_mating_age)
          then set_bred 3 a else a).
Proof.
  unfold count_bred_cows. intros H.
  apply (count_bred_loop generation cow_mating_age w cows []) in H.
  - simpl in H. destruct H as (Hsum & Hb & Ho & Hr & Hfin).
    repeat split; try lia. exact Hfin.
  - reflexivity.
  - intros l a Ha. rewrite Ha. rewrite decide_False; [reflexivity|].
    intros [Hin _]. apply elem_of_nil in Hin. exact Hin.
Qed.

Lemma count_bred_cows_partitions_witness :
  exists bred_cows open_cows replacements w',
    count_bred_cows [2; 3]%nat 2 3 (small_world [])
    = Ok (bred_cows, open_cows, replacements) w'
    /\ bred_cows + open_cows + replacements = 2.
Proof.
  assert (Hrun : exists bred_cows open_cows replacements w',
             count_bred_cows [2; 3]%nat 2 3 (small_world [])
             = Ok (bred_cows, open_cows, replacements) w').
  { eexists _, _, _, _. vm_compute. reflexivity. }
  destruct Hrun as (b & o & r & w' & Hrun). exists b, o, r, w'.
  split; [exact Hrun|].
  exact (proj1 (count_bred_cows_partitions _ _ _ _ _ _ _ _ Hrun)).
Defined.

(** ** Bull portfolios: [get_herd_bulls] (l.1101-1409) *)

Lemma swap_perm {A} i j (l : list A) : swap i j l ≡ₚ l.
Proof.
  unfold swap. destruct (l !! i) as [xi|] eqn:Ei; [|reflexivity].
  destruct (l !! j) as [xj|] eqn:Ej; [|reflexivity].
  pose proof (lookup_lt_Some _ _ _ Ei) as Li.
  pose proof (lookup_lt_Some _ _ _ Ej) as Lj.
  symmetry. apply Permutation_inj. split; [rewrite !length_insert; reflexivity|].
  exists (fun k => if decide (k = i) then j else if decide (k = j) then i else k).
  split.
  - intros a b. repeat case_decide; intros; subst; congruence.
  - intros k. destruct (decide (k = i)) as [->|Hki].
    + rewrite list_lookup_insert_eq by (rewrite length_insert; lia). exact Ei.
    + destruct (decide (k = j)) as [->|Hkj].
      * rewrite list_lookup_insert_ne by congruence.
        rewrite list_lookup_insert_eq by lia. exact Ej.
      * rewrite !list_lookup_insert_ne by congruence. reflexivity.
Qed.

Lemma random_shuffle_perm {A} (l : list A) w :
  exists l' w', random_shuffle l w = Ok l' w' /\ heap w' = heap w /\ l' ≡ₚ l.
Proof.
  unfold random_shuffle. generalize (rev (seq 1 (length l - 1))) as idx.
  intros idx. revert l w.
  induction idx as [|i idx IH]; intros l w; cbn [fold_m].
  - exists l, w. split; [reflexivity|]. split; reflexivity.
  - unfold bind at 1. unfold bind at 1. unfold random_uniform01, bind, next_draw, ret.
    simpl.
    match goal with
    | |- context [fold_m ?f idx ?l1 ?w1] =>
        destruct (IH l1 w1) as (l' & w' & Hrun & Hheap & Hperm)
    end.
    exists l', w'. split; [exact Hrun|]. split; [exact Hheap|].
    rewrite Hperm. apply swap_perm.
Qed.

Lemma reads_store_ret {A} (a : A) : reads_store (ret a).
Proof. intros w1 w2 _. simpl. auto. Qed.

Lemma reads_store_bind {A B} (m : M A) (k : A -> M B) :
  reads_store m -> (forall a, reads_store (k a)) -> reads_store (bind m k).
Proof.
  intros Hm Hk w1 w2 Hh. unfold bind. specialize (Hm w1 w2 Hh).
  destruct (m w1) as [a w1'| |].
  - destruct Hm as [-> Hm]. rewrite Hm. apply Hk. exact Hh.
  - rewrite Hm. reflexivity.
  - rewrite Hm. reflexivity.
Qed.

Lemma reads_store_deref l : reads_store (deref l).
Proof.
  intros w1 w2 Hh. unfold deref. rewrite <- Hh.
  destruct (heap w1 !! l); auto.
Qed.

Lemma reads_store_fold {A S} (body : A -> S -> M S) xs :
  (forall x s, reads_store (body x s)) -> forall s, reads_store (fold_m body xs s).
Proof.
  intros Hb. induction xs as [|x xs IH]; intros s; cbn [fold_m].
  - apply reads_store_ret.
  - apply reads_store_bind; [apply Hb|exact IH].
Qed.

Lemma reads_store_Ok {A} (m : M A) a w w' :
  reads_store m -> m w = Ok a w' ->
  w' = w /\ forall w2, heap w2 = heap w -> m w2 = Ok a w2.
Proof.
  intros Hm H. pose proof (Hm w w eq_refl) as Hw. rewrite H in Hw.
  destruct Hw as [-> _]. split; [reflexivity|].
  intros w2 Hh. specialize (Hm w w2 (eq_sym Hh)). rewrite H in Hm. tauto.
Qed.

Lemma get_unique_herd_list_reads animals : reads_store (get_unique_herd_list animals).
Proof.
  apply reads_store_fold. intros l s.
  apply reads_store_bind; [apply reads_store_deref|].
  intros a. destruct (negb _); apply reads_store_ret.
Qed.

Lemma fetch_ages_reads animal_list generation bma cma :
  reads_store (fetch_ages animal_list generation bma cma).
Proof.
  unfold fetch_ages. destruct (_ <? _)%nat; [apply reads_store_ret|].
  apply reads_store_fold. intros l s.
  apply reads_store_bind; [apply reads_store_deref|].
  intros a. cbv zeta. repeat (destruct (_ && _); [apply reads_store_ret|]).
  apply reads_store_ret.
Qed.

Lemma not_used_reads bull_used animals : reads_store (not_used bull_used animals).
Proof.
  apply reads_store_fold. intros l s.
  apply reads_store_bind; [apply reads_store_deref|].
  intros a. destruct (negb _); apply reads_store_ret.
Qed.

Lemma not_used_spec bull_used animals kept w w' :
  not_used bull_used animals w = Ok kept w' ->
  animals_where (fun a => animal a ∉ bull_used) w animals kept.
Proof.
  unfold not_used. intros H.
  eapply (select_loop (fun a => animal a ∉ bull_used)) in H.
  - destruct H as (_ & sel & -> & Hsel). exact Hsel.
  - clear. intros l acc acc' w w' H.
    apply bind_Ok in H. destruct H as (a & w1 & Ha & H).
    apply deref_Ok in Ha. destruct Ha as [Ha ->].
    destruct (existsb (Z.eqb (animal a)) bull_used) eqn:E; cbn [negb] in H;
      apply ret_Ok in H; destruct H as [-> ->]; (split; [reflexivity|]);
      exists a; (split; [exact Ha|]).
    + right. split; [reflexivity|]. intros Hn. apply Hn.
      apply existsb_Zeqb. exact E.
    + left. split; [reflexivity|]. intros Hin.
      apply existsb_Zeqb in Hin. congruence.
Qed.

Lemma slice_to_sublist {A} k (l : list A) : slice_to k l `sublist_of` l.
Proof. unfold slice_to. destruct (k <? 0); apply sublist_take. Qed.

Lemma random_portfolio_reads bull_unique bull_used aged_bulls bulls_per_herd
    remainder_herds herd_counter service_bulls :
  reads_store (random_portfolio bull_unique bull_used aged_bulls bulls_per_herd
                 remainder_herds herd_counter service_bulls).
Proof.
  unfold random_portfolio.
  destruct bull_unique.
  - destruct (bulls_per_herd <? service_bulls).
    + apply reads_store_bind.
      * destruct (herd_counter <? remainder_herds); [|apply reads_store_ret].
        apply reads_store_bind; [apply not_used_reads|].
        intros unused. apply reads_store_ret.
      * intros hb. destruct (remainder_herds <=? herd_counter);
          [|apply reads_store_ret].
        apply reads_store_bind; [apply not_used_reads|].
        intros unused. apply reads_store_ret.
    + apply reads_store_bind; [apply not_used_reads|].
      intros unused. apply reads_store_ret.
  - destruct (_ <? service_bulls); apply reads_store_ret.
Qed.

Lemma random_portfolio_spec bull_unique bull_used aged_bulls bulls_per_herd
    remainder_herds herd_counter service_bulls herd_bulls w w' :
  random_portfolio bull_unique bull_used aged_bulls bulls_per_herd
    remainder_herds herd_counter service_bulls w = Ok herd_bulls w' ->
  w' = w /\
  herd_bulls `sublist_of` aged_bulls /\
  (bull_unique = true ->
   Forall (fun l => exists a, heap w !! l = Some a /\ animal a ∉ bull_used)
     herd_bulls).
Proof.
  unfold random_portfolio. intros H.
  assert (Hun : forall k unused w0 w1,
            not_used bull_used aged_bulls w0 = Ok unused w1 ->
            w1 = w0 /\ slice_to k unused `sublist_of` aged_bulls /\
            Forall (fun l => exists a, heap w0 !! l = Some a /\
                                       animal a ∉ bull_used)
              (slice_to k unused)).
  { intros k unused w0 w1 Hu.
    pose proof (reads_store_Ok _ _ _ _ (not_used_reads _ _) Hu) as [-> _].
    apply not_used_spec in Hu. destruct Hu as [Hsub Hmem].
    split; [reflexivity|]. split; [etrans; [apply slice_to_sublist|exact Hsub]|].
    apply Forall_forall. intros l Hl.
    apply (sublist_subseteq _ _ (slice_to_sublist k unused)) in Hl.
    apply Hmem in Hl. tauto. }
  destruct bull_unique.
  - destruct (bulls_per_herd <? service_bulls).
    + apply bind_Ok in H. destruct H as (hb & w1 & H1 & H).
      assert (Hw1 : w1 = w /\ ((herd_counter <? remainder_herds) = true ->
                hb `sublist_of` aged_bulls /\
                Forall (fun l => exists a, heap w !! l = Some a /\
                                           animal a ∉ bull_used) hb)).
      { destruct (herd_counter <? remainder_herds).
        - apply bind_Ok in H1. destruct H1 as (unused & w2 & Hu & H1).
          apply (Hun (bulls_per_herd + 1)) in Hu. destruct Hu as (-> & Hs & Hf).
          apply ret_Ok in H1. destruct H1 as [-> ->]. auto.
        - apply ret_Ok in H1. destruct H1 as [_ ->]. split; [reflexivity|].
          discriminate. }
      destruct Hw1 as [-> Hhb].
      destruct (Z.leb_spec remainder_herds herd_counter) as [Hle|Hlt].
      * apply bind_Ok in H. destruct H as (unused & w2 & Hu & H).
        apply (Hun bulls_per_herd) in Hu. destruct Hu as (-> & Hs & Hf).
        apply ret_Ok in H. destruct H as [-> ->]. auto.
      * apply ret_Ok in H. destruct H as [-> ->].
        destruct Hhb as [Hs Hf]; [apply Z.ltb_lt; exact Hlt|]. auto.
    + apply bind_Ok in H. destruct H as (unused & w2 & Hu & H).
      apply (Hun service_bulls) in Hu. destruct Hu as (-> & Hs & Hf).
      apply ret_Ok in H. destruct H as [-> ->]. auto.
  - destruct (_ <? service_bulls); apply ret_Ok in H; destruct H as [-> ->];
      (split; [reflexivity|]); (split; [apply slice_to_sublist|discriminate]).
Qed.

(** X29. For every [bull_criterion] other than 'polled',
    [get_herd_bulls] picks the portfolio among the bulls of mating age,
    in the order in which [fetch_ages] returns them; with [bull_unique]
    no bull whose id is in [bull_used] is picked.  The list [bulls] is
    shuffled only after the bulls of mating age have been selected: the
    caller's list comes back rearranged, the portfolio is the same
    whatever numbers are drawn, and the records are only read. *)
Theorem get_herd_bulls_random_portfolio bulls generation herd_counter
    bull_unique bull_used service_bulls bull_mating_age cow_mating_age
    herd_bulls bulls' w w' :
  get_herd_bulls_random bulls generation herd_counter bull_unique bull_used
    service_bulls bull_mating_age cow_mating_age w = Ok (herd_bulls, bulls') w' ->
  heap w' = heap w /\ bulls' ≡ₚ bulls /\
  (exists aged_bulls,
      fetch_ages bulls generation bull_mating_age cow_mating_age w
      = Ok aged_bulls w /\
      herd_bulls `sublist_of` aged_bulls) /\
  (bull_unique = true ->
   Forall (fun l => exists a, heap w !! l = Some a /\ animal a ∉ bull_used)
     herd_bulls) /\
  (forall w2, heap w2 = heap w ->
     exists bulls2 w2',
       get_herd_bulls_random bulls generation herd_counter bull_unique
         bull_used service_bulls bull_mating_age cow_mating_age w2
       = Ok (herd_bulls, bulls2) w2').
Proof.
  unfold get_herd_bulls_random. intros H.
  apply bind_Ok in H. destruct H as (herd_list & w1 & Hh & H).
  apply (reads_store_Ok _ _ _ _ (get_unique_herd_list_reads _)) in Hh.
  destruct Hh as [-> Hh].
  apply bind_Ok in H. destruct H as (aged_bulls & w1 & Ha & H).
  pose proof (reads_store_Ok _ _ _ _ (fetch_ages_reads _ _ _ _) Ha) as [-> Ha'].
  apply bind_Ok in H. destruct H as (shuffled & w1 & Hs & H).
  destruct (random_shuffle_perm bulls w) as (l' & w1' & Hs' & Hheap & Hperm).
  rewrite Hs in Hs'. injection Hs' as <- <-.
  apply bind_Ok in H. destruct H as (hb & w2 & Hp & H).
  apply ret_Ok in H. destruct H as [E ->]. injection E as -> ->.
  pose proof Hp as Hp0.
  apply random_portfolio_spec in Hp. destruct Hp as (-> & Hsub & Huniq).
  split; [exact Hheap|]. split; [exact Hperm|].
  split; [exists aged_bulls; auto|].
  split.
  { intros Hu. specialize (Huniq Hu). rewrite Hheap in Huniq. exact Huniq. }
  intros w2 Hw2.
  destruct (random_shuffle_perm bulls w2) as (l2 & w2' & Hs2 & Hheap2 & _).
  exists l2, w2'.
  eapply bind_Ok_intro; [apply Hh; exact Hw2|].
  eapply bind_Ok_intro; [apply Ha'; exact Hw2|].
  eapply bind_Ok_intro; [exact Hs2|].
  eapply bind_Ok_intro; [|reflexivity].
  apply (reads_store_Ok _ _ _ _ (random_portfolio_reads _ _ _ _ _ _ _)) in Hp0.
  destruct Hp0 as [_ Hp0].
  apply Hp0. congruence.
Qed.

Lemma get_herd_bulls_random_portfolio_witness :
  exists herd_bulls bulls' w' aged_bulls,
    get_herd_bulls_random [0; 1]%nat 2 0 true [1] 1 2 2 (small_world [1 # 2]%Q)
    = Ok (herd_bulls, bulls') w'
    /\ fetch_ages [0; 1]%nat 2 2 2 (small_world [1 # 2]%Q)
       = Ok aged_bulls (small_world [1 # 2]%Q)
    /\ herd_bulls `sublist_of` aged_bulls
    /\ bulls' ≡ₚ [0; 1]%nat.
Proof.
  assert (Hrun : exists herd_bulls bulls' w',
             get_herd_bulls_random [0; 1]%nat 2 0 true [1] 1 2 2
               (small_world [1 # 2]%Q)
             = Ok (herd_bulls, bulls') w').
  { eexists _, _, _. vm_compute. reflexivity. }
  destruct Hrun as (herd_bulls & bulls' & w' & Hrun).
  destruct (get_herd_bulls_random_portfolio _ _ _ _ _ _ _ _ _ _ _ _ Hrun)
    as (_ & Hperm & (aged_bulls & Ha & Hsub) & _).
  exists herd_bulls, bulls', w', aged_bulls. auto.
Defined.

(** ** The ids of the calves of one allocation: [pryce_mating]
       (l.1416-1772) *)

Lemma create_new_calf_animal sire_r dam_r recessives calf_id generation cl dl
    hb c w w' :
  create_new_calf sire_r dam_r recessives calf_id generation cl dl hb w
  = Ok c w' ->
  heap w' = heap w /\ animal c = calf_id.
Proof.
  intros H. split; [apply create_new_calf_spec in H; tauto|].
  unfold create_new_calf in H.
  apply bind_Ok in H. destruct H as (coin & w1 & _ & H).
  apply bind_Ok in H. destruct H as (z & w2 & _ & H).
  eapply (calf_loci_inv (fun c => animal c = calf_id)
            (fun c => animal c = calf_id)) in H.
  - tauto.
  - intros rk rv calf f wa wb HP Hl. apply calf_locus_identity in Hl.
    unfold same_identity in Hl. destruct f; destruct Hl as [Hl _]; congruence.
  - reflexivity.
Qed.

Lemma calf_ids_inv_heap n0 st w w' :
  heap w' = heap w -> calf_ids_inv n0 st w -> calf_ids_inv n0 st w'.
Proof. unfold calf_ids_inv. intros ->. auto. Qed.

Lemma animal_set_bred (h : list animal_record) c cow v l :
  h !! c = Some cow ->
  animal <$> <[c := set_bred v cow]> h !! l = animal <$> h !! l.
Proof.
  intros Hc. destruct (decide (l = c)) as [->|Hne].
  - rewrite list_lookup_insert_eq by (eapply lookup_lt_Some; exact Hc).
    rewrite Hc. reflexivity.
  - rewrite list_lookup_insert_ne by congruence. reflexivity.
Qed.

Lemma calf_ids_mated n0 st h d k calf c cow m (female : bool) :
  calf_ids_inv n0 st (mkWorld h d k) ->
  animal calf = next_id st ->
  (h ++ [calf]) !! c = Some cow ->
  calf_ids_inv n0
    (if female
     then mkAlloc m (new_cows st ++ [length h]) (new_bulls st) (next_id st + 1)
     else mkAlloc m (new_cows st) (new_bulls st ++ [length h]) (next_id st + 1))
    (mkWorld (<[c := set_bred 1 cow]> (h ++ [calf])) d k).
Proof.
  intros (Hnext & ids & Hids & Hnd & Hrange) Hcalf Hc. simpl in *.
  assert (Hnew : animal <$> <[c := set_bred 1 cow]> (h ++ [calf]) !! length h
                 = Some (next_id st)).
  { rewrite (animal_set_bred _ _ _ _ _ Hc).
    rewrite lookup_app_r by lia. rewrite Nat.sub_diag. simpl. congruence. }
  assert (Hold : forall ls is0,
            Forall2 (fun l i => animal <$> h !! l = Some i) ls is0 ->
            Forall2 (fun l i =>
                       animal <$> <[c := set_bred 1 cow]> (h ++ [calf]) !! l
                       = Some i) ls is0).
  { intros ls is0 HF. eapply Forall2_impl; [exact HF|].
    intros l i Hl. simpl in Hl. rewrite (animal_set_bred _ _ _ _ _ Hc).
    destruct (h !! l) as [a|] eqn:E; [|discriminate].
    rewrite (lookup_app_l_Some _ _ _ _ E). exact Hl. }
  assert (Hfresh : next_id st ∉ ids).
  { intros Hin. rewrite Forall_forall in Hrange. apply Hrange in Hin. lia. }
  assert (Hrange' : Forall (fun i => n0 <= i < next_id st + 1) (next_id st :: ids)).
  { constructor; [lia|].
    eapply Forall_impl; [exact Hrange|]. simpl. intros. lia. }
  apply Forall2_app_inv_l in Hids.
  destruct Hids as (ic & ib & Hic & Hib & ->).
  pose proof (Forall2_length _ _ _ Hic) as Lc.
  pose proof (Forall2_length _ _ _ Hib) as Lb.
  rewrite length_app in Hnext.
  assert (Hp : (ic ++ [next_id st]) ++ ib ≡ₚ next_id st :: ic ++ ib).
  { rewrite <- app_assoc. simpl. symmetry. apply Permutation_middle. }
  assert (Hq : ic ++ ib ++ [next_id st] ≡ₚ next_id st :: ic ++ ib).
  { rewrite app_assoc. symmetry. apply Permutation_cons_append. }
  destruct female; unfold calf_ids_inv;
    cbn [next_id new_cows new_bulls heap]; split.
  - rewrite !length_app. cbn [length]. lia.
  - exists ((ic ++ [next_id st]) ++ ib). split; [|split].
    + apply Forall2_app; [apply Forall2_app|]; auto;
        try (constructor; [exact Hnew|constructor]).
    + rewrite Hp. apply NoDup_cons. split; [exact Hfresh|exact Hnd].
    + rewrite Hp. exact Hrange'.
  - rewrite !length_app. cbn [length]. lia.
  - exists (ic ++ ib ++ [next_id st]). split; [|split].
    + apply Forall2_app; [|apply Forall2_app]; auto;
        try (constructor; [exact Hnew|constructor]).
    + rewrite Hq. apply NoDup_cons. split; [exact Hfresh|exact Hnd].
    + rewrite Hq. exact Hrange'.
Qed.

Section CalfIds.

Variable argsort : list Q -> list nat.
Variables (recessives : recessives_t) (generation max_matings : Z)
          (bull_deficit : string) (calf_loss dehorning_loss harvest_beef : Q)
          (inbr_tbl : gmap (Z * Z) Q) (n0 : Z).

Lemma try_bulls_ids bull_portfolio sorted_bulls c bidxs :
  forall st w st' w',
  calf_ids_inv n0 st w ->
  try_bulls recessives generation max_matings bull_deficit calf_loss
    dehorning_loss harvest_beef inbr_tbl bull_portfolio sorted_bulls c bidxs
    st w = Ok st' w' ->
  calf_ids_inv n0 st' w'.
Proof.
  induction bidxs as [|bidx bidxs IH]; simpl; intros st w st' w' Hinv H.
  - minv. assumption.
  - minv; eauto;
      match goal with
      | H : create_new_calf _ _ _ _ _ _ _ _ _ = Ok _ _ |- _ =>
          apply create_new_calf_animal in H; destruct H as [Hheap Hid]
      end;
      simpl in *.
    + eapply (calf_ids_mated _ _ _ _ _ _ _ _ _ true); eauto.
      eapply calf_ids_inv_heap; [|exact Hinv]. simpl. congruence.
    + eapply (calf_ids_mated _ _ _ _ _ _ _ _ _ false); eauto.
      eapply calf_ids_inv_heap; [|exact Hinv]. simpl. congruence.
Qed.

Lemma allocate_cow_ids b_mat bull_portfolio cow_id_list c st w st' w' :
  calf_ids_inv n0 st w ->
  allocate_cow argsort recessives generation max_matings bull_deficit
    calf_loss dehorning_loss harvest_beef inbr_tbl b_mat bull_portfolio
    cow_id_list c st w = Ok st' w' ->
  calf_ids_inv n0 st' w'.
Proof.
  unfold allocate_cow. intros Hinv H. minv.
  match goal with H : map_m _ _ _ = Ok _ _ |- _ =>
    apply map_m_heap in H; [subst|intros ? ? ? ? ?; minv; reflexivity] end.
  eapply try_bulls_ids; eauto.
Qed.

Lemma allocate_herd_ids flambda penalty carrier_penalty h st w st' w' :
  calf_ids_inv n0 st w ->
  allocate_herd argsort recessives generation max_matings bull_deficit
    calf_loss dehorning_loss harvest_beef inbr_tbl flambda penalty
    carrier_penalty h st w = Ok st' w' ->
  calf_ids_inv n0 st' w'.
Proof.
  destruct h as [hid [herd_bulls herd_cows]]. unfold allocate_herd.
  intros Hinv H. minv.
  repeat match goal with
         | H : map_m deref _ _ = Ok _ _ |- _ => apply map_m_deref_pure in H; subst
         | H : build_b_mat _ _ _ _ _ _ _ _ = Ok _ _ |- _ =>
             apply build_b_mat_pure in H; subst
         | H : sort_on _ _ _ _ = Ok _ _ |- _ => apply sort_on_pure in H; subst
         end.
  match goal with H : fold_m _ _ _ _ = Ok _ _ |- _ => revert H end.
  apply fold_m_inv; [|assumption].
  intros c s w0 s' w0' _. apply allocate_cow_ids.
Qed.

End CalfIds.

(** X30. The calves of one run of the allocation get ids of their own:
    counting from the id that [get_next_id] returns for the population,
    every calf carries a different id, none is skipped, and the id that
    the next calf would get follows the last one. *)
Theorem pryce_allocate_numbers_calves argsort cows bulls dead_cows dead_bulls
    generation recessives max_matings penalty flambda bull_deficit
    carrier_penalty calf_loss dehorning_loss harvest_beef extras ci w st w' :
  pryce_allocate argsort cows bulls dead_cows dead_bulls generation recessives
    max_matings penalty flambda bull_deficit carrier_penalty calf_loss
    dehorning_loss harvest_beef extras ci w = Ok st w' ->
  exists n0 ids,
    get_next_id cows bulls dead_cows dead_bulls extras w = Ok n0 w /\
    next_id st = n0 + Z.of_nat (length (new_cows st ++ new_bulls st)) /\
    Forall2 (fun l i => animal <$> heap w' !! l = Some i)
      (new_cows st ++ new_bulls st) ids /\
    NoDup ids /\ Forall (fun i => n0 <= i < next_id st) ids.
Proof.
  unfold pryce_allocate. intros H.
  apply bind_Ok in H. destruct H as (m & w1 & H1 & H).
  apply init_matings_pure in H1. subst w1.
  apply bind_Ok in H. destruct H as (n0 & w1 & Hn & H).
  pose proof (get_next_id_pure _ _ _ _ _ _ _ _ Hn) as ->.
  apply bind_Ok in H. destruct H as (u & w1 & _ & H).
  assert (Hinv : calf_ids_inv n0 st w').
  { revert H. apply fold_m_inv.
    - intros h s w0 s' w0' _. apply allocate_herd_ids.
    - split; [simpl; lia|]. exists []. simpl.
      split; [constructor|]. split; [apply NoDup_nil_2|constructor]. }
  destruct Hinv as (Hnext & ids & Hids & Hnd & Hrange).
  exists n0, ids. auto.
Qed.

Lemma pryce_allocate_numbers_calves_witness :
  exists st w' ids,
    pryce_allocate argsort_stable [2; 3]%nat [0; 1]%nat [] [] 1 one_lethal 1
      true 25 "use_horned" false 0 0 0 [] small_portfolios (small_world [])
    = Ok st w'
    /\ Forall2 (fun l i => animal <$> heap w' !! l = Some i)
         (new_cows st ++ new_bulls st) ids
    /\ NoDup ids.
Proof.
  assert (Hrun : exists st w',
             pryce_allocate argsort_stable [2; 3]%nat [0; 1]%nat [] [] 1
               one_lethal 1 true 25 "use_horned" false 0 0 0 []
               small_portfolios (small_world [])
             = Ok st w').
  { eexists _, _. vm_compute. reflexivity. }
  destruct Hrun as (st & w' & Hrun).
  destruct (pryce_allocate_numbers_calves _ _ _ _ _ _ _ _ _ _ _ _ _ _ _ _ _ _
              _ _ Hrun) as (n0 & ids & _ & _ & Hids & Hnd & _).
  exists st, w', ids. auto.
Defined.
